(** * Pilot data analyzer: outage extraction, availability and compliance

    A shallow embedding of [src/data_analyzer.py] (class [PilotDataAnalyzer])
    and the properties of its analysis pipeline, followed by the parts of
    [src/report_generator.py], [src/email_sender.py], [src/pilot_automation.py]
    and [src/streamlit_app.py] that consume its results.

    Conventions of the embedding:
    - a pandas [Timestamp] / Python [datetime] is its number of nanoseconds
      since the epoch, a [Timedelta] a number of nanoseconds, both in [Z];
    - Python floats ([duration_minutes], the availability, the thresholds) are
      exact rationals in [Q]; rounding is not modelled, and comparisons of
      results are stated with [==];
    - a Python exception is a value of [Exc]: [float_div] raises
      [ZeroDivisionError] exactly where Python's [/] on floats does;
    - the outage dictionaries are records whose optional key ['ongoing'] is an
      [option];
    - what pandas and numpy compute ([sort_values], [np.mean], ...) is taken as
      a parameter of the pipeline. *)

From Stdlib Require Import ZArith QArith List String Ascii Bool Lia.
From Stdlib Require Import Sorted Permutation DecimalString.
Import ListNotations.

Local Open Scope Z_scope.

(** ** Exceptions *)

Inductive PyException : Type :=
| ZeroDivisionError
| TypeError
| IndexError
| AttributeError
| OtherError (msg : string).

Inductive Exc (A : Type) : Type :=
| Ok (a : A)
| Raise (e : PyException).

Arguments Ok {A} a.
Arguments Raise {A} e.

Definition bind {A B : Type} (c : Exc A) (k : A -> Exc B) : Exc B :=
  match c with
  | Ok a => k a
  | Raise e => Raise e
  end.

Notation "x <- c ;; k" := (bind c (fun x => k))
  (at level 61, c at next level, right associativity).

(** ** Time *)

Definition Timestamp : Type := Z.
Definition Timedelta : Type := Z.

(** [Timedelta.total_seconds()]: nanoseconds over 1e9. *)
Definition total_seconds (d : Timedelta) : Q :=
  (inject_Z d / inject_Z 1000000000)%Q.

(** [d.total_seconds() / 60], the divisor being the literal [60]. *)
Definition minutes (d : Timedelta) : Q := (total_seconds d / 60)%Q.

(** Python's [x / y] on floats. *)
Definition float_div (x y : Q) : Exc Q :=
  if Qeq_bool y 0 then Raise ZeroDivisionError else Ok (x / y)%Q.

(** ** Strings: [str.strip] and the [in] operator *)

Local Open Scope string_scope.

(** ASCII whitespace as [str.strip()] sees it: space, [\t \n \v \f \r] and
    the separators [\x1c]..[\x1f]. *)
Definition is_space (c : ascii) : bool :=
  let n := nat_of_ascii c in
  (Nat.eqb n 32 || (Nat.leb 9 n && Nat.leb n 13) || (Nat.leb 28 n && Nat.leb n 31))%bool.

Fixpoint lstrip (s : string) : string :=
  match s with
  | EmptyString => EmptyString
  | String c s' => if is_space c then lstrip s' else s
  end.

Fixpoint rstrip (s : string) : string :=
  match s with
  | EmptyString => EmptyString
  | String c s' =>
      match rstrip s' with
      | EmptyString => if is_space c then EmptyString else String c EmptyString
      | r => String c r
      end
  end.

Definition strip (s : string) : string := rstrip (lstrip s).

(** [needle in hay]. *)
Fixpoint contains (needle hay : string) : bool :=
  if prefix needle hay then true
  else match hay with
       | EmptyString => false
       | String _ hay' => contains needle hay'
       end.

(** ** Outage extraction *)

(** A row of the frame handed to [identify_outages]: the parsed [Time] and
    [str(row['Message'])]. *)
Record Row : Type := mkRow { Time : Timestamp; Message : string }.

(** The dictionaries appended to [outages].  The key ['ongoing'] is written
    only by the end-of-period branch. *)
Record Outage : Type := mkOutage {
  start : Timestamp;
  end_ : Timestamp;
  duration : Timedelta;
  duration_minutes : Q;
  ongoing : option bool
}.


(** [outage.get('ongoing', False)], as the report generator reads the key. *)
Definition get_ongoing (o : Outage) : bool :=
  match ongoing o with Some b => b | None => false end.

(** The loop variables of [identify_outages]. *)
Record ScanState : Type := mkScan {
  outages : list Outage;
  in_outage : bool;
  outage_start : option Timestamp
}.

Definition scan_init : ScanState := mkScan [] false None.

(** One iteration of [for idx, row in df.iterrows()]. *)
Definition scan_step (st : ScanState) (row : Row) : Exc ScanState :=
  let message := strip (Message row) in
  let timestamp := Time row in
  if contains "Pilot Inactive" message then
    if negb (in_outage st)
    then Ok (mkScan (outages st) true (Some timestamp))
    else Ok st
  else if contains "Pilot Active" message then
    if in_outage st then
      let outage_end := timestamp in
      match outage_start st with
      | Some s =>
          let d := outage_end - s in
          Ok (mkScan (outages st ++ [mkOutage s outage_end d (minutes d) None])
                     false (outage_start st))
      | None => Raise TypeError (* [outage_end - None] *)
      end
    else Ok st
  else Ok st.

Fixpoint scan (rows : list Row) (st : ScanState) : Exc ScanState :=
  match rows with
  | [] => Ok st
  | row :: rows' => st' <- scan_step st row ;; scan rows' st'
  end.

(** [df[time_col].iloc[-1]]. *)
Fixpoint iloc_last (rows : list Row) : Exc Timestamp :=
  match rows with
  | [] => Raise IndexError
  | [row] => Ok (Time row)
  | _ :: rows' => iloc_last rows'
  end.

(** Truth value of [outage_start]: [None] is false, a timestamp is true. *)
Definition truthy (t : option Timestamp) : bool :=
  match t with Some _ => true | None => false end.

(** [identify_outages].  Timestamps and their differences are integers
    without bound: the model covers the frames on which every difference of
    two timestamps is a valid [Timedelta] (see [timedelta_range] below); on
    others pandas raises at the subtraction. *)
Definition identify_outages (df : list Row) : Exc (list Outage) :=
  st <- scan df scan_init ;;
  if (in_outage st && truthy (outage_start st))%bool then
    outage_end <- iloc_last df ;;
    match outage_start st with
    | Some s =>
        let d := outage_end - s in
        Ok (outages st ++ [mkOutage s outage_end d (minutes d) (Some true)])%list
    | None => Raise TypeError
    end
  else Ok (outages st).

(** ** Availability *)

(** [month_data], of which the analyzer reads ['first_day'] and ['last_day']. *)
Record MonthData : Type := mkMonth { first_day : Timestamp; last_day : Timestamp }.

(** [sum(o['duration_minutes'] for o in outages)]: from [0], left to right. *)
Definition sum_duration_minutes (outs : list Outage) : Q :=
  fold_left Qplus (map duration_minutes outs) 0%Q.

(** The body of the [try] block of [calculate_availability]. *)
Definition availability_body (outs : list Outage) (month_data : MonthData) : Exc Q :=
  let total_minutes := minutes (last_day month_data - first_day month_data) in
  let total_outage_minutes := sum_duration_minutes outs in
  q <- float_div (total_minutes - total_outage_minutes) total_minutes ;;
  Ok (q * 100)%Q.

(** [except Exception: return 0.0]. *)
Definition calculate_availability
    (df : list Row) (outs : list Outage) (month_data : MonthData) : Q :=
  match availability_body outs month_data with
  | Ok availability_percent => availability_percent
  | Raise _ => 0%Q
  end.

(** ** EPA compliance *)

(** The thresholds assigned in [__init__]; nothing reassigns them. *)
Definition MAX_OUTAGES_PER_MONTH : nat := 10.
Definition MAX_OUTAGE_DURATION_MINUTES : Q := 60.
Definition MIN_AVAILABILITY_PERCENT : Q := 99.

(** The three messages of [compliance_issues], one constructor per f-string,
    with the values the f-string interpolates. *)
Inductive Issue : Type :=
| ExceededMaximumOutages (n max : nat)
| OutagesExceedingDuration (n : nat) (max : Q)
| AvailabilityBelowMinimum (availability min : Q).

Record Compliance : Type := mkCompliance {
  compliant : bool;
  status : string;
  issues : list Issue
}.

Definition Qltb (x y : Q) : bool := negb (Qle_bool y x).

(** [o['duration_minutes'] > self.MAX_OUTAGE_DURATION_MINUTES]. *)
Definition is_long (o : Outage) : bool :=
  Qltb MAX_OUTAGE_DURATION_MINUTES (duration_minutes o).

Definition check_epa_compliance (outs : list Outage) (availability_percent : Q)
    : Compliance :=
  let compliance_issues := [] in
  let compliance_issues :=
    if (MAX_OUTAGES_PER_MONTH <? List.length outs)%nat
    then (compliance_issues
          ++ [ExceededMaximumOutages (List.length outs) MAX_OUTAGES_PER_MONTH])%list
    else compliance_issues in
  let long_outages := filter is_long outs in
  let compliance_issues :=
    match long_outages with
    | _ :: _ =>
        (compliance_issues
         ++ [OutagesExceedingDuration (List.length long_outages)
                                      MAX_OUTAGE_DURATION_MINUTES])%list
    | [] => compliance_issues
    end in
  let compliance_issues :=
    if Qltb availability_percent MIN_AVAILABILITY_PERCENT
    then (compliance_issues
          ++ [AvailabilityBelowMinimum availability_percent
                                       MIN_AVAILABILITY_PERCENT])%list
    else compliance_issues in
  let is_compliant := Nat.eqb (List.length compliance_issues) 0 in
  let status := if is_compliant then "COMPLIANT" else "NON-COMPLIANT" in
  mkCompliance is_compliant status compliance_issues.

(** ** Statistics *)

Record Statistics : Type := mkStatistics {
  mean_duration_minutes : Q;
  median_duration_minutes : Q;
  max_duration_minutes : Q;
  min_duration_minutes : Q;
  std_duration_minutes : Q
}.

(** The numpy reductions [calculate_statistics] calls on a non-empty list. *)
Record Numpy : Type := mkNumpy {
  np_mean : list Q -> Q;
  np_median : list Q -> Q;
  np_max : list Q -> Q;
  np_min : list Q -> Q;
  np_std : list Q -> Q
}.

Definition calculate_statistics (np : Numpy) (outs : list Outage) : Statistics :=
  match outs with
  | [] => mkStatistics 0 0 0 0 0
  | _ :: _ =>
      let durations := map duration_minutes outs in
      mkStatistics (np_mean np durations) (np_median np durations)
                   (np_max np durations) (np_min np durations)
                   (np_std np durations)
  end.

(** ** The analysis pipeline *)

Local Open Scope Z_scope.

(** A cell of the [Time] column as loaded, by what [pd.to_datetime] makes of
    it: a timestamp (timezone-naive, like the datetimes of the window),
    [NaT] for a missing value, or a parse error. *)
Inductive TimeCell : Type :=
| Stamp (t : Timestamp)
| NaT
| Unparseable.

Record RawRow : Type := mkRaw { RTime : TimeCell; RMessage : string }.

(** What the [Message] column holds, as the [.str] accessor of pandas judges
    it: strings and missing values only, which it accepts for any selection
    of rows; no string at all (a column of dtype float64, int64, bool or
    datetime64: numbers, or nothing but empty cells), which it refuses with
    [AttributeError]; or an object column mixing strings with other values,
    where the verdict depends on the values of the rows selected. *)
Inductive MessageColumn : Type :=
| TextColumn
| NonTextColumn
| MixedColumn (accepts : list RawRow -> bool).

(** The loaded table: [list(df.columns)], read through the columns ["Time"]
    and ["Message"] its rows in file order, with [str(cell)] for the
    message, and the kind of the [Message] column. *)
Record DataFrame : Type := mkFrame {
  columns : list string;
  rows : list RawRow;
  message_column : MessageColumn
}.

(** [df['Message'].str.contains('Pilot', case=False, na=False)] on the rows
    selected.  Only the count of the mask is used, in a message that is
    printed; what remains is whether the accessor raises. *)
Definition str_contains_pilot (df : DataFrame) (selected : list RawRow) : Exc unit :=
  match message_column df with
  | TextColumn => Ok tt
  | NonTextColumn => Raise AttributeError
  | MixedColumn accepts =>
      if accepts selected then Ok tt else Raise AttributeError
  end.

Definition has_column (name : string) (df : DataFrame) : bool :=
  existsb (String.eqb name) (columns df).

Definition parseable (c : TimeCell) : bool :=
  match c with Unparseable => false | _ => true end.

(** [parse_timestamps]: [pd.to_datetime] converts the whole column or raises,
    and the [except] branch then returns the frame as it was. *)
Definition parse_timestamps (df : DataFrame) : DataFrame * bool :=
  if has_column "Time" df
  then (df, forallb (fun r => parseable (RTime r)) (rows df))
  else (df, false).

(** Order of the [Time] column under [sort_values]: ascending, [NaT] last. *)
Definition time_le (a b : TimeCell) : Prop :=
  match a, b with
  | Stamp x, Stamp y => x <= y
  | _, Stamp _ => False
  | _, _ => True
  end.

Definition time_leb (a b : TimeCell) : bool :=
  match a, b with
  | Stamp x, Stamp y => x <=? y
  | _, Stamp _ => false
  | _, _ => true
  end.

Definition row_le (a b : RawRow) : Prop := time_le (RTime a) (RTime b).

(** The boolean mask [(df['Time'] >= first_day) & (df['Time'] <= last_day)];
    a comparison with [NaT] is false. *)
Definition in_window (month_data : MonthData) (r : RawRow) : bool :=
  match RTime r with
  | Stamp t => ((first_day month_data <=? t) && (t <=? last_day month_data))%bool
  | _ => false
  end.

(** The rows a mask built by [in_window] keeps all carry a timestamp. *)
Fixpoint to_rows (l : list RawRow) : list Row :=
  match l with
  | [] => []
  | r :: l' =>
      match RTime r with
      | Stamp t => mkRow t (RMessage r) :: to_rows l'
      | _ => to_rows l'
      end
  end.

Definition window_filter (month_data : MonthData) (l : list RawRow) : list Row :=
  to_rows (filter (in_window month_data) l).

Record Summary : Type := mkSummary {
  total_outages : nat;
  total_outage_minutes : Q;
  availability_percent : Q;
  epa_compliance : string;
  compliance_details : Compliance;
  statistics : Statistics
}.

(** The ['error'] entry of a failed result: a literal of the source, or
    [str(e)] of the exception caught. *)
Inductive ErrorText : Type :=
| Literal (s : string)
| StrOf (e : PyException).

Definition dquote : string := String "034"%char EmptyString.

Section Pipeline.

(** The device descriptor is passed through untouched. *)
Variable Device : Type.

(** [DataFrame.sort_values('Time')] with its default [kind]. *)
Variable sort_values : list RawRow -> list RawRow.

Variable np : Numpy.

(** [repr] of [list(df.columns)], as the f-string interpolates it. *)
Variable repr_columns : list string -> string.

Inductive AnalysisResult : Type :=
| Success (data : list Row) (outs : list Outage) (summary : Summary)
          (device : Device) (month_data : MonthData)
| Failure (error : ErrorText).

Definition required_columns_error (df : DataFrame) : string :=
  "Required columns not found. Expected " ++ dquote ++ "Time" ++ dquote
  ++ " and " ++ dquote ++ "Message" ++ dquote ++ ", got: "
  ++ repr_columns (columns df).

(** Sorting and windowing, up to the frame handed to [identify_outages]. *)
Definition normalize (df : DataFrame) (month_data : MonthData) : list Row :=
  window_filter month_data (sort_values (rows df)).

(** [analyze_data], from the outcome of loading the file on. *)
Definition analyze_data (loaded : Exc (option DataFrame)) (device : Device)
    (month_data : MonthData) : AnalysisResult :=
  match loaded with
  | Raise e => Failure (StrOf e)
  | Ok None => Failure (Literal "Failed to load data file")
  | Ok (Some df) =>
      if (negb (has_column "Time" df) || negb (has_column "Message" df))%bool
      then Failure (Literal (required_columns_error df))
      else
        let (df, parsed) := parse_timestamps df in
        if negb parsed
        then (* the unparsed column meets a datetime in the window mask *)
             Failure (StrOf TypeError)
        else
          let data := normalize df month_data in
          match str_contains_pilot df
                  (filter (in_window month_data) (sort_values (rows df))) with
          | Raise e => Failure (StrOf e)
          | Ok _ =>
          match identify_outages data with
          | Raise e => Failure (StrOf e)
          | Ok outs =>
              let availability := calculate_availability data outs month_data in
              let compliance := check_epa_compliance outs availability in
              let stats := calculate_statistics np outs in
              let summary :=
                mkSummary (List.length outs) (sum_duration_minutes outs)
                          availability (status compliance) compliance stats in
              Success data outs summary device month_data
          end
          end
  end.

(** The [.str] accessor accepts the [Message] values of the windowed frame. *)
Definition holds_text (df : DataFrame) (month_data : MonthData) : Prop :=
  str_contains_pilot df (filter (in_window month_data) (sort_values (rows df)))
  = Ok tt.

End Pipeline.

Arguments Success {Device} data outs summary device month_data.
Arguments Failure {Device} error.

(** ** An instance of [sort_values] for the sample inputs

    An insertion sort on the [Time] key, a row going in front of the rows of
    equal key. *)

Fixpoint insert_row (before : RawRow -> RawRow -> bool) (x : RawRow)
    (l : list RawRow) : list RawRow :=
  match l with
  | [] => [x]
  | y :: l' => if before x y then x :: l else y :: insert_row before x l'
  end.

Definition insertion_sort (before : RawRow -> RawRow -> bool)
    (l : list RawRow) : list RawRow :=
  fold_right (insert_row before) [] l.

Definition before_le (x y : RawRow) : bool := time_leb (RTime x) (RTime y).

Definition sort_keeping_ties : list RawRow -> list RawRow := insertion_sort before_le.

(** ** The sort behind [sort_values]

    [df.sort_values('Time')] names no [kind]: pandas hands the keys that are
    not [NaT] to numpy's [argsort] of kind ['quicksort'] ([nargsort] in
    pandas/core/sorting.py) and puts the rows without a timestamp last.
    numpy's argsort of that kind is the introsort of npysort/quicksort.cpp
    in its portable form, which the [datetime64] keys take: median-of-three
    quicksort on an index array, insertion sort on ranges of at most 17
    entries, heapsort once the depth limit is used up.

    A pointer into [tosort] is the position it points at, counted from the
    start of the array.  The loops that the C code leaves by a test on the
    data carry a count [fuel] here; it is never used up, each loop ends by
    its own test first ([scan_up_spec], [exchange_spec], [sift_spec],
    [partition_loop_small] and [aquicksort_spec] below). *)

Section Argsort.

(** The keys [v] ([npy_datetime], none of them [NaT]). *)
Variable v : list Timestamp.

Definition key (i : nat) : Timestamp := nth i v 0.

(** [DATETIME_LT] on keys that are not [NaT]. *)
Definition LT (a b : Timestamp) : bool := a <? b.

(** [*p] and [*p = x] on the index array [tosort]. *)
Definition at_ (a : list nat) (p : nat) : nat := nth p a 0%nat.

Fixpoint store (a : list nat) (p x : nat) : list nat :=
  match a, p with
  | [], _ => []
  | _ :: a', O => x :: a'
  | y :: a', S p' => y :: store a' p' x
  end.

Definition INTP_SWAP (a : list nat) (p q : nat) : list nat :=
  let tmp := at_ a q in store (store a q (at_ a p)) p tmp.

Definition SMALL_QUICKSORT : nat := 16.

(** [npy_get_msb]: the number of halvings that leave [unum] positive. *)
Definition npy_get_msb (unum : nat) : Z := Z.of_nat (Nat.log2 unum).

(** *** [aheapsort_]

    Called on the range that starts at [tosort] and has [n] entries; the
    code indexes it from 1 through [a = tosort - 1]. *)

Definition a_ (tosort k : nat) : nat := (tosort + k - 1)%nat.

(** The inner [for (i, j; j <= n;)] of both phases, with the store
    [a[i] = tmp] that follows it. *)
Fixpoint sift (fuel : nat) (a : list nat) (tosort tmp i j n : nat) : list nat :=
  match fuel with
  | O => store a (a_ tosort i) tmp
  | S fuel' =>
      if (j <=? n)%nat then
        let j := if ((j <? n)%nat
                     && LT (key (at_ a (a_ tosort j)))
                           (key (at_ a (a_ tosort (j + 1)))))%bool
                 then (j + 1)%nat else j in
        if LT (key tmp) (key (at_ a (a_ tosort j)))
        then sift fuel' (store a (a_ tosort i) (at_ a (a_ tosort j)))
                  tosort tmp j (j + j)%nat n
        else store a (a_ tosort i) tmp
      else store a (a_ tosort i) tmp
  end.

(** [for (l = n >> 1; l > 0; --l)]. *)
Fixpoint heapify (l : nat) (a : list nat) (tosort n : nat) : list nat :=
  match l with
  | O => a
  | S l' =>
      let tmp := at_ a (a_ tosort l) in
      heapify l' (sift n a tosort tmp l (l + l)%nat n) tosort n
  end.

(** [for (; n > 1;)]. *)
Fixpoint extract (n : nat) (a : list nat) (tosort : nat) : list nat :=
  match n with
  | S (S _ as n') =>
      let tmp := at_ a (a_ tosort n) in
      let a := store a (a_ tosort n) (at_ a (a_ tosort 1)) in
      extract n' (sift n' a tosort tmp 1 2 n') tosort
  | _ => a
  end.

Definition aheapsort_ (a : list nat) (tosort n : nat) : list nat :=
  extract n (heapify (n / 2) a tosort n) tosort.

(** *** [aquicksort_] *)

(** [do { ++pi; } while (LT(v[*pi], vp))]. *)
Fixpoint scan_up (fuel : nat) (a : list nat) (vp : Timestamp) (pi : nat) : nat :=
  match fuel with
  | O => S pi
  | S fuel' =>
      if LT (key (at_ a (S pi))) vp then scan_up fuel' a vp (S pi) else S pi
  end.

(** [do { --pj; } while (LT(vp, v[*pj]))]. *)
Fixpoint scan_down (a : list nat) (vp : Timestamp) (pj : nat) : nat :=
  match pj with
  | O => O
  | S pj' => if LT vp (key (at_ a pj')) then scan_down a vp pj' else pj'
  end.

(** The [for (;;)] of the partition: the entries are exchanged until the two
    scans meet; [pi] is where they met. *)
Fixpoint exchange (fuel : nat) (a : list nat) (vp : Timestamp) (pi pj : nat)
  : list nat * nat :=
  match fuel with
  | O => (a, pi)
  | S fuel' =>
      let pi := scan_up (List.length a) a vp pi in
      let pj := scan_down a vp pj in
      if (pj <=? pi)%nat then (a, pi)
      else exchange fuel' (INTP_SWAP a pi pj) vp pi pj
  end.

(** The three conditional swaps that leave the median at [pm]. *)
Definition median3 (a : list nat) (pl pm pr : nat) : list nat :=
  let a := if LT (key (at_ a pm)) (key (at_ a pl)) then INTP_SWAP a pm pl else a in
  let a := if LT (key (at_ a pr)) (key (at_ a pm)) then INTP_SWAP a pr pm else a in
  if LT (key (at_ a pm)) (key (at_ a pl)) then INTP_SWAP a pm pl else a.

(** One partition of the range [pl .. pr]: the array and the final place
    [pi] of the pivot. *)
Definition partition (a : list nat) (pl pr : nat) : list nat * nat :=
  let pm := (pl + (pr - pl) / 2)%nat in
  let a := median3 a pl pm pr in
  let vp := key (at_ a pm) in
  let pj := (pr - 1)%nat in
  let a := INTP_SWAP a pm pj in
  let (a, pi) := exchange (List.length a) a vp pl pj in
  let pk := (pr - 1)%nat in
  (INTP_SWAP a pi pk, pi).

(** The loop variables: the index array, the range at hand, its depth
    budget, and the stack of the ranges put aside, each with the budget
    stored for it ([stack] and [depth] move in step). *)
Record Quick : Type := mkQuick {
  tosort : list nat;
  pl : nat;
  pr : nat;
  cdepth : Z;
  sptr : list (nat * nat * Z)
}.

(** [while ((pr - pl) > SMALL_QUICKSORT)]: partition, put the larger part
    on the stack, go on with the smaller. *)
Fixpoint partition_loop (fuel : nat) (q : Quick) : Quick :=
  match fuel with
  | O => q
  | S fuel' =>
      if (SMALL_QUICKSORT <? pr q - pl q)%nat then
        let (a, pi) := partition (tosort q) (pl q) (pr q) in
        let cdepth' := cdepth q - 1 in
        if (pi - pl q <? pr q - pi)%nat
        then partition_loop fuel'
               (mkQuick a (pl q) (pi - 1) cdepth'
                        ((S pi, pr q, cdepth') :: sptr q))
        else partition_loop fuel'
               (mkQuick a (S pi) (pr q) cdepth'
                        ((pl q, (pi - 1)%nat, cdepth') :: sptr q))
      else q
  end.

(** The [while (pj > pl && LT(vp, v[*pk]))] of the insertion sort, with the
    store [*pj = vi] that follows it; [pk] is [pj - 1] throughout. *)
Fixpoint shift (a : list nat) (vi : nat) (vp : Timestamp) (pl pj : nat) : list nat :=
  match pj with
  | O => store a pj vi
  | S pk =>
      if ((pl <? pj)%nat && LT vp (key (at_ a pk)))%bool
      then shift (store a pj (at_ a pk)) vi vp pl pk
      else store a pj vi
  end.

(** [for (pi = pl + 1; pi <= pr; ++pi)]. *)
Definition insertion (a : list nat) (pl pr : nat) : list nat :=
  fold_left (fun a pi => let vi := at_ a pi in shift a vi (key vi) pl pi)
            (seq (S pl) (pr - pl)) a.

(** One turn of [while (1)], up to [stack_pop]: heapsort of the range when
    its budget is used up, else the partitions and the insertion sort. *)
Definition sort_range (q : Quick) : Quick :=
  if cdepth q <? 0
  then mkQuick (aheapsort_ (tosort q) (pl q) (pr q - pl q + 1))
               (pl q) (pr q) (cdepth q) (sptr q)
  else
    let q' := partition_loop (List.length (tosort q)) q in
    mkQuick (insertion (tosort q') (pl q') (pr q'))
            (pl q') (pr q') (cdepth q') (sptr q').

(** [while (1)]: a range per turn, the next one popped from the stack,
    until the stack is empty. *)
Fixpoint aquicksort_loop (fuel : nat) (q : Quick) : option (list nat) :=
  match fuel with
  | O => None
  | S fuel' =>
      let q' := sort_range q in
      match sptr q' with
      | [] => Some (tosort q')
      | (pl', pr', cdepth') :: stack =>
          aquicksort_loop fuel' (mkQuick (tosort q') pl' pr' cdepth' stack)
      end
  end.

(** [aquicksort_(vv, tosort, num)]: [pl] at the first entry, [pr] at the
    last, the depth budget [npy_get_msb(num) * 2]. *)
Definition aquicksort_ (tosort : list nat) (num : nat) : option (list nat) :=
  aquicksort_loop (S num)
    (mkQuick tosort 0 (num - 1) (npy_get_msb num * 2) []).

End Argsort.

(** [ndarray.argsort(kind='quicksort')]: the index array starts as
    [0 .. n-1]. *)
Definition argsort (v : list Timestamp) : list nat :=
  match aquicksort_ v (seq 0 (List.length v)) (List.length v) with
  | Some a => a
  | None => seq 0 (List.length v)
  end.

(** *** [nargsort] and [DataFrame.sort_values]

    The frame reaches [sort_values] with a parsed [Time] column; a cell
    without a timestamp is [NaT] to [isna]. *)
Definition isna (r : RawRow) : bool :=
  match RTime r with Stamp _ => false | _ => true end.

(** The key of a row that has a timestamp. *)
Definition i8 (r : RawRow) : Timestamp :=
  match RTime r with Stamp t => t | _ => 0 end.

(** [items[i]]. *)
Definition iloc (items : list RawRow) (i : nat) : RawRow :=
  nth i items (mkRaw NaT EmptyString).

(** [nargsort(items, kind='quicksort', ascending=True, na_position='last')]:
    the keys that are not [NaT] are argsorted, their positions in the frame
    looked up, and the positions of the [NaT] appended. *)
Definition nargsort (items : list RawRow) : list nat :=
  let idx := seq 0 (List.length items) in
  let non_nans := map i8 (filter (fun r => negb (isna r)) items) in
  let non_nan_idx := filter (fun i => negb (isna (iloc items i))) idx in
  let nan_idx := filter (fun i => isna (iloc items i)) idx in
  let indexer := map (fun k => nth k non_nan_idx 0%nat) (argsort non_nans) in
  (indexer ++ nan_idx)%list.

(** [df.sort_values('Time')]: the rows taken in the order of the indexer. *)
Definition sort_values_quicksort (l : list RawRow) : list RawRow :=
  map (iloc l) (nargsort l).

(** ** Predicates of the statements *)

(** No two intervals overlap: an interval ends before any later one starts. *)
Definition non_overlapping (outs : list Outage) : Prop :=
  ForallOrdPairs (fun a b => end_ a <= start b) outs.

Definition ascending_starts (outs : list Outage) : Prop :=
  ForallOrdPairs (fun a b => start a <= start b) outs.

Definition duration_consistent (o : Outage) : Prop :=
  duration o = end_ o - start o /\ 0 <= duration o.

(** An interval as the scan builds it from a sorted stream. *)
Definition well_formed (o : Outage) : Prop :=
  start o <= end_ o /\ duration o = end_ o - start o
  /\ duration_minutes o = minutes (duration o).

(** While in an outage the start is known. *)
Definition start_known (st : ScanState) : Prop :=
  in_outage st = true -> exists s, outage_start st = Some s.

(** Invariant of the scan over a stream sorted by time, [t] being the
    timestamp of the last row read. *)
Definition scan_inv (t : Timestamp) (st : ScanState) : Prop :=
  Forall well_formed (outages st)
  /\ non_overlapping (outages st)
  /\ Forall (fun o => end_ o <= t) (outages st)
  /\ (in_outage st = true ->
      exists s, outage_start st = Some s /\ s <= t
                /\ Forall (fun o => end_ o <= s) (outages st)).

(** What [sort_values] promises whatever its [kind]: the same rows, in
    ascending order of [Time]. *)
Definition sorts_by_time (sort : list RawRow -> list RawRow) : Prop :=
  (forall l, Permutation (sort l) l) /\ (forall l, Sorted row_le (sort l)).

(** A table that passes the schema check and whose timestamps parse. *)
Definition well_loaded (df : DataFrame) : Prop :=
  has_column "Time" df = true /\ has_column "Message" df = true
  /\ Forall (fun r => RTime r <> Unparseable) (rows df).


Definition minute_ns : Z := 60000000000.

(** The availability contract in the words of the specification: the window
    length is the span of the window in minutes, and the quotient has no
    value on a window of length zero. *)
Definition spec_window_total_minutes (month_data : MonthData) : Q :=
  (inject_Z (last_day month_data - first_day month_data) / inject_Z minute_ns)%Q.

Definition spec_outage_minutes (outs : list Outage) : Q :=
  fold_right (fun o acc => (duration_minutes o + acc)%Q) 0%Q outs.

Definition spec_availability_percent (outs : list Outage) (month_data : MonthData)
    : option Q :=
  let w := spec_window_total_minutes month_data in
  if Qeq_bool w 0 then None
  else Some (((w - spec_outage_minutes outs) / w) * 100)%Q.

(** The three rules of [check_epa_compliance], each on its own. *)
Definition too_many_outages (outs : list Outage) : bool :=
  (MAX_OUTAGES_PER_MONTH <? List.length outs)%nat.

Definition some_long_outage (outs : list Outage) : bool := existsb is_long outs.

Definition low_availability (availability : Q) : bool :=
  Qltb availability MIN_AVAILABILITY_PERCENT.

Definition issue_if (violated : bool) (issue : Issue) : list Issue :=
  if violated then [issue] else [].

(** ** Predicates of the sort *)

(** [a'] comes from [a] by exchanges of entries inside the range
    [lo .. hi]. *)
Inductive shuffled (lo hi : nat) (a : list nat) : list nat -> Prop :=
| shuffled_refl : shuffled lo hi a a
| shuffled_swap (a' : list nat) (p q : nat) :
    shuffled lo hi a a' ->
    (lo <= p <= hi)%nat -> (lo <= q <= hi)%nat ->
    (p < List.length a)%nat -> (q < List.length a)%nat ->
    shuffled lo hi a (INTP_SWAP a' p q).

(** The keys of the entries [lo .. hi] of the index array ascend. *)
Definition sorted_seg (v : list Timestamp) (a : list nat) (lo hi : nat) : Prop :=
  forall p q, (lo <= p)%nat -> (p <= q)%nat -> (q <= hi)%nat ->
  key v (at_ a p) <= key v (at_ a q).

(** The entry [k] of the heap of [n] entries that starts at [tosort] is no
    smaller than its children. *)
Definition heap_at (v : list Timestamp) (a : list nat) (tosort k n : nat) : Prop :=
  forall c, (c = 2 * k \/ c = 2 * k + 1)%nat -> (c <= n)%nat ->
  key v (at_ a (a_ tosort c)) <= key v (at_ a (a_ tosort k)).

(** The ranges still to be sorted: the one at hand and those on the
    stack. *)
Definition ranges (q : Quick) : list (nat * nat) :=
  (pl q, pr q) :: map fst (sptr q).

Definition same_range (segs : list (nat * nat)) (i j : nat) : Prop :=
  exists s, In s segs /\ (fst s <= i <= snd s)%nat /\ (fst s <= j <= snd s)%nat.

Fixpoint apart (segs : list (nat * nat)) : Prop :=
  match segs with
  | [] => True
  | s :: rest =>
      Forall (fun t => (snd s < fst t \/ snd t < fst s)%nat) rest /\ apart rest
  end.

(** Entries to be looked at again. *)
Definition pending (segs : list (nat * nat)) : nat :=
  fold_right (fun s acc => (snd s - fst s + 1 + acc)%nat) 0%nat segs.

(** Invariant of [aquicksort_]: the ranges to be sorted lie apart inside the
    array, and two entries are in ascending order unless one range holds
    both. *)
Definition quick_inv (v : list Timestamp) (n : nat) (a : list nat)
    (segs : list (nat * nat)) : Prop :=
  List.length a = n
  /\ Forall (fun s => (fst s <= snd s < n)%nat) segs
  /\ apart segs
  /\ forall i j, (i < j < n)%nat ->
       same_range segs i j \/ key v (at_ a i) <= key v (at_ a j).

(** The claim of stability, on the indexer (the file positions of the rows
    in their order after the sort): of two rows with one timestamp, the one
    that is first in the file comes first. *)
Definition keeps_ties (items : list RawRow) (indexer : list nat) : Prop :=
  forall p q, (p < q < List.length indexer)%nat ->
  RTime (iloc items (nth p indexer 0%nat)) = RTime (iloc items (nth q indexer 0%nat)) ->
  (nth p indexer 0%nat < nth q indexer 0%nat)%nat.

(** ** Sample inputs *)

Definition sample_numpy : Numpy :=
  mkNumpy (fun _ => 0%Q) (fun _ => 0%Q) (fun _ => 0%Q) (fun _ => 0%Q) (fun _ => 0%Q).

Definition sample_repr (cols : list string) : string := String.concat ", " cols.

(** Scenario A: ten minutes of outage, then a heartbeat. *)
Definition sample_events : list Row :=
  [ mkRow 0 "Pilot Inactive";
    mkRow (10 * minute_ns) "Pilot Active";
    mkRow (20 * minute_ns) "Heartbeat" ].

(** Scenario D: the stream ends inactive. *)
Definition sample_unterminated : list Row :=
  [ mkRow 0 "Pilot Inactive";
    mkRow (10 * minute_ns) "Pilot Active";
    mkRow (30 * minute_ns) " Pilot Inactive ";
    mkRow (45 * minute_ns) "Heartbeat" ].

Definition sample_month : MonthData := mkMonth 0 (43200 * minute_ns).
Definition degenerate_month : MonthData := mkMonth 0 0.


Definition sample_frame_no_message : DataFrame :=
  mkFrame ["Time"; "Text"] [ mkRaw (Stamp 0) "Pilot Inactive" ] TextColumn.

(** Twenty rows with one timestamp; row 1 reports the pilot inactive and
    row 2 reports it active. *)
Definition tied_rows : list RawRow :=
  ([ mkRaw (Stamp 0) "Heartbeat";
     mkRaw (Stamp 0) "Pilot Inactive";
     mkRaw (Stamp 0) "Pilot Active" ]
   ++ repeat (mkRaw (Stamp 0) "Heartbeat") 17)%list.


(** Every difference of two timestamps of the frame is a valid [Timedelta],
    which pandas keeps in 64 bits of nanoseconds. *)
Definition timedelta_range (df : list Row) : Prop :=
  forall r r', In r df -> In r' df -> - 2 ^ 63 < Time r' - Time r < 2 ^ 63.

Definition outage_of_minutes (m : Z) : Outage :=
  mkOutage 0 (m * minute_ns) (m * minute_ns) (minutes (m * minute_ns)) None.

(** ** Further predicates on rows and frames *)

(** How the [if]/[elif] of [identify_outages] reads a row: "Pilot Inactive"
    is tested first, "Pilot Active" only when it is absent. *)
Definition inactive_row (r : Row) : bool := contains "Pilot Inactive" (Message r).

Definition active_row (r : Row) : bool :=
  (negb (contains "Pilot Inactive" (Message r))
   && contains "Pilot Active" (Message r))%bool.

Definition indicator_row (r : Row) : bool := (inactive_row r || active_row r)%bool.

(** A needle that [str.strip] cannot cut into: it starts and ends with a
    character that is not whitespace. *)
Definition solid (n : string) : Prop :=
  (exists c m, n = String c m /\ is_space c = false)
  /\ (exists m d, n = (m ++ String d EmptyString)%string /\ is_space d = false).

(** Where an interval closed by the loop comes from, within the frame [df]. *)
Definition closed_from (df : list Row) (o : Outage) : Prop :=
  (exists r, In r df /\ inactive_row r = true /\ Time r = start o)
  /\ (exists r, In r df /\ active_row r = true /\ Time r = end_ o)
  /\ ongoing o = None.

Definition pending_from (df : list Row) (st : ScanState) : Prop :=
  in_outage st = true ->
  exists s r, outage_start st = Some s /\ In r df /\ inactive_row r = true
              /\ Time r = s.

Definition b2n (b : bool) : nat := if b then 1%nat else 0%nat.



(** ** The report generator ([src/report_generator.py]) *)

(** [str(n)] of a natural number. *)
Definition str_nat (n : nat) : string := NilZero.string_of_uint (Nat.to_uint n).

Definition newline : string := String "010"%char EmptyString.

(** The flowables the generator builds, by their content: the text and the
    style name of a paragraph, the size of a spacer in inches, the cells of a
    table.  Column widths and table styles are constants of the source. *)
Inductive Element : Type :=
| Paragraph (text : string) (style : string)
| Spacer (width : Q) (height_inch : Q)
| Table (data : list (list string)).

(** The thresholds written as literals in the report generator. *)
Definition REPORT_MAX_OUTAGES : nat := 10.
Definition REPORT_MIN_AVAILABILITY : Q := 99.
Definition REPORT_LONGEST_OUTAGE_LIMIT : Q := 4.
Definition REPORT_DURATION_LIMIT : Q := 240.

Definition mark (ok : bool) : string := if ok then "✓" else "✗".

Section Report.

(** [t.strftime('%m/%d/%Y %H:%M')] and [f"{x:.2f}"]. *)
Variable strftime_minutes : Timestamp -> string.
Variable format_2f : Q -> string.

(** The text of an issue, as [check_epa_compliance] formatted it. *)
Variable issue_text : Issue -> string.

(** [colors.green.hexval()] and [colors.red.hexval()]. *)
Variable green_hexval : string.
Variable red_hexval : string.

(** One pass of the loop of [_create_outage_details]; [status] is computed
    and not used. *)
Definition outage_table_row (idx : nat) (outage : Outage) : list string :=
  let status := if get_ongoing outage then "⚠️ Ongoing" else "✓ Resolved" in
  let duration_status :=
    if Qltb REPORT_DURATION_LIMIT (duration_minutes outage)
    then "✗ Exceeds limit" else "✓ Within limit" in
  [ str_nat idx;
    strftime_minutes (start outage);
    strftime_minutes (end_ outage);
    format_2f (duration_minutes outage);
    duration_status ].

(** [for idx, outage in enumerate(outages, idx)]. *)
Fixpoint outage_table_rows (idx : nat) (outs : list Outage) : list (list string) :=
  match outs with
  | [] => []
  | outage :: outs' => outage_table_row idx outage :: outage_table_rows (S idx) outs'
  end.

Definition _create_outage_details (outs : list Outage) : list Element :=
  let elements := [Paragraph "Outage Event Details" "SectionHeader"] in
  match outs with
  | [] =>
      (elements
       ++ [Paragraph "No outage events recorded this period." "Normal"])%list
  | _ :: _ =>
      let table_data :=
        (["Event #"; "Start Time"; "End Time"; "Duration (minutes)"; "Status"]
         :: outage_table_rows 1 outs) in
      (elements ++ [Table table_data; Spacer 1 (3 # 10)])%list
  end.

(** The rows of the key metrics table of [_create_executive_summary]. *)
Definition metrics_data (summary : Summary) : list (list string) :=
  [ ["Metric"; "Value"; "Status"];
    ["Total Outages"; str_nat (total_outages summary);
     mark (Nat.leb (total_outages summary) REPORT_MAX_OUTAGES)];
    ["System Availability"; format_2f (availability_percent summary) ++ "%";
     mark (Qle_bool REPORT_MIN_AVAILABILITY (availability_percent summary))];
    ["Total Outage Time";
     format_2f (total_outage_minutes summary) ++ " minutes"; EmptyString];
    ["Longest Outage";
     format_2f (max_duration_minutes (statistics summary)) ++ " minutes";
     mark (Qle_bool (max_duration_minutes (statistics summary))
                    REPORT_LONGEST_OUTAGE_LIMIT)] ].

Definition _create_executive_summary (summary : Summary) : list Element :=
  let elements := [Paragraph "Executive Summary" "SectionHeader"] in
  let compliance := compliance_details summary in
  let status_color_hexval := if compliant compliance then green_hexval else red_hexval in
  let status_text :=
    newline ++ "        <font color=" ++ dquote ++ status_color_hexval ++ dquote
    ++ "><b>EPA Compliance Status: " ++ status compliance ++ "</b></font>"
    ++ newline ++ "        " in
  let elements :=
    (elements ++ [Paragraph status_text "Normal"; Spacer 1 (2 # 10)])%list in
  let elements :=
    (elements ++ [Table (metrics_data summary); Spacer 1 (3 # 10)])%list in
  match compliant compliance, issues compliance with
  | false, _ :: _ =>
      (elements
       ++ [Paragraph "Compliance Issues:" "SubSection"]
       ++ map (fun issue => Paragraph ("• " ++ issue_text issue) "Normal")
              (issues compliance)
       ++ [Spacer 1 (2 # 10)])%list
  | _, _ => elements
  end.

End Report.

(** ** The email sender ([src/email_sender.py]) *)

(** [s.split(sep)] for a separator of one character. *)
Fixpoint split_on (sep : ascii) (s : string) : list string :=
  match s with
  | EmptyString => [EmptyString]
  | String c s' =>
      if Ascii.eqb c sep then EmptyString :: split_on sep s'
      else match split_on sep s' with
           | h :: t => String c h :: t
           | [] => [String c EmptyString]
           end
  end.

(** [s.lower()] on ASCII text. *)
Definition lower_ascii (c : ascii) : ascii :=
  let n := nat_of_ascii c in
  if (Nat.leb 65 n && Nat.leb n 90)%bool then ascii_of_nat (n + 32) else c.

Fixpoint lower (s : string) : string :=
  match s with
  | EmptyString => EmptyString
  | String c s' => String (lower_ascii c) (lower s')
  end.

Definition is_ascii (s : string) : Prop :=
  Forall (fun c => (nat_of_ascii c < 128)%nat) (list_ascii_of_string s).

(** The dictionary [smtp_configs], in source order. *)
Definition smtp_configs : list (string * (string * nat)) :=
  [ ("gmail.com", ("smtp.gmail.com", 587%nat));
    ("outlook.com", ("smtp-mail.outlook.com", 587%nat));
    ("hotmail.com", ("smtp-mail.outlook.com", 587%nat));
    ("live.com", ("smtp-mail.outlook.com", 587%nat));
    ("office365.com", ("smtp.office365.com", 587%nat));
    ("yahoo.com", ("smtp.mail.yahoo.com", 587%nat));
    ("ctjenergy.com", ("smtp.office365.com", 587%nat)) ].

(** [d.get(key, default)]. *)
Fixpoint dict_get {V : Type} (d : list (string * V)) (key : string) (default : V) : V :=
  match d with
  | [] => default
  | (k, v) :: d' => if String.eqb k key then v else dict_get d' key default
  end.

(** [l[1]]. *)
Definition index_1 (l : list string) : Exc string :=
  match l with
  | _ :: x :: _ => Ok x
  | _ => Raise IndexError
  end.

Definition _detect_smtp_settings (email : string) : Exc (string * nat) :=
  part <- index_1 (split_on "@"%char email) ;;
  let domain := lower part in
  Ok (dict_get smtp_configs domain ("smtp.gmail.com", 587%nat)).

Record EmailSender : Type := mkEmailSender {
  from_email : string;
  password : string;
  smtp_server : string;
  smtp_port : nat
}.

(** [EmailSender.__init__]. *)
Definition EmailSender_init (from_email password : string)
    (smtp_server : option string) (smtp_port : option nat) : Exc EmailSender :=
  match smtp_server, smtp_port with
  | Some server, Some port => Ok (mkEmailSender from_email password server port)
  | _, _ =>
      settings <- _detect_smtp_settings from_email ;;
      Ok (mkEmailSender from_email password (fst settings) (snd settings))
  end.

(** Stand-ins for the formatting functions on the sample inputs. *)
Definition sample_strftime (t : Timestamp) : string := str_nat (Z.to_nat t).
Definition sample_format_2f (q : Q) : string :=
  str_nat (Z.to_nat (Qnum q / Zpos (Qden q))).

(** A table with one outage of 90 minutes. *)
Definition sample_frame_long : DataFrame :=
  mkFrame ["Time"; "Message"]
          [ mkRaw (Stamp 0) "Pilot Inactive";
            mkRaw (Stamp (90 * minute_ns)) "Pilot Active" ]
          TextColumn.

Definition sample_issue_text (i : Issue) : string :=
  match i with
  | ExceededMaximumOutages n m =>
      "Exceeded maximum outages: " ++ str_nat n ++ " > " ++ str_nat m
  | OutagesExceedingDuration n m =>
      "Found " ++ str_nat n ++ " outage(s) exceeding " ++ sample_format_2f m
      ++ " minutes"
  | AvailabilityBelowMinimum a m =>
      "Availability below minimum: " ++ sample_format_2f a ++ "% < "
      ++ sample_format_2f m ++ "%"
  end.

(** ** The orchestration ([src/pilot_automation.py]) *)

(** The keys of [config['device']] that [run_automation] reads. *)
Record DeviceInfo : Type := mkDevice { device_name : string; device_id : string }.

Record Config : Type := mkConfig {
  device : DeviceInfo;
  month : MonthData;
  email_recipients : list string;
  email_from : string;
  email_password : string;
  send_email : bool;
  report_period_display : string
}.

(** [s.replace(old, new)] for single characters. *)
Fixpoint replace_char (old new : ascii) (s : string) : string :=
  match s with
  | EmptyString => EmptyString
  | String c s' =>
      String (if Ascii.eqb c old then new else c) (replace_char old new s')
  end.

(** The dictionaries returned by [generate_report] and [send_report]. *)
Inductive PdfResult : Type :=
| PdfOk (path : string)
| PdfFailed (error : ErrorText).

Inductive EmailResult : Type :=
| EmailOk
| EmailFailed (error : ErrorText).

(** The ['details'] entry of a failed run: a text, or the traceback of the
    exception caught. *)
Inductive Details : Type :=
| DetailsText (t : ErrorText)
| Traceback (e : PyException).

Record DisplaySummary : Type := mkDisplay {
  display_total_outages : nat;
  display_availability : string;
  display_compliance : string
}.

Inductive RunResult : Type :=
| RunSuccess (report_path : string) (email_sent : bool) (summary : DisplaySummary)
             (detailed_results : AnalysisResult DeviceInfo)
| RunFailure (error : ErrorText) (details : Details).

(** The calls of [update_status]: message and progress. *)
Definition Status : Type := (string * nat)%type.

(** The [except Exception] branch of [run_automation]. *)
Definition caught (e : PyException) : RunResult :=
  RunFailure (StrOf e) (Traceback e).

Section Automation.

(** The collaborators of [run_automation], by the outcome of each call:
    [Path.mkdir], the join of the output directory and the file name, the
    downloader, [os.path.exists], the loading of the file by the analyzer,
    the three library parameters of the analyzer, the PDF generator, the
    sending of the email, and [f"{x:.2f}"]. *)
Variable mkdir_output : Exc unit.
Variable path_join : string -> string -> string.
Variable download_device_data :
  string -> Timestamp -> Timestamp -> string -> Exc (option string).
Variable path_exists : string -> bool.
Variable load_file : string -> Exc (option DataFrame).
Variable sort_values : list RawRow -> list RawRow.
Variable np : Numpy.
Variable repr_columns : list string -> string.
Variable generate_report :
  AnalysisResult DeviceInfo -> DeviceInfo -> MonthData -> string -> Exc PdfResult.
Variable send_report :
  EmailSender -> list string -> DeviceInfo -> string -> string -> Summary
  -> EmailResult.
Variable format_2f : Q -> string.

(** [run_automation]: the statuses issued, in order, and the result. *)
Definition run_automation (config : Config) : list Status * RunResult :=
  match mkdir_output with
  | Raise e => ([], caught e)
  | Ok _ =>
  let device := device config in
  let month_data := month config in
  let device_name := device_name device in
  let device_id := device_id device in
  let report_filename :=
    device_name ++ "_Monthly_Report_"
    ++ replace_char " " "_" (report_period_display config) ++ ".pdf" in
  let report_path := path_join "Monthly_Reports" report_filename in
  let log :=
    [("Step 1/5: Logging into Uplink system and downloading data...", 20%nat)] in
  match download_device_data device_id (first_day month_data)
          (last_day month_data) device_name with
  | Raise e => (log, caught e)
  | Ok csv_file =>
  let download_failed :=
    (log, RunFailure (Literal "Failed to download data from Uplink system")
            (DetailsText (Literal "CSV file not found after download attempt"))) in
  match csv_file with
  | None => download_failed
  | Some csv_file =>
  if (String.eqb csv_file EmptyString || negb (path_exists csv_file))%bool
  then download_failed
  else
  let log := (log ++ [("Step 2/5: Analyzing pilot outage events...", 40%nat)])%list in
  let analysis_results :=
    analyze_data DeviceInfo sort_values np repr_columns (load_file csv_file)
      device month_data in
  match analysis_results with
  | Failure error =>
      (log, RunFailure (Literal "Failed to analyze data") (DetailsText error))
  | Success _ _ analysis_summary _ _ =>
  let log := (log ++ [("Step 3/5: Generating PDF report...", 60%nat)])%list in
  match generate_report analysis_results device month_data report_path with
  | Raise e => (log, caught e)
  | Ok (PdfFailed error) =>
      (log, RunFailure (Literal "Failed to generate PDF report") (DetailsText error))
  | Ok (PdfOk _) =>
  let finish (log : list Status) (email_sent : bool) :=
    let log := (log ++ [("Step 5/5: Finalizing report...", 95%nat)])%list in
    let summary :=
      mkDisplay (total_outages analysis_summary)
                (format_2f (availability_percent analysis_summary) ++ "%")
                (epa_compliance analysis_summary) in
    (log, RunSuccess report_path email_sent summary analysis_results) in
  if (send_email config && negb (String.eqb (email_password config) EmptyString))%bool
  then
    let log := (log ++ [("Step 4/5: Sending email report...", 80%nat)])%list in
    match EmailSender_init (email_from config) (email_password config) None None with
    | Raise e => (log, caught e)
    | Ok email_sender =>
        let email_result :=
          send_report email_sender (email_recipients config) device
            (report_period_display config) report_path analysis_summary in
        let email_sent :=
          match email_result with EmailOk => true | EmailFailed _ => false end in
        finish log email_sent
    end
  else finish log false
  end end end end end.

(** The download step handed over an existing file [csv]. *)
Definition downloaded (config : Config) (csv : string) : Prop :=
  (exists u, mkdir_output = Ok u)
  /\ download_device_data (device_id (device config)) (first_day (month config))
       (last_day (month config)) (device_name (device config))
     = Ok (Some csv)
  /\ csv <> EmptyString
  /\ path_exists csv = true.

(** The path of the report, as [run_automation] builds it. *)
Definition report_path_of (config : Config) : string :=
  path_join "Monthly_Reports"
    (device_name (device config) ++ "_Monthly_Report_"
     ++ replace_char " " "_" (report_period_display config) ++ ".pdf").

Definition email_requested (config : Config) : bool :=
  (send_email config && negb (String.eqb (email_password config) EmptyString))%bool.

End Automation.

(** Collaborators for the sample runs: every step succeeds, the email is
    refused by the server. *)
Definition sample_path_join (a b : string) : string := a ++ "/" ++ b.

Definition sample_download (id : string) (first last : Timestamp) (name : string)
    : Exc (option string) := Ok (Some "events.xlsx").

Definition sample_generate_report (r : AnalysisResult DeviceInfo) (d : DeviceInfo)
    (m : MonthData) (path : string) : Exc PdfResult := Ok (PdfOk path).

Definition sample_send_report (s : EmailSender) (recipients : list string)
    (d : DeviceInfo) (period path : string) (summary : Summary) : EmailResult :=
  EmailFailed (Literal "Authentication failed. Please check email credentials.").

Definition sample_device : DeviceInfo := mkDevice "Scout-12197" "359205108536865".

Definition sample_config (from_address : string) (send : bool) : Config :=
  mkConfig sample_device sample_month ["test@example.com"] from_address
           "test_password" send "September 2025".

(** A run of the sample configuration on the table [df]. *)
Definition sample_run (df : DataFrame) (from_address : string) (send : bool)
    : list Status * RunResult :=
  run_automation (Ok tt) sample_path_join sample_download (fun _ => true)
    (fun _ => Ok (Some df)) sort_keeping_ties sample_numpy sample_repr
    sample_generate_report sample_send_report sample_format_2f
    (sample_config from_address send).

(** The progress values a run can issue, in order. *)
Definition progress_sequences : list (list nat) :=
  [ []; [20]; [20; 40]; [20; 40; 60]; [20; 40; 60; 80]; [20; 40; 60; 95];
    [20; 40; 60; 80; 95] ]%nat.

Definition is_success (r : RunResult) : bool :=
  match r with RunSuccess _ _ _ _ => true | RunFailure _ _ => false end.

(** ** The recipients field of the dashboard ([src/streamlit_app.py]) *)

(** [[e.strip() for e in email_recipients.split('\n') if e.strip()]]. *)
Definition parse_recipients (email_recipients : string) : list string :=
  map strip
      (filter (fun e => negb (String.eqb (strip e) EmptyString))
              (split_on "010"%char email_recipients)).

(** [not email_recipients.strip()], the test of the warning "At least one
    email recipient required". *)
Definition recipients_missing (email_recipients : string) : bool :=
  String.eqb (strip email_recipients) EmptyString.

Definition all_space (s : string) : bool :=
  forallb is_space (list_ascii_of_string s).

(** * Properties *)

(** ** The scan never raises *)

Lemma start_known_init : start_known scan_init.
Proof. unfold start_known; simpl; discriminate. Qed.

Lemma scan_step_total (st : ScanState) (row : Row) :
  start_known st ->
  exists st', scan_step st row = Ok st' /\ start_known st'.
Proof.
  intros Hk. unfold scan_step.
  destruct (contains "Pilot Inactive" (strip (Message row))).
  - destruct (in_outage st) eqn:Hin; simpl.
    + exists st; split; [reflexivity | exact Hk].
    + eexists; split; [reflexivity |].
      intros _; simpl; eauto.
  - destruct (contains "Pilot Active" (strip (Message row))).
    + destruct (in_outage st) eqn:Hin.
      * destruct (Hk Hin) as [s Hs]. rewrite Hs.
        eexists; split; [reflexivity |].
        unfold start_known; simpl; discriminate.
      * exists st; split; [reflexivity | exact Hk].
    + exists st; split; [reflexivity | exact Hk].
Qed.

Lemma scan_total (rows : list Row) :
  forall st, start_known st ->
  exists st', scan rows st = Ok st' /\ start_known st'.
Proof.
  induction rows as [|row rows IH]; intros st Hk; simpl.
  - exists st; auto.
  - destruct (scan_step_total st row Hk) as [st1 [E1 Hk1]].
    rewrite E1; simpl. apply IH; exact Hk1.
Qed.

Lemma last_cons_default {A : Type} (ts : list A) :
  forall x d, last (x :: ts) d = last ts x.
Proof.
  induction ts as [|y ts IH]; intros x d; [reflexivity |].
  change (last (x :: y :: ts) d) with (last (y :: ts) d).
  rewrite (IH y d), (IH y x). reflexivity.
Qed.

Lemma iloc_last_cons (row : Row) (rows : list Row) :
  iloc_last (row :: rows) = Ok (last (map Time rows) (Time row)).
Proof.
  revert row; induction rows as [|r rows IH]; intros row.
  - reflexivity.
  - change (iloc_last (row :: r :: rows)) with (iloc_last (r :: rows)).
    rewrite IH. simpl map. rewrite last_cons_default. reflexivity.
Qed.

(** The outages collected by the loop never carry the key ['ongoing']. *)
Lemma scan_step_closed (st st' : ScanState) (row : Row) :
  scan_step st row = Ok st' ->
  Forall (fun o => ongoing o = None) (outages st) ->
  Forall (fun o => ongoing o = None) (outages st').
Proof.
  unfold scan_step; intros E H.
  destruct (contains "Pilot Inactive" (strip (Message row))).
  - destruct (in_outage st); simpl in E; inversion E; subst; simpl; exact H.
  - destruct (contains "Pilot Active" (strip (Message row))).
    + destruct (in_outage st).
      * destruct (outage_start st); inversion E; subst; simpl.
        apply Forall_app; split; [exact H | repeat constructor].
      * inversion E; subst; exact H.
    + inversion E; subst; exact H.
Qed.

Lemma scan_closed (rows : list Row) :
  forall st st', scan rows st = Ok st' ->
  Forall (fun o => ongoing o = None) (outages st) ->
  Forall (fun o => ongoing o = None) (outages st').
Proof.
  induction rows as [|row rows IH]; intros st st' E H; simpl in E.
  - inversion E; subst; exact H.
  - destruct (scan_step st row) as [st1|e] eqn:E1; simpl in E; [|discriminate].
    eapply IH; [exact E |]. eapply scan_step_closed; eauto.
Qed.

(** ** The scan over a stream sorted by time *)

Lemma non_overlapping_snoc (outs : list Outage) (o : Outage) :
  non_overlapping outs ->
  Forall (fun a => end_ a <= start o) outs ->
  non_overlapping (outs ++ [o]).
Proof.
  unfold non_overlapping.
  induction outs as [|a outs IH]; intros Hp Hb; simpl.
  - constructor; constructor.
  - inversion Hp; subst. inversion Hb; subst.
    constructor.
    + apply Forall_app; split; [assumption | constructor; [assumption | constructor]].
    + apply IH; assumption.
Qed.

Lemma Forall_end_le (outs : list Outage) (t t' : Timestamp) :
  t <= t' ->
  Forall (fun o => end_ o <= t) outs -> Forall (fun o => end_ o <= t') outs.
Proof.
  intros Hle H. eapply Forall_impl; [| exact H].
  simpl; intros; lia.
Qed.

Lemma scan_inv_mono (t t' : Timestamp) (st : ScanState) :
  t <= t' -> scan_inv t st -> scan_inv t' st.
Proof.
  intros Hle (Hwf & Hno & Hend & Hin).
  repeat split; try assumption.
  - eapply Forall_end_le; eauto.
  - intros Hi. destruct (Hin Hi) as (s & Hs & Hst & Hb).
    exists s; repeat split; auto; lia.
Qed.

Lemma scan_step_inv (t : Timestamp) (st : ScanState) (row : Row) :
  t <= Time row -> scan_inv t st ->
  exists st', scan_step st row = Ok st' /\ scan_inv (Time row) st'.
Proof.
  intros Hle Hinv.
  pose proof (scan_inv_mono _ _ _ Hle Hinv) as Hnow.
  assert (Hsame : exists st', Ok st = Ok st' /\ scan_inv (Time row) st')
    by (exists st; split; [reflexivity | exact Hnow]).
  destruct Hnow as (Hwf & Hno & Hend & Hin).
  unfold scan_step.
  destruct (contains "Pilot Inactive" (strip (Message row))).
  - destruct (in_outage st) eqn:Ei; simpl; [exact Hsame |].
    eexists; split; [reflexivity |].
    split; [exact Hwf |]. split; [exact Hno |]. split; [exact Hend |].
    intros _. exists (Time row); simpl. repeat split; auto; lia.
  - destruct (contains "Pilot Active" (strip (Message row))); [| exact Hsame].
    destruct (in_outage st) eqn:Ei; [| exact Hsame].
    destruct (Hin eq_refl) as (s & Hs & Hst & Hb). rewrite Hs.
    eexists; split; [reflexivity |]. simpl.
    split; [| split; [| split]]; simpl.
    + apply Forall_app; split; [exact Hwf |].
      constructor; [| constructor].
      unfold well_formed; simpl; repeat split; auto.
    + apply non_overlapping_snoc; simpl; assumption.
    + apply Forall_app; split; [exact Hend |].
      constructor; [simpl; lia | constructor].
    + discriminate.
Qed.

Lemma scan_sorted (rows : list Row) :
  forall t st,
    Sorted Z.le (t :: map Time rows) -> scan_inv t st ->
    exists st', scan rows st = Ok st'
                /\ scan_inv (last (map Time rows) t) st'.
Proof.
  induction rows as [|row rows IH]; intros t st Hs Hinv.
  - exists st; auto.
  - simpl scan.
    inversion Hs as [|? ? Hs' Hhd]; subst.
    inversion Hhd as [|? ? Hle]; subst.
    destruct (scan_step_inv t st row Hle Hinv) as (st1 & E1 & Hinv1).
    rewrite E1; cbn [bind].
    destruct (IH (Time row) st1 Hs' Hinv1) as (st' & E' & Hinv').
    exists st'; split; [exact E' |].
    change (map Time (row :: rows)) with (Time row :: map Time rows).
    rewrite last_cons_default. exact Hinv'.
Qed.

Lemma scan_inv_init (t : Timestamp) : scan_inv t scan_init.
Proof.
  unfold scan_inv, non_overlapping; simpl.
  repeat split; try constructor. discriminate.
Qed.

Lemma minutes_nonneg (d : Timedelta) : 0 <= d -> (0 <= minutes d)%Q.
Proof.
  intros H. unfold minutes, total_seconds.
  unfold Qle, Qdiv, Qmult, Qinv; simpl. lia.
Qed.

Lemma ascending_of_chain (outs : list Outage) :
  Forall well_formed outs -> non_overlapping outs -> ascending_starts outs.
Proof.
  unfold non_overlapping, ascending_starts.
  induction outs as [|a outs IH]; intros Hwf Hno.
  - constructor.
  - inversion Hwf as [|? ? Ha Hwf']; subst. inversion Hno as [|? ? Hb Hno']; subst.
    constructor; [| apply IH; assumption].
    eapply Forall_impl; [| exact Hb].
    simpl; intros b Hab. destruct Ha as (Hse & _). lia.
Qed.

Lemma well_formed_consistent (outs : list Outage) :
  Forall well_formed outs ->
  Forall (fun o => duration_consistent o
                   /\ duration_minutes o = minutes (duration o)
                   /\ (0 <= duration_minutes o)%Q) outs.
Proof.
  intros H. eapply Forall_impl; [| exact H].
  intros o (Hse & Hd & Hm). unfold duration_consistent.
  repeat split; auto; try lia.
  rewrite Hm. apply minutes_nonneg. lia.
Qed.

(** ** Shape of the result of [identify_outages] *)

Lemma iloc_last_is_last (df : list Row) :
  forall e d, iloc_last df = Ok e -> e = Time (last df d).
Proof.
  induction df as [|row df IH]; intros e d E; [discriminate |].
  destruct df as [|r df'].
  - simpl in E. inversion E. reflexivity.
  - change (iloc_last (row :: r :: df')) with (iloc_last (r :: df')) in E.
    rewrite last_cons_default. rewrite (IH e row E).
    destruct df'; reflexivity.
Qed.

Lemma scan_nil_inactive (df : list Row) (st : ScanState) :
  scan df scan_init = Ok st -> in_outage st = true -> df <> [].
Proof.
  intros E Hin ->. simpl in E. inversion E; subst. discriminate.
Qed.

(** Either the scan ends active and the collected outages are returned, or
    it ends inactive and one interval, closed at the last row, is added. *)
Lemma identify_outages_cases (df : list Row) :
  exists st,
    scan df scan_init = Ok st
    /\ Forall (fun o => ongoing o = None) (outages st)
    /\ ((in_outage st = false /\ identify_outages df = Ok (outages st))
        \/ (in_outage st = true
            /\ exists s e,
                 outage_start st = Some s /\ iloc_last df = Ok e
                 /\ identify_outages df
                    = Ok (outages st
                          ++ [mkOutage s e (e - s) (minutes (e - s)) (Some true)])%list)).
Proof.
  destruct (scan_total df scan_init start_known_init) as (st & E & Hk).
  exists st. split; [exact E |].
  split; [eapply scan_closed; [exact E | constructor] |].
  unfold identify_outages. rewrite E; cbn [bind].
  destruct (in_outage st) eqn:Ei.
  - right. split; [reflexivity |].
    destruct (Hk Ei) as [s Hs].
    assert (Hne : df <> []) by (eapply scan_nil_inactive; eauto).
    destruct df as [|row rows]; [contradiction |].
    exists s, (last (map Time rows) (Time row)).
    rewrite Hs, iloc_last_cons. cbn [truthy andb bind].
    repeat split.
  - left. split; reflexivity.
Qed.


(** On a stream sorted by time the intervals are well formed and chained. *)
Lemma identify_outages_chain (df : list Row) :
  Sorted Z.le (map Time df) ->
  exists outs, identify_outages df = Ok outs
               /\ Forall well_formed outs /\ non_overlapping outs.
Proof.
  intros Hs. destruct df as [|row rows].
  - exists []. repeat split; constructor.
  - assert (Hs' : Sorted Z.le (Time row :: map Time (row :: rows))).
    { constructor; [exact Hs | constructor; apply Z.le_refl]. }
    destruct (scan_sorted (row :: rows) (Time row) scan_init Hs' (scan_inv_init _))
      as (st & E & Hwf & Hno & Hend & Hin).
    unfold identify_outages. rewrite E; cbn [bind].
    destruct (in_outage st) eqn:Ei.
    + destruct (Hin eq_refl) as (s & Hst & Hle & Hb).
      rewrite Hst, iloc_last_cons. cbn [truthy andb bind].
      change (map Time (row :: rows)) with (Time row :: map Time rows) in Hle.
      rewrite last_cons_default in Hle.
      eexists; split; [reflexivity |]. split.
      * apply Forall_app; split; [exact Hwf |].
        constructor; [| constructor].
        unfold well_formed; simpl; repeat split; auto.
      * apply non_overlapping_snoc; simpl; assumption.
    + cbn [andb]. exists (outages st). repeat split; assumption.
Qed.

Ltac sorted_times :=
  repeat first [ apply Sorted_nil | apply Sorted_cons
               | apply HdRel_nil | apply HdRel_cons
               | (vm_compute; discriminate) ].

(** C2 -- On every event sequence sorted ascending by timestamp,
    [identify_outages] returns intervals that are pairwise non-overlapping
    (each ends no later than any later one starts), in ascending order of
    their start, each with [duration = end - start >= 0]. *)
Theorem identify_outages_intervals_ordered (df : list Row) :
  Sorted Z.le (map Time df) ->
  exists outs,
    identify_outages df = Ok outs
    /\ non_overlapping outs
    /\ ascending_starts outs
    /\ Forall duration_consistent outs.
Proof.
  intros Hs.
  destruct (identify_outages_chain df Hs) as (outs & E & Hwf & Hno).
  exists outs. split; [exact E |]. split; [exact Hno |].
  split; [apply ascending_of_chain; assumption |].
  eapply Forall_impl; [| apply well_formed_consistent; exact Hwf].
  simpl; intros o H; apply H.
Qed.

Lemma identify_outages_intervals_ordered_witness :
  Sorted Z.le (map Time sample_unterminated)
  /\ exists outs,
       identify_outages sample_unterminated = Ok outs
       /\ non_overlapping outs
       /\ ascending_starts outs
       /\ Forall duration_consistent outs.
Proof.
  assert (H : Sorted Z.le (map Time sample_unterminated)) by sorted_times.
  split; [exact H | exact (identify_outages_intervals_ordered _ H)].
Defined.





(** ** Availability *)

Lemma minutes_spec (d : Timedelta) : (minutes d == inject_Z d / inject_Z minute_ns)%Q.
Proof.
  unfold minutes, total_seconds, minute_ns, Qeq, Qdiv, Qmult, Qinv; simpl. lia.
Qed.

Lemma minutes_zero_iff (d : Timedelta) : Qeq_bool (minutes d) 0 = true <-> d = 0.
Proof.
  rewrite Qeq_bool_iff.
  unfold minutes, total_seconds, Qeq, Qdiv, Qmult, Qinv; simpl. lia.
Qed.

Lemma fold_left_Qplus_shift (l : list Q) :
  forall a, (fold_left Qplus l a == a + fold_left Qplus l 0)%Q.
Proof.
  induction l as [|x l IH]; intros a; simpl.
  - ring.
  - rewrite (IH (a + x)%Q), (IH (0 + x)%Q). ring.
Qed.

Lemma sum_duration_minutes_spec (outs : list Outage) :
  (sum_duration_minutes outs == spec_outage_minutes outs)%Q.
Proof.
  unfold sum_duration_minutes.
  induction outs as [|o outs IH]; simpl; [reflexivity |].
  rewrite fold_left_Qplus_shift, IH. ring.
Qed.

(** On a window of positive length the [try] block returns. *)
Lemma availability_body_ok (outs : list Outage) (month_data : MonthData) :
  first_day month_data <> last_day month_data ->
  availability_body outs month_data
  = Ok (((minutes (last_day month_data - first_day month_data)%Z
          - sum_duration_minutes outs)
         / minutes (last_day month_data - first_day month_data)%Z) * 100)%Q.
Proof.
  intros Hne. unfold availability_body, float_div.
  destruct (Qeq_bool (minutes (last_day month_data - first_day month_data)%Z) 0) eqn:E.
  - apply minutes_zero_iff in E. lia.
  - reflexivity.
Qed.


(** C1 -- On the window [first_day = last_day = 0], which satisfies
    [first_day <= last_day], the quotient of the contract has no value: the
    division raises [ZeroDivisionError] and [calculate_availability] returns
    the [0.0] of its handler. *)
Lemma calculate_availability_zero_window :
  first_day degenerate_month <= last_day degenerate_month
  /\ spec_availability_percent [] degenerate_month = None
  /\ availability_body [] degenerate_month = Raise ZeroDivisionError
  /\ calculate_availability [] [] degenerate_month = 0%Q.
Proof.
  repeat split. vm_compute. discriminate.
Qed.

(** C1 (amended) -- For every window with [first_day < last_day] and every
    outage list, [calculate_availability] returns
    [((window_total_minutes - sum of duration_minutes) / window_total_minutes) * 100],
    where [window_total_minutes] is the span [last_day - first_day] in
    minutes; the frame passed as [df] has no influence on the result. *)
Theorem calculate_availability_formula
    (df : list Row) (outs : list Outage) (month_data : MonthData) :
  first_day month_data < last_day month_data ->
  (exists v,
      spec_availability_percent outs month_data = Some v
      /\ (calculate_availability df outs month_data == v)%Q)
  /\ (calculate_availability df outs month_data
      == ((spec_window_total_minutes month_data - spec_outage_minutes outs)
          / spec_window_total_minutes month_data) * 100)%Q
  /\ forall df', calculate_availability df' outs month_data
                 = calculate_availability df outs month_data.
Proof.
  intros Hlt.
  assert (Hcode : (calculate_availability df outs month_data
                   == ((spec_window_total_minutes month_data - spec_outage_minutes outs)
                       / spec_window_total_minutes month_data) * 100)%Q).
  { unfold calculate_availability.
    rewrite availability_body_ok by lia.
    unfold spec_window_total_minutes.
    rewrite minutes_spec, sum_duration_minutes_spec. reflexivity. }
  split; [| split; [exact Hcode | reflexivity]].
  unfold spec_availability_percent.
  destruct (Qeq_bool (spec_window_total_minutes month_data) 0) eqn:E.
  - exfalso. unfold spec_window_total_minutes in E.
    rewrite <- minutes_spec in E. apply minutes_zero_iff in E. lia.
  - eexists; split; [reflexivity | exact Hcode].
Qed.

Lemma calculate_availability_formula_witness :
  first_day sample_month < last_day sample_month
  /\ (calculate_availability sample_events [outage_of_minutes 10] sample_month
      == ((43200 - 10) / 43200) * 100)%Q.
Proof.
  assert (H : first_day sample_month < last_day sample_month) by (vm_compute; reflexivity).
  split; [exact H |].
  destruct (calculate_availability_formula sample_events [outage_of_minutes 10]
              sample_month H) as (_ & E & _).
  rewrite E. vm_compute. reflexivity.
Defined.

(** ** Compliance *)

Lemma filter_nonempty_existsb {A : Type} (f : A -> bool) (l : list A) :
  match filter f l with [] => false | _ :: _ => true end = existsb f l.
Proof.
  induction l as [|x l IH]; simpl; [reflexivity |].
  destruct (f x); simpl; [reflexivity | exact IH].
Qed.

(** The issue list is the concatenation of what each rule contributes. *)
Lemma check_epa_compliance_issues (outs : list Outage) (availability : Q) :
  issues (check_epa_compliance outs availability)
  = (issue_if (too_many_outages outs)
       (ExceededMaximumOutages (List.length outs) MAX_OUTAGES_PER_MONTH)
     ++ issue_if (some_long_outage outs)
          (OutagesExceedingDuration (List.length (filter is_long outs))
                                    MAX_OUTAGE_DURATION_MINUTES)
     ++ issue_if (low_availability availability)
          (AvailabilityBelowMinimum availability MIN_AVAILABILITY_PERCENT))%list.
Proof.
  unfold check_epa_compliance, too_many_outages, some_long_outage, low_availability,
    issue_if.
  cbn [issues].
  rewrite <- (filter_nonempty_existsb is_long outs).
  destruct (MAX_OUTAGES_PER_MONTH <? List.length outs)%nat;
    destruct (filter is_long outs);
    destruct (Qltb availability MIN_AVAILABILITY_PERCENT); reflexivity.
Qed.

Lemma check_epa_compliance_compliant (outs : list Outage) (availability : Q) :
  compliant (check_epa_compliance outs availability)
  = (negb (too_many_outages outs) && negb (some_long_outage outs)
     && negb (low_availability availability))%bool.
Proof.
  unfold check_epa_compliance, too_many_outages, some_long_outage, low_availability.
  cbn [compliant].
  rewrite <- (filter_nonempty_existsb is_long outs).
  destruct (MAX_OUTAGES_PER_MONTH <? List.length outs)%nat;
    destruct (filter is_long outs);
    destruct (Qltb availability MIN_AVAILABILITY_PERCENT); reflexivity.
Qed.

Lemma check_epa_compliance_status (outs : list Outage) (availability : Q) :
  status (check_epa_compliance outs availability)
  = if compliant (check_epa_compliance outs availability)
    then "COMPLIANT" else "NON-COMPLIANT".
Proof. reflexivity. Qed.

(** C4 -- [check_epa_compliance] tests each of the three rules (more than 10
    outages, some outage longer than 60 minutes, availability under 99.0)
    whatever the outcome of the others: the issue list is the concatenation,
    in this order, of one message per violated rule and nothing for a rule
    that holds, so it has as many messages as rules are violated; and
    [compliant] is true exactly when the issue list is empty. *)
Theorem check_epa_compliance_rules (outs : list Outage) (availability : Q) :
  let c := check_epa_compliance outs availability in
  issues c
  = (issue_if (Nat.ltb 10 (List.length outs))
       (ExceededMaximumOutages (List.length outs) 10)
     ++ issue_if (existsb (fun o => Qltb 60 (duration_minutes o)) outs)
          (OutagesExceedingDuration
             (List.length (filter (fun o => Qltb 60 (duration_minutes o)) outs)) 60)
     ++ issue_if (Qltb availability 99)
          (AvailabilityBelowMinimum availability 99))%list
  /\ List.length (issues c)
     = ((if too_many_outages outs then 1 else 0)
        + (if some_long_outage outs then 1 else 0)
        + (if low_availability availability then 1 else 0))%nat
  /\ (compliant c = true <-> issues c = [])
  /\ (compliant c = false <-> issues c <> []).
Proof.
  intros c. subst c.
  split; [apply check_epa_compliance_issues |].
  rewrite check_epa_compliance_issues, check_epa_compliance_compliant.
  unfold issue_if.
  destruct (too_many_outages outs), (some_long_outage outs),
    (low_availability availability); simpl;
    (split; [reflexivity |]);
    (split; split; intros H; try reflexivity; try discriminate; try congruence).
Qed.

Lemma is_long_boundary (o : Outage) :
  (duration_minutes o <= 60)%Q -> is_long o = false.
Proof.
  intros H. unfold is_long, Qltb, MAX_OUTAGE_DURATION_MINUTES.
  apply Qle_bool_iff in H. rewrite H. reflexivity.
Qed.

Lemma existsb_is_long_false (outs : list Outage) :
  Forall (fun o => (duration_minutes o <= 60)%Q) outs -> some_long_outage outs = false.
Proof.
  unfold some_long_outage.
  induction 1 as [|o l Ho _ IH]; simpl; [reflexivity |].
  rewrite (is_long_boundary o Ho). exact IH.
Qed.

(** C10 -- The three comparisons are strict.  With exactly 10 outages the
    count rule adds no issue; with every outage lasting exactly 60 minutes
    the duration rule adds none; with an availability of exactly 99.0 the
    availability rule adds none; and an analysis on all three boundaries is
    reported COMPLIANT with an empty issue list. *)
Theorem check_epa_compliance_boundaries (outs : list Outage) (availability : Q) :
  let c := check_epa_compliance outs availability in
  (List.length outs = 10%nat ->
   forall n m, ~ In (ExceededMaximumOutages n m) (issues c))
  /\ (Forall (fun o => (duration_minutes o == 60)%Q) outs ->
      forall n m, ~ In (OutagesExceedingDuration n m) (issues c))
  /\ ((availability == 99)%Q ->
      forall a m, ~ In (AvailabilityBelowMinimum a m) (issues c))
  /\ (List.length outs = 10%nat ->
      Forall (fun o => (duration_minutes o == 60)%Q) outs ->
      (availability == 99)%Q ->
      issues c = [] /\ compliant c = true /\ status c = "COMPLIANT").
Proof.
  intros c. subst c.
  assert (H1 : List.length outs = 10%nat -> too_many_outages outs = false).
  { intros H. unfold too_many_outages. rewrite H. reflexivity. }
  assert (H2 : Forall (fun o => (duration_minutes o == 60)%Q) outs ->
               some_long_outage outs = false).
  { intros H. apply existsb_is_long_false.
    eapply Forall_impl; [| exact H]. simpl. intros o Ho. rewrite Ho. apply Qle_refl. }
  assert (H3 : (availability == 99)%Q -> low_availability availability = false).
  { intros H. unfold low_availability, Qltb, MIN_AVAILABILITY_PERCENT.
    assert (Hle : (99 <= availability)%Q) by (rewrite H; apply Qle_refl).
    apply Qle_bool_iff in Hle. rewrite Hle. reflexivity. }
  rewrite check_epa_compliance_status, check_epa_compliance_compliant,
    check_epa_compliance_issues.
  unfold issue_if.
  repeat split.
  - intros H n m. rewrite (H1 H).
    destruct (some_long_outage outs), (low_availability availability); simpl;
      intuition discriminate.
  - intros H n m. rewrite (H2 H).
    destruct (too_many_outages outs), (low_availability availability); simpl;
      intuition discriminate.
  - intros H a m. rewrite (H3 H).
    destruct (too_many_outages outs), (some_long_outage outs); simpl;
      intuition discriminate.
  - rewrite (H1 H), (H2 H0), (H3 H4). reflexivity.
  - rewrite (H1 H), (H2 H0), (H3 H4). reflexivity.
  - rewrite (H1 H), (H2 H0), (H3 H4). reflexivity.
Qed.

Lemma check_epa_compliance_boundaries_witness :
  let outs := repeat (outage_of_minutes 60) 10 in
  List.length outs = 10%nat
  /\ Forall (fun o => (duration_minutes o == 60)%Q) outs
  /\ (99 == 99)%Q
  /\ issues (check_epa_compliance outs 99) = []
  /\ compliant (check_epa_compliance outs 99) = true
  /\ status (check_epa_compliance outs 99) = "COMPLIANT".
Proof.
  intros outs.
  assert (Hn : List.length outs = 10%nat) by reflexivity.
  assert (Hd : Forall (fun o => (duration_minutes o == 60)%Q) outs)
    by (repeat constructor).
  assert (Ha : (99 == 99)%Q) by reflexivity.
  split; [exact Hn |]. split; [exact Hd |]. split; [exact Ha |].
  exact (proj2 (proj2 (proj2 (check_epa_compliance_boundaries outs 99))) Hn Hd Ha).
Defined.

(** ** Stripping does not create an indicator *)

Lemma rstrip_cons (c : ascii) (s : string) :
  rstrip (String c s) = EmptyString \/ rstrip (String c s) = String c (rstrip s).
Proof.
  simpl. destruct (rstrip s) eqn:E.
  - destruct (is_space c); [left | right]; reflexivity.
  - right; reflexivity.
Qed.

Lemma prefix_rstrip (s : string) :
  forall n, prefix n (rstrip s) = true -> prefix n s = true.
Proof.
  induction s as [|c s IH]; intros n H; [exact H |].
  destruct n as [|a n]; [reflexivity |].
  destruct (rstrip_cons c s) as [E | E]; rewrite E in H.
  - discriminate.
  - simpl in *. destruct (ascii_dec a c); [apply IH; exact H | discriminate].
Qed.

Lemma contains_nil_r (n : string) :
  contains n EmptyString = true -> forall s, contains n s = true.
Proof.
  intros H s. destruct n as [|a n]; [| discriminate].
  destruct s; reflexivity.
Qed.

Lemma contains_rstrip (n s : string) :
  contains n (rstrip s) = true -> contains n s = true.
Proof.
  induction s as [|c s IH]; intros H; [exact H |].
  destruct (rstrip_cons c s) as [E | E]; rewrite E in H.
  - apply contains_nil_r; exact H.
  - cbn [contains] in *.
    destruct (prefix n (String c (rstrip s))) eqn:P.
    + rewrite <- E in P. apply prefix_rstrip in P. rewrite P. reflexivity.
    + destruct (prefix n (String c s)); [reflexivity | apply IH; exact H].
Qed.

Lemma contains_lstrip (n s : string) :
  contains n (lstrip s) = true -> contains n s = true.
Proof.
  induction s as [|c s IH]; intros H; [exact H |].
  simpl lstrip in H. destruct (is_space c); [| exact H].
  cbn [contains]. destruct (prefix n (String c s)); [reflexivity | apply IH; exact H].
Qed.

Lemma contains_strip (n s : string) :
  contains n s = false -> contains n (strip s) = false.
Proof.
  intros H. destruct (contains n (strip s)) eqn:E; [| reflexivity].
  apply contains_rstrip, contains_lstrip in E. congruence.
Qed.


(** ** Sorting and windowing *)

Lemma time_le_trans (a b c : TimeCell) : time_le a b -> time_le b c -> time_le a c.
Proof. destruct a, b, c; simpl; try tauto; lia. Qed.

Lemma time_leb_le (a b : TimeCell) : time_leb a b = true -> time_le a b.
Proof. destruct a, b; simpl; try tauto; try discriminate; lia. Qed.

Lemma time_leb_total (a b : TimeCell) : time_leb a b = false -> time_le b a.
Proof. destruct a, b; simpl; try tauto; try discriminate; lia. Qed.

Lemma row_le_trans : Relations_1.Transitive row_le.
Proof. intros a b c; unfold row_le; apply time_le_trans. Qed.

Lemma to_rows_origin (l : list RawRow) (r : Row) :
  In r (to_rows l) ->
  exists raw, In raw l /\ RTime raw = Stamp (Time r) /\ RMessage raw = Message r.
Proof.
  induction l as [|x l IH]; simpl; [tauto |].
  destruct (RTime x) eqn:E; simpl.
  - intros [<- | H].
    + exists x; simpl; auto.
    + destruct (IH H) as (raw & Hin & Ht); exists raw; auto.
  - intros H; destruct (IH H) as (raw & Hin & Ht); exists raw; auto.
  - intros H; destruct (IH H) as (raw & Hin & Ht); exists raw; auto.
Qed.

Lemma window_filter_origin (month_data : MonthData) (l : list RawRow) (r : Row) :
  In r (window_filter month_data l) ->
  first_day month_data <= Time r <= last_day month_data
  /\ exists raw, In raw l /\ RTime raw = Stamp (Time r) /\ RMessage raw = Message r.
Proof.
  unfold window_filter. intros H.
  destruct (to_rows_origin _ _ H) as (raw & Hin & Ht & Hm).
  apply filter_In in Hin. destruct Hin as [Hin Hw].
  split; [| exists raw; auto].
  unfold in_window in Hw. rewrite Ht in Hw.
  apply andb_true_iff in Hw. lia.
Qed.

Lemma to_rows_sorted (l : list RawRow) :
  StronglySorted row_le l -> StronglySorted Z.le (map Time (to_rows l)).
Proof.
  induction 1 as [|x l Hs IH Hx]; simpl; [constructor |].
  destruct (RTime x) eqn:E; simpl; try exact IH.
  constructor; [exact IH |].
  apply Forall_forall. intros t' Ht'.
  apply in_map_iff in Ht'. destruct Ht' as (r & <- & Hr).
  destruct (to_rows_origin _ _ Hr) as (raw & Hin & Ht & _).
  rewrite Forall_forall in Hx. specialize (Hx raw Hin).
  unfold row_le in Hx. rewrite E, Ht in Hx. exact Hx.
Qed.

Lemma filter_strongly_sorted {A : Type} (R : A -> A -> Prop) (f : A -> bool)
    (l : list A) :
  StronglySorted R l -> StronglySorted R (filter f l).
Proof.
  induction 1 as [|x l Hs IH Hx]; simpl; [constructor |].
  destruct (f x); [| exact IH].
  constructor; [exact IH |].
  apply Forall_forall. intros y Hy. apply filter_In in Hy.
  rewrite Forall_forall in Hx. apply Hx, Hy.
Qed.

Lemma window_filter_sorted (month_data : MonthData) (l : list RawRow) :
  Sorted row_le l -> Sorted Z.le (map Time (window_filter month_data l)).
Proof.
  intros H. apply StronglySorted_Sorted, to_rows_sorted, filter_strongly_sorted.
  apply Sorted_StronglySorted; [exact row_le_trans | exact H].
Qed.

(** ** The insertion sorts meet the contract of [sort_values] *)

Section Insertion.

Variable before : RawRow -> RawRow -> bool.
Hypothesis before_le_true : forall x y, before x y = true -> row_le x y.
Hypothesis before_le_false : forall x y, before x y = false -> row_le y x.

Lemma insert_row_perm (x : RawRow) (l : list RawRow) :
  Permutation (insert_row before x l) (x :: l).
Proof.
  induction l as [|y l IH]; simpl; [reflexivity |].
  destruct (before x y); [reflexivity |].
  rewrite IH. apply perm_swap.
Qed.

Lemma insert_row_sorted (x : RawRow) (l : list RawRow) :
  Sorted row_le l -> Sorted row_le (insert_row before x l).
Proof.
  induction 1 as [|y l Hs IH Hhd]; simpl.
  - repeat constructor.
  - destruct (before x y) eqn:E.
    + constructor; [constructor; assumption |].
      constructor. apply before_le_true; exact E.
    + constructor; [exact IH |].
      destruct l as [|z l]; simpl.
      * constructor. apply before_le_false; exact E.
      * destruct (before x z); constructor.
        -- apply before_le_false; exact E.
        -- inversion Hhd; assumption.
Qed.

Lemma insertion_sort_contract : sorts_by_time (insertion_sort before).
Proof.
  split; intros l; induction l as [|x l IH]; simpl.
  - reflexivity.
  - rewrite insert_row_perm. constructor; exact IH.
  - constructor.
  - apply insert_row_sorted; exact IH.
Qed.

End Insertion.

Lemma sort_keeping_ties_contract : sorts_by_time sort_keeping_ties.
Proof.
  apply insertion_sort_contract; unfold before_le, row_le; intros x y H.
  - apply time_leb_le; exact H.
  - apply time_leb_total; exact H.
Qed.

(** ** The pipeline *)

Section PipelineProperties.

Variable Device : Type.
Variable sort_values : list RawRow -> list RawRow.
Variable np : Numpy.
Variable repr_columns : list string -> string.

Lemma parse_timestamps_well_loaded (df : DataFrame) :
  well_loaded df -> parse_timestamps df = (df, true).
Proof.
  intros (Ht & _ & Hp). unfold parse_timestamps. rewrite Ht.
  f_equal. apply forallb_forall. intros r Hr.
  rewrite Forall_forall in Hp. specialize (Hp r Hr).
  destruct (RTime r); [reflexivity | reflexivity | congruence].
Qed.

(** On a table that passes the checks the analysis succeeds with whatever
    [identify_outages] returns. *)
Lemma analyze_data_well_loaded (df : DataFrame) (device : Device)
    (month_data : MonthData) (outs : list Outage) :
  well_loaded df ->
  holds_text sort_values df month_data ->
  identify_outages (normalize sort_values df month_data) = Ok outs ->
  let data := normalize sort_values df month_data in
  let availability := calculate_availability data outs month_data in
  let compliance := check_epa_compliance outs availability in
  analyze_data Device sort_values np repr_columns (Ok (Some df)) device month_data
  = Success data outs
      (mkSummary (List.length outs) (sum_duration_minutes outs) availability
                 (status compliance) compliance (calculate_statistics np outs))
      device month_data.
Proof.
  intros Hw Htext E. pose proof Hw as (Ht & Hm & _).
  unfold analyze_data. rewrite Ht, Hm. cbn [negb orb].
  rewrite (parse_timestamps_well_loaded df Hw). cbn [negb].
  unfold holds_text in Htext. rewrite Htext, E. reflexivity.
Qed.

(** A column without strings fails the analysis of a table that passes the
    other checks. *)
Lemma analyze_data_non_text (df : DataFrame) (device : Device)
    (month_data : MonthData) :
  well_loaded df ->
  message_column df = NonTextColumn ->
  analyze_data Device sort_values np repr_columns (Ok (Some df)) device month_data
  = Failure (StrOf AttributeError).
Proof.
  intros Hw Hk. pose proof Hw as (Ht & Hm & _).
  unfold analyze_data. rewrite Ht, Hm. cbn [negb orb].
  rewrite (parse_timestamps_well_loaded df Hw). cbn [negb].
  unfold str_contains_pilot. rewrite Hk. reflexivity.
Qed.



(** C9 -- On a table without a column "Time" or without a column
    "Message", [analyze_data] returns a failure, whatever the rows, the
    device and the window; its message names the two expected columns in
    double quotes and ends with the list of the columns found. *)
Theorem analyze_data_missing_column (df : DataFrame) (device : Device)
    (month_data : MonthData) :
  has_column "Time" df = false \/ has_column "Message" df = false ->
  analyze_data Device sort_values np repr_columns (Ok (Some df)) device month_data
  = Failure (Literal (required_columns_error repr_columns df))
  /\ exists expected,
       required_columns_error repr_columns df
       = expected ++ repr_columns (columns df)
       /\ contains (dquote ++ "Time" ++ dquote) expected = true
       /\ contains (dquote ++ "Message" ++ dquote) expected = true.
Proof.
  intros H. split.
  - unfold analyze_data.
    destruct H as [H | H]; rewrite H; cbn [negb orb]; [reflexivity |].
    rewrite orb_true_r. reflexivity.
  - eexists. split; [| split].
    + unfold required_columns_error. cbn [append dquote].
      instantiate (1 := "Required columns not found. Expected " ++ dquote
                        ++ "Time" ++ dquote ++ " and " ++ dquote ++ "Message"
                        ++ dquote ++ ", got: ").
      reflexivity.
    + vm_compute; reflexivity.
    + vm_compute; reflexivity.
Qed.

End PipelineProperties.

(** ** The statements on sample inputs *)






Lemma analyze_data_missing_column_witness :
  (has_column "Time" sample_frame_no_message = false
   \/ has_column "Message" sample_frame_no_message = false)
  /\ analyze_data unit sort_keeping_ties sample_numpy sample_repr
       (Ok (Some sample_frame_no_message)) tt sample_month
     = Failure (Literal (required_columns_error sample_repr sample_frame_no_message)).
Proof.
  assert (H : has_column "Time" sample_frame_no_message = false
              \/ has_column "Message" sample_frame_no_message = false)
    by (right; reflexivity).
  split; [exact H |].
  exact (proj1 (analyze_data_missing_column unit sort_keeping_ties sample_numpy
                  sample_repr sample_frame_no_message tt sample_month H)).
Defined.

(** * The sort behind [sort_values] *)

(** ** The index array *)

Lemma length_store (a : list nat) : forall p x,
  List.length (store a p x) = List.length a.
Proof.
  induction a as [|y a IH]; intros [|p] x; simpl; auto.
Qed.

Lemma at_store_eq (a : list nat) : forall p x,
  (p < List.length a)%nat -> at_ (store a p x) p = x.
Proof.
  unfold at_. induction a as [|y a IH]; intros [|p] x H; simpl in *; try lia; auto.
  apply IH. lia.
Qed.

Lemma at_store_neq (a : list nat) : forall p q x,
  p <> q -> at_ (store a p x) q = at_ a q.
Proof.
  unfold at_. induction a as [|y a IH]; intros [|p] [|q] x H; simpl; auto;
    try congruence.
Qed.

Lemma array_ext (a b : list nat) :
  List.length a = List.length b ->
  (forall k, (k < List.length a)%nat -> at_ a k = at_ b k) -> a = b.
Proof.
  intros Hl H. apply (nth_ext a b 0%nat 0%nat Hl). exact H.
Qed.

Lemma store_same (a : list nat) (p : nat) : store a p (at_ a p) = a.
Proof.
  apply array_ext; [apply length_store |].
  intros k Hk. rewrite length_store in Hk.
  destruct (Nat.eq_dec p k) as [<- | Hne].
  - apply at_store_eq; exact Hk.
  - apply at_store_neq; exact Hne.
Qed.

Lemma store_cons_perm (a : list nat) : forall p x,
  (p < List.length a)%nat -> Permutation (x :: a) (at_ a p :: store a p x).
Proof.
  unfold at_. induction a as [|y a IH]; intros [|p] x H; simpl in *; try lia.
  - apply perm_swap.
  - eapply perm_trans; [apply perm_swap |].
    eapply perm_trans; [apply perm_skip, (IH p x); lia |].
    apply perm_swap.
Qed.

Lemma length_swap (a : list nat) (p q : nat) :
  List.length (INTP_SWAP a p q) = List.length a.
Proof. unfold INTP_SWAP. rewrite !length_store. reflexivity. Qed.

Lemma at_swap_l (a : list nat) (p q : nat) :
  (p < List.length a)%nat -> at_ (INTP_SWAP a p q) p = at_ a q.
Proof.
  intros H. unfold INTP_SWAP. apply at_store_eq. rewrite length_store. exact H.
Qed.

Lemma at_swap_r (a : list nat) (p q : nat) :
  (q < List.length a)%nat -> at_ (INTP_SWAP a p q) q = at_ a p.
Proof.
  intros H. unfold INTP_SWAP.
  destruct (Nat.eq_dec p q) as [-> | Hne].
  - apply at_store_eq. rewrite length_store. exact H.
  - rewrite at_store_neq by exact Hne. apply at_store_eq. exact H.
Qed.

Lemma at_swap_other (a : list nat) (p q k : nat) :
  k <> p -> k <> q -> at_ (INTP_SWAP a p q) k = at_ a k.
Proof.
  intros Hp Hq. unfold INTP_SWAP.
  rewrite !at_store_neq by congruence. reflexivity.
Qed.

Lemma swap_perm (a : list nat) (p q : nat) :
  (p < List.length a)%nat -> (q < List.length a)%nat ->
  Permutation (INTP_SWAP a p q) a.
Proof.
  intros Hp Hq. unfold INTP_SWAP.
  destruct (Nat.eq_dec p q) as [-> | Hne].
  - rewrite store_same, store_same. apply Permutation_refl.
  - apply Permutation_sym, (Permutation_cons_inv (a := at_ a p)).
    eapply perm_trans; [apply (store_cons_perm a q (at_ a p) Hq) |].
    eapply perm_trans;
      [apply (store_cons_perm (store a q (at_ a p)) p (at_ a q));
       rewrite length_store; exact Hp |].
    rewrite at_store_neq by congruence. apply Permutation_refl.
Qed.

(** A store into the place just vacated is an exchange on the array with
    the value held back put in. *)
Lemma hole_step (a : list nat) (h n t : nat) :
  h <> n -> (h < List.length a)%nat -> (n < List.length a)%nat ->
  store (store a h (at_ a n)) n t = INTP_SWAP (store a h t) h n.
Proof.
  intros Hne Hh Hn. apply array_ext.
  - rewrite length_swap, !length_store. reflexivity.
  - intros k _.
    destruct (Nat.eq_dec k n) as [-> | Hkn].
    + rewrite at_store_eq by (rewrite length_store; exact Hn).
      rewrite at_swap_r by (rewrite length_store; exact Hn).
      rewrite at_store_eq by exact Hh. reflexivity.
    + rewrite (at_store_neq _ n k) by congruence.
      destruct (Nat.eq_dec k h) as [-> | Hkh].
      * rewrite at_store_eq by exact Hh.
        rewrite at_swap_l by (rewrite length_store; exact Hh).
        rewrite at_store_neq by exact Hne. reflexivity.
      * rewrite at_store_neq by congruence.
        rewrite at_swap_other by assumption.
        rewrite at_store_neq by congruence. reflexivity.
Qed.

(** ** Exchanges inside a range *)

Lemma shuffled_length (lo hi : nat) (a a' : list nat) :
  shuffled lo hi a a' -> List.length a' = List.length a.
Proof.
  induction 1 as [|a' p q _ IH]; [reflexivity |].
  rewrite length_swap. exact IH.
Qed.

Lemma shuffled_outside (lo hi : nat) (a a' : list nat) :
  shuffled lo hi a a' ->
  forall k, (k < lo \/ hi < k)%nat -> at_ a' k = at_ a k.
Proof.
  induction 1 as [|a' p q _ IH]; intros k Hk; [reflexivity |].
  rewrite at_swap_other by lia. apply IH. exact Hk.
Qed.

Lemma shuffled_perm (lo hi : nat) (a a' : list nat) :
  shuffled lo hi a a' -> Permutation a' a.
Proof.
  induction 1 as [|a' p q H IH]; [apply Permutation_refl |].
  eapply perm_trans; [| exact IH].
  apply swap_perm; rewrite (shuffled_length _ _ _ _ H); assumption.
Qed.

Lemma shuffled_member (lo hi : nat) (a a' : list nat) :
  shuffled lo hi a a' ->
  forall k, (lo <= k <= hi)%nat ->
  exists k', (lo <= k' <= hi)%nat /\ at_ a' k = at_ a k'.
Proof.
  induction 1 as [|a' p q H IH]; intros k Hk; [exists k; auto |].
  pose proof (shuffled_length _ _ _ _ H) as Hl.
  destruct (Nat.eq_dec k p) as [-> | Hkp].
  - rewrite at_swap_l by lia. apply IH. assumption.
  - destruct (Nat.eq_dec k q) as [-> | Hkq].
    + rewrite at_swap_r by lia. apply IH. assumption.
    + rewrite at_swap_other by assumption. apply IH. exact Hk.
Qed.

Lemma shuffled_trans (lo hi : nat) (a b c : list nat) :
  shuffled lo hi a b -> shuffled lo hi b c -> shuffled lo hi a c.
Proof.
  intros Hab Hbc. induction Hbc as [|c p q _ IH]; [exact Hab |].
  apply shuffled_swap; try assumption;
    rewrite <- (shuffled_length _ _ _ _ Hab); assumption.
Qed.

Lemma shuffled_mono (lo hi lo' hi' : nat) (a a' : list nat) :
  (lo' <= lo)%nat -> (hi <= hi')%nat ->
  shuffled lo hi a a' -> shuffled lo' hi' a a'.
Proof.
  intros Hlo Hhi. induction 1 as [|a' p q _ IH]; [apply shuffled_refl |].
  apply shuffled_swap; try assumption; lia.
Qed.

Lemma shuffled_one (lo hi : nat) (a : list nat) (p q : nat) :
  (lo <= p <= hi)%nat -> (lo <= q <= hi)%nat ->
  (p < List.length a)%nat -> (q < List.length a)%nat ->
  shuffled lo hi a (INTP_SWAP a p q).
Proof.
  intros. apply shuffled_swap; try assumption. apply shuffled_refl.
Qed.

Lemma at_swap (a : list nat) (p q k : nat) :
  (p < List.length a)%nat -> (q < List.length a)%nat ->
  at_ (INTP_SWAP a p q) k
  = if (k =? p)%nat then at_ a q else if (k =? q)%nat then at_ a p else at_ a k.
Proof.
  intros Hp Hq.
  destruct (Nat.eqb_spec k p) as [-> | Hkp]; [apply at_swap_l; exact Hp |].
  destruct (Nat.eqb_spec k q) as [-> | Hkq]; [apply at_swap_r; exact Hq |].
  apply at_swap_other; assumption.
Qed.

Lemma at_store (a : list nat) (p k x : nat) :
  (p < List.length a)%nat ->
  at_ (store a p x) k = if (k =? p)%nat then x else at_ a k.
Proof.
  intros Hp.
  destruct (Nat.eqb_spec k p) as [-> | Hkp]; [apply at_store_eq; exact Hp |].
  apply at_store_neq. congruence.
Qed.

Ltac eqb_cases :=
  repeat match goal with
         | |- context [(?x =? ?y)%nat] => destruct (Nat.eqb_spec x y)
         | H : context [(?x =? ?y)%nat] |- _ => destruct (Nat.eqb_spec x y)
         end.

(** ** The insertion sort *)

Section InsertionSort.

Variable v : list Timestamp.

Lemma shift_spec (vi pl hi : nat) : forall pj a,
  (pl <= pj <= hi)%nat -> (hi < List.length a)%nat ->
  (forall p q, (pl <= p)%nat -> (p <= q)%nat -> (q <= hi)%nat ->
               p <> pj -> q <> pj ->
               key v (at_ a p) <= key v (at_ a q)) ->
  (forall q, (pj < q <= hi)%nat -> key v vi < key v (at_ a q)) ->
  shuffled pl hi (store a pj vi) (shift v a vi (key v vi) pl pj)
  /\ sorted_seg v (shift v a vi (key v vi) pl pj) pl hi.
Proof.
  assert (Hdone : forall pj a,
    (pl <= pj <= hi)%nat -> (hi < List.length a)%nat ->
    (forall p q, (pl <= p)%nat -> (p <= q)%nat -> (q <= hi)%nat ->
                 p <> pj -> q <> pj ->
                 key v (at_ a p) <= key v (at_ a q)) ->
    (forall q, (pj < q <= hi)%nat -> key v vi < key v (at_ a q)) ->
    (forall p, (pl <= p < pj)%nat -> key v (at_ a p) <= key v vi) ->
    sorted_seg v (store a pj vi) pl hi).
  { intros pj a Hpj Hhi Hs Hgt Hle p q Hp Hpq Hq.
    rewrite !at_store by lia. eqb_cases; subst; try lia.
    - assert (key v vi < key v (at_ a q)) by (apply Hgt; lia). lia.
    - apply Hle. lia.
    - apply Hs; lia. }
  induction pj as [|pk IH]; intros a Hpj Hhi Hs Hgt.
  - simpl. split; [apply shuffled_refl |].
    apply Hdone; auto. intros p Hp. lia.
  - cbn [shift].
    destruct ((pl <? S pk)%nat && LT (key v vi) (key v (at_ a pk)))%bool eqn:Ec.
    + apply andb_true_iff in Ec. destruct Ec as [Hlt Hk].
      apply Nat.ltb_lt in Hlt. unfold LT in Hk. apply Z.ltb_lt in Hk.
      destruct (IH (store a (S pk) (at_ a pk))) as [Hsh Hso].
      * lia.
      * rewrite length_store. exact Hhi.
      * intros p q Hp Hpq Hq Hpn Hqn. rewrite !at_store by lia.
        eqb_cases; subst; try lia; apply Hs; lia.
      * intros q Hq. rewrite at_store by lia.
        eqb_cases; subst; [exact Hk | apply Hgt; lia].
      * split; [| exact Hso].
        rewrite hole_step in Hsh by lia.
        eapply shuffled_trans; [| exact Hsh].
        apply shuffled_one; rewrite ?length_store; lia.
    + split; [apply shuffled_refl |].
      apply Hdone; auto. intros p Hp.
      apply andb_false_iff in Ec. destruct Ec as [Hlt | Hk].
      * apply Nat.ltb_ge in Hlt. lia.
      * unfold LT in Hk. apply Z.ltb_ge in Hk.
        assert (key v (at_ a p) <= key v (at_ a pk)) by (apply Hs; lia). lia.
Qed.

Lemma insertion_from (pl : nat) : forall n a pi,
  (pl <= pi)%nat -> (pi + n < List.length a)%nat ->
  sorted_seg v a pl pi ->
  let a' := fold_left (fun a pi => let vi := at_ a pi in
                                   shift v a vi (key v vi) pl pi)
                      (seq (S pi) n) a in
  shuffled pl (pi + n) a a' /\ sorted_seg v a' pl (pi + n).
Proof.
  induction n as [|n IH]; intros a pi Hpl Hlen Hs; cbn [seq fold_left].
  - rewrite Nat.add_0_r. split; [apply shuffled_refl | exact Hs].
  - cbv zeta.
    destruct (shift_spec (at_ a (S pi)) pl (S pi) (S pi) a) as [Hsh Hso].
    + lia.
    + lia.
    + intros p q Hp Hpq Hq Hpn Hqn. apply Hs; lia.
    + intros q Hq. lia.
    + rewrite store_same in Hsh.
      set (a1 := shift v a (at_ a (S pi)) (key v (at_ a (S pi))) pl (S pi)) in *.
      destruct (IH a1 (S pi)) as [Hsh' Hso'].
      * lia.
      * rewrite (shuffled_length _ _ _ _ Hsh). lia.
      * exact Hso.
      * replace (pi + S n)%nat with (S pi + n)%nat by lia.
        split; [| exact Hso'].
        eapply shuffled_trans; [| exact Hsh'].
        eapply shuffled_mono; [| | exact Hsh]; lia.
Qed.

Lemma insertion_spec (a : list nat) (pl pr : nat) :
  (pl <= pr)%nat -> (pr < List.length a)%nat ->
  shuffled pl pr a (insertion v a pl pr)
  /\ sorted_seg v (insertion v a pl pr) pl pr.
Proof.
  intros Hpl Hpr. unfold insertion.
  destruct (insertion_from pl (pr - pl) a pl) as [Hsh Hso].
  - lia.
  - lia.
  - intros p q Hp Hpq Hq. assert (p = q) by lia. subst. lia.
  - replace (pl + (pr - pl))%nat with pr in * by lia. auto.
Qed.

End InsertionSort.

(** ** The partition *)

Section Partition.

Variable v : list Timestamp.

Lemma scan_up_spec (a : list nat) (vp : Timestamp) : forall fuel pi s,
  (pi < s)%nat -> (s <= pi + S fuel)%nat -> vp <= key v (at_ a s) ->
  (pi < scan_up v fuel a vp pi <= s)%nat
  /\ vp <= key v (at_ a (scan_up v fuel a vp pi))
  /\ forall k, (pi < k < scan_up v fuel a vp pi)%nat -> key v (at_ a k) < vp.
Proof.
  induction fuel as [|fuel IH]; intros pi s Hlt Hs Hstop; cbn [scan_up].
  - assert (s = S pi) by lia. subst s.
    split; [lia |]. split; [exact Hstop |]. intros k Hk. lia.
  - unfold LT. destruct (key v (at_ a (S pi)) <? vp) eqn:E.
    + apply Z.ltb_lt in E.
      assert (S pi <> s) by (intros <-; lia).
      destruct (IH (S pi) s) as (H1 & H2 & H3); try lia.
      split; [lia |]. split; [exact H2 |].
      intros k Hk. destruct (Nat.eq_dec k (S pi)) as [-> | Hne]; [exact E |].
      apply H3. lia.
    + apply Z.ltb_ge in E.
      split; [lia |]. split; [exact E |]. intros k Hk. lia.
Qed.

Lemma scan_down_spec (a : list nat) (vp : Timestamp) : forall pj s,
  (s < pj)%nat -> key v (at_ a s) <= vp ->
  (s <= scan_down v a vp pj < pj)%nat
  /\ key v (at_ a (scan_down v a vp pj)) <= vp
  /\ forall k, (scan_down v a vp pj < k < pj)%nat -> vp < key v (at_ a k).
Proof.
  induction pj as [|pj IH]; intros s Hlt Hstop; [lia |].
  cbn [scan_down]. unfold LT. destruct (vp <? key v (at_ a pj)) eqn:E.
  - apply Z.ltb_lt in E.
    assert (s <> pj) by (intros <-; lia).
    destruct (IH s) as (H1 & H2 & H3); try lia; try assumption.
    split; [lia |]. split; [exact H2 |].
    intros k Hk. destruct (Nat.eq_dec k pj) as [-> | Hne]; [exact E |].
    apply H3. lia.
  - apply Z.ltb_ge in E.
    split; [lia |]. split; [exact E |]. intros k Hk. lia.
Qed.

Lemma exchange_spec (vp : Timestamp) (pl pr : nat) : forall fuel a pi pj,
  (pj - pi <= fuel)%nat ->
  (pl <= pi)%nat -> (pi < pj)%nat -> (pj <= pr)%nat -> (pr < List.length a)%nat ->
  (forall k, (pl <= k <= pi)%nat -> key v (at_ a k) <= vp) ->
  (forall k, (pj <= k <= pr)%nat -> vp <= key v (at_ a k)) ->
  let a' := fst (exchange v fuel a vp pi pj) in
  let r := snd (exchange v fuel a vp pi pj) in
  shuffled (S pi) (pj - 1) a a'
  /\ (pi < r <= pj)%nat
  /\ (forall k, (pl <= k < r)%nat -> key v (at_ a' k) <= vp)
  /\ (forall k, (r <= k <= pr)%nat -> vp <= key v (at_ a' k)).
Proof.
  induction fuel as [|fuel IH]; intros a pi pj Hf Hpl Hlt Hpr Hlen Hle Hge;
    [lia |].
  cbn [exchange].
  destruct (scan_up_spec a vp (List.length a) pi pj) as (U1 & U2 & U3);
    [lia | lia | apply Hge; lia |].
  destruct (scan_down_spec a vp pj pi) as (D1 & D2 & D3);
    [lia | apply Hle; lia |].
  set (pi' := scan_up v (List.length a) a vp pi) in *.
  set (pj' := scan_down v a vp pj) in *.
  destruct (Nat.leb_spec pj' pi') as [Hmeet | Hmore]; cbn [fst snd].
  - split; [apply shuffled_refl |]. split; [lia |]. split.
    + intros k Hk. destruct (Nat.le_gt_cases k pi) as [H | H].
      * apply Hle. lia.
      * assert (key v (at_ a k) < vp) by (apply U3; lia). lia.
    + intros k Hk. destruct (Nat.eq_dec k pi') as [-> | Hne]; [exact U2 |].
      destruct (Nat.le_gt_cases pj k) as [H | H].
      * apply Hge. lia.
      * assert (vp < key v (at_ a k)) by (apply D3; lia). lia.
  - destruct (IH (INTP_SWAP a pi' pj') pi' pj') as (S1 & S2 & S3 & S4).
    + lia.
    + lia.
    + exact Hmore.
    + lia.
    + rewrite length_swap. exact Hlen.
    + intros k Hk. rewrite at_swap by lia.
      eqb_cases; try lia; try exact D2.
      destruct (Nat.le_gt_cases k pi) as [H | H].
      * apply Hle. lia.
      * assert (key v (at_ a k) < vp) by (apply U3; lia). lia.
    + intros k Hk. rewrite at_swap by lia.
      eqb_cases; try lia; try exact U2.
      destruct (Nat.le_gt_cases pj k) as [H | H].
      * apply Hge. lia.
      * assert (vp < key v (at_ a k)) by (apply D3; lia). lia.
    + split; [| split; [lia | split; assumption]].
      eapply shuffled_trans.
      * apply (shuffled_one (S pi) (pj - 1) a pi' pj'); lia.
      * eapply shuffled_mono; [| | exact S1]; lia.
Qed.

Lemma median3_spec (a : list nat) (pl pm pr : nat) :
  (pl < pm)%nat -> (pm < pr)%nat -> (pr < List.length a)%nat ->
  shuffled pl pr a (median3 v a pl pm pr)
  /\ key v (at_ (median3 v a pl pm pr) pl) <= key v (at_ (median3 v a pl pm pr) pm)
  /\ key v (at_ (median3 v a pl pm pr) pm) <= key v (at_ (median3 v a pl pm pr) pr).
Proof.
  intros H1 H2 H3. unfold median3, LT.
  set (a1 := if key v (at_ a pm) <? key v (at_ a pl)
             then INTP_SWAP a pm pl else a).
  assert (A1 : shuffled pl pr a a1
               /\ key v (at_ a1 pl) <= key v (at_ a1 pm)).
  { unfold a1. destruct (Z.ltb_spec (key v (at_ a pm)) (key v (at_ a pl))).
    - split; [apply shuffled_one; lia |].
      rewrite !at_swap by lia. eqb_cases; subst; lia.
    - split; [apply shuffled_refl | lia]. }
  destruct A1 as [Sh1 Le1].
  pose proof (shuffled_length _ _ _ _ Sh1) as L1.
  clearbody a1.
  set (a2 := if key v (at_ a1 pr) <? key v (at_ a1 pm)
             then INTP_SWAP a1 pr pm else a1).
  assert (A2 : shuffled pl pr a1 a2
               /\ key v (at_ a2 pm) <= key v (at_ a2 pr)
               /\ key v (at_ a2 pl) <= key v (at_ a2 pr)).
  { unfold a2. destruct (Z.ltb_spec (key v (at_ a1 pr)) (key v (at_ a1 pm))).
    - split; [apply shuffled_one; lia |].
      rewrite !at_swap by lia. eqb_cases; subst; lia.
    - split; [apply shuffled_refl | lia]. }
  destruct A2 as (Sh2 & Le2 & Le2').
  pose proof (shuffled_length _ _ _ _ Sh2) as L2.
  clearbody a2.
  destruct (Z.ltb_spec (key v (at_ a2 pm)) (key v (at_ a2 pl))).
  - split.
    + eapply shuffled_trans; [exact Sh1 |].
      eapply shuffled_trans; [exact Sh2 |].
      apply shuffled_one; lia.
    + rewrite !at_swap by lia. eqb_cases; subst; lia.
  - split; [eapply shuffled_trans; eassumption |]. lia.
Qed.

Lemma partition_spec (a : list nat) (pl pr : nat) :
  (SMALL_QUICKSORT < pr - pl)%nat -> (pr < List.length a)%nat ->
  let a' := fst (partition v a pl pr) in
  let pi := snd (partition v a pl pr) in
  shuffled pl pr a a'
  /\ (pl < pi < pr)%nat
  /\ (forall k, (pl <= k < pi)%nat -> key v (at_ a' k) <= key v (at_ a' pi))
  /\ (forall k, (pi < k <= pr)%nat -> key v (at_ a' pi) <= key v (at_ a' k)).
Proof.
  unfold SMALL_QUICKSORT. intros Hbig Hlen. unfold partition.
  set (pm := (pl + (pr - pl) / 2)%nat).
  assert (Hpm : (pl + 8 <= pm /\ pm + 8 <= pr)%nat).
  { unfold pm.
    pose proof (Nat.div_mod_eq (pr - pl) 2) as Hd.
    pose proof (Nat.mod_upper_bound (pr - pl) 2). lia. }
  destruct (median3_spec a pl pm pr) as (M1 & M2 & M3); try lia.
  set (am := median3 v a pl pm pr) in *.
  pose proof (shuffled_length _ _ _ _ M1) as Lm.
  set (vp := key v (at_ am pm)) in *.
  set (a2 := INTP_SWAP am pm (pr - 1)).
  assert (L2 : List.length a2 = List.length a)
    by (unfold a2; rewrite length_swap; exact Lm).
  destruct (exchange_spec vp pl pr (List.length a2) a2 pl (pr - 1))
    as (E1 & E2 & E3 & E4); try lia.
  { intros k Hk. assert (k = pl) by lia. subst k.
    unfold a2. rewrite at_swap by lia. eqb_cases; try lia. }
  { intros k Hk. unfold a2. rewrite at_swap by lia.
    eqb_cases; try lia. assert (k = pr) by lia. subst k. exact M3. }
  destruct (exchange v (List.length a2) a2 vp pl (pr - 1)) as [a3 r].
  cbn [fst snd] in *.
  pose proof (shuffled_length _ _ _ _ E1) as L3.
  assert (Hpiv : key v (at_ a3 (pr - 1)) = vp).
  { rewrite (shuffled_outside _ _ _ _ E1) by lia.
    unfold a2. rewrite at_swap by lia. eqb_cases; try lia; reflexivity. }
  split.
  { eapply shuffled_trans; [exact M1 |].
    eapply shuffled_trans; [apply (shuffled_one pl pr am pm (pr - 1)); lia |].
    fold a2.
    eapply shuffled_trans; [eapply shuffled_mono; [| | exact E1]; lia |].
    apply shuffled_one; lia. }
  split; [lia |].
  assert (Hr : key v (at_ (INTP_SWAP a3 r (pr - 1)) r) = vp).
  { rewrite at_swap by lia. eqb_cases; try lia; exact Hpiv. }
  rewrite Hr. split.
  - intros k Hk. rewrite at_swap by lia. eqb_cases; try lia.
    apply E3. lia.
  - intros k Hk. rewrite at_swap by lia. eqb_cases; try lia; apply E4; lia.
Qed.

End Partition.

(** ** The heapsort *)

Section Heapsort.

Variable v : list Timestamp.
Variable b : nat.

Lemma sift_spec (l n tmp : nat) : forall fuel a i j,
  (1 <= l)%nat -> (l <= i)%nat -> (i <= n)%nat -> j = (i + i)%nat ->
  (b + n - 1 < List.length a)%nat ->
  (n + 1 <= j + fuel)%nat ->
  (forall k, (l <= k <= n)%nat -> k <> i ->
             heap_at v (store a (a_ b i) tmp) b k n) ->
  (forall k c, (l <= k)%nat -> (i = 2 * k \/ i = 2 * k + 1)%nat ->
               (c = 2 * i \/ c = 2 * i + 1)%nat -> (c <= n)%nat ->
               key v (at_ (store a (a_ b i) tmp) (a_ b c))
               <= key v (at_ (store a (a_ b i) tmp) (a_ b k))) ->
  shuffled (a_ b i) (a_ b n) (store a (a_ b i) tmp) (sift v fuel a b tmp i j n)
  /\ forall k, (l <= k <= n)%nat -> heap_at v (sift v fuel a b tmp i j n) b k n.
Proof.
  assert (Hstop : forall a i,
    (1 <= l)%nat -> (l <= i)%nat -> (i <= n)%nat ->
    (b + n - 1 < List.length a)%nat ->
    (forall k, (l <= k <= n)%nat -> k <> i ->
               heap_at v (store a (a_ b i) tmp) b k n) ->
    (forall c, (c = 2 * i \/ c = 2 * i + 1)%nat -> (c <= n)%nat ->
               key v (at_ a (a_ b c)) <= key v tmp) ->
    shuffled (a_ b i) (a_ b n) (store a (a_ b i) tmp) (store a (a_ b i) tmp)
    /\ forall k, (l <= k <= n)%nat -> heap_at v (store a (a_ b i) tmp) b k n).
  { intros a i Hl Hi Hn Hlen H1 Hc. split; [apply shuffled_refl |].
    intros k Hk. destruct (Nat.eq_dec k i) as [-> | Hne]; [| apply H1; assumption].
    intros c Hcc Hcn. unfold a_ in *.
    rewrite !at_store by lia. eqb_cases; try lia. apply Hc; assumption. }
  induction fuel as [|fuel IH]; intros a i j Hl Hi Hn Hj Hlen Hfuel H1 H2.
  - cbn [sift]. apply Hstop; auto. intros c Hc Hcn. lia.
  - cbn [sift]. destruct (Nat.leb_spec j n) as [Hjn | Hjn];
      [| apply Hstop; auto; intros c Hc Hcn; lia].
    set (j' := if ((j <? n)%nat
                   && LT (key v (at_ a (a_ b j))) (key v (at_ a (a_ b (j + 1)))))%bool
               then (j + 1)%nat else j).
    assert (Hj' : (j' = j \/ j' = j + 1)%nat /\ (j' <= n)%nat
                  /\ forall c, (c = 2 * i \/ c = 2 * i + 1)%nat -> (c <= n)%nat ->
                               key v (at_ a (a_ b c)) <= key v (at_ a (a_ b j'))).
    { unfold j', LT.
      destruct (Nat.ltb_spec j n) as [Hlt | Hge]; cbn [andb].
      - destruct (Z.ltb_spec (key v (at_ a (a_ b j))) (key v (at_ a (a_ b (j + 1))))).
        + split; [lia |]. split; [lia |].
          intros c [-> | ->] Hcn.
          * replace (2 * i)%nat with j by lia. lia.
          * replace (2 * i + 1)%nat with (j + 1)%nat by lia. lia.
        + split; [lia |]. split; [lia |].
          intros c [-> | ->] Hcn.
          * replace (2 * i)%nat with j by lia. lia.
          * replace (2 * i + 1)%nat with (j + 1)%nat by lia. lia.
      - split; [lia |]. split; [lia |].
        intros c [-> | ->] Hcn; [| lia].
        replace (2 * i)%nat with j by lia. lia. }
    clearbody j'. destruct Hj' as (Hjj & Hj'n & Hmax).
    unfold LT. destruct (Z.ltb_spec (key v tmp) (key v (at_ a (a_ b j')))) as [Hup | Hstay].
    + assert (Hswap : store (store a (a_ b i) (at_ a (a_ b j'))) (a_ b j') tmp
                      = INTP_SWAP (store a (a_ b i) tmp) (a_ b i) (a_ b j')).
      { apply hole_step; unfold a_; lia. }
      set (L := store a (a_ b i) tmp) in *.
      assert (HL : List.length L = List.length a) by apply length_store.
      assert (HLi : at_ L (a_ b i) = tmp)
        by (apply at_store_eq; unfold a_; lia).
      assert (HLo : forall c, c <> i -> (1 <= c)%nat -> at_ L (a_ b c) = at_ a (a_ b c)).
      { intros c Hc Hc1. apply at_store_neq. unfold a_. lia. }
      clearbody L.
      destruct (IH (store a (a_ b i) (at_ a (a_ b j'))) j' (j' + j')%nat)
        as [Sh Hp]; try lia.
      * rewrite length_store. exact Hlen.
      * intros k Hk Hkj. rewrite Hswap. intros c Hc Hcn.
        rewrite !at_swap by (unfold a_; lia).
        assert (Ec : forall x y, (1 <= x)%nat -> (1 <= y)%nat ->
                                 ((a_ b x =? a_ b y)%nat = (x =? y)%nat)).
        { intros x y Hx Hy. unfold a_.
          destruct (Nat.eqb_spec x y); [subst; apply Nat.eqb_refl |].
          apply Nat.eqb_neq. lia. }
        rewrite !Ec by lia.
        destruct (Nat.eqb_spec k i) as [-> | Hki].
        -- (* the node just filled *)
           destruct (Nat.eqb_spec c i) as [-> | Hci]; [lia |].
           destruct (Nat.eqb_spec c j') as [-> | Hcj].
           ++ rewrite HLi, (HLo j') by lia. lia.
           ++ rewrite (HLo c), (HLo j') by lia. apply Hmax; assumption.
        -- destruct (Nat.eqb_spec k j') as [-> | Hkj']; [lia |].
           destruct (Nat.eqb_spec c i) as [-> | Hci].
           ++ apply (H2 k j'); lia.
           ++ destruct (Nat.eqb_spec c j') as [-> | Hcj]; [lia |].
              apply (H1 k); lia.
      * intros k c Hk Hkj Hc Hcn. rewrite Hswap.
        rewrite !at_swap by (unfold a_; lia).
        assert (k = i) by lia. subst k.
        assert (Ec : forall x y, (1 <= x)%nat -> (1 <= y)%nat ->
                                 ((a_ b x =? a_ b y)%nat = (x =? y)%nat)).
        { intros x y Hx Hy. unfold a_.
          destruct (Nat.eqb_spec x y); [subst; apply Nat.eqb_refl |].
          apply Nat.eqb_neq. lia. }
        rewrite !Ec by lia. rewrite Nat.eqb_refl.
        destruct (Nat.eqb_spec c i) as [-> | Hci]; [lia |].
        destruct (Nat.eqb_spec c j') as [-> | Hcj]; [lia |].
        apply (H1 j'); lia.
      * split; [| exact Hp]. rewrite Hswap in Sh.
        eapply shuffled_trans.
        -- apply (shuffled_one (a_ b i) (a_ b n) L (a_ b i) (a_ b j'));
             unfold a_; lia.
        -- eapply shuffled_mono; [| | exact Sh]; unfold a_; lia.
    + apply Hstop; auto. intros c Hc Hcn.
      assert (key v (at_ a (a_ b c)) <= key v (at_ a (a_ b j')))
        by (apply Hmax; assumption).
      lia.
Qed.

Lemma heapify_spec (n : nat) : forall l a,
  (l <= n)%nat -> (b + n - 1 < List.length a)%nat ->
  (forall k, (l < k <= n)%nat -> heap_at v a b k n) ->
  shuffled (a_ b 1) (a_ b n) a (heapify v l a b n)
  /\ forall k, (1 <= k <= n)%nat -> heap_at v (heapify v l a b n) b k n.
Proof.
  induction l as [|l IH]; intros a Hl Hlen Hheap; cbn [heapify].
  - split; [apply shuffled_refl |]. intros k Hk. apply Hheap. lia.
  - destruct (sift_spec (S l) n (at_ a (a_ b (S l))) n a (S l) (S l + S l)%nat)
      as [Sh Hp]; try lia.
    + intros k Hk Hne. rewrite store_same. apply Hheap. lia.
    + rewrite store_same in Sh.
      set (a1 := sift v n a b (at_ a (a_ b (S l))) (S l) (S l + S l)%nat n) in *.
      destruct (IH a1) as [Sh' Hp']; try lia.
      * rewrite (shuffled_length _ _ _ _ Sh). exact Hlen.
      * intros k Hk. apply Hp. lia.
      * split; [| exact Hp'].
        eapply shuffled_trans; [| exact Sh'].
        eapply shuffled_mono; [| | exact Sh]; unfold a_; lia.
Qed.

Lemma heap_root_max (a : list nat) (n : nat) :
  (forall k, (1 <= k <= n)%nat -> heap_at v a b k n) ->
  forall k, (1 <= k <= n)%nat ->
  key v (at_ a (a_ b k)) <= key v (at_ a (a_ b 1)).
Proof.
  intros Hheap k. induction k as [k IH] using lt_wf_ind. intros Hk.
  destruct (Nat.eq_dec k 1) as [-> | Hne]; [lia |].
  pose proof (Nat.div_mod_eq k 2) as Hd.
  pose proof (Nat.mod_upper_bound k 2) as Hm.
  assert (Hp : (1 <= k / 2 <= n)%nat) by lia.
  assert (key v (at_ a (a_ b k)) <= key v (at_ a (a_ b (k / 2)))).
  { apply (Hheap (k / 2)%nat Hp k); lia. }
  assert (key v (at_ a (a_ b (k / 2))) <= key v (at_ a (a_ b 1)))
    by (apply IH; lia).
  lia.
Qed.

Lemma extract_step (m : nat) (a : list nat) :
  extract v (S (S m)) a b
  = extract v (S m)
      (sift v (S m) (store a (a_ b (S (S m))) (at_ a (a_ b 1))) b
            (at_ a (a_ b (S (S m)))) 1 2 (S m)) b.
Proof. reflexivity. Qed.

Lemma extract_spec (N : nat) : forall n a,
  (n <= N)%nat -> (1 <= N)%nat -> (b + N - 1 < List.length a)%nat ->
  (forall k, (1 <= k <= n)%nat -> heap_at v a b k n) ->
  (forall k m, (n < k)%nat -> (k <= m)%nat -> (m <= N)%nat ->
               key v (at_ a (a_ b k)) <= key v (at_ a (a_ b m))) ->
  (forall k m, (1 <= k <= n)%nat -> (n < m <= N)%nat ->
               key v (at_ a (a_ b k)) <= key v (at_ a (a_ b m))) ->
  shuffled (a_ b 1) (a_ b N) a (extract v n a b)
  /\ forall k m, (1 <= k)%nat -> (k <= m)%nat -> (m <= N)%nat ->
                 key v (at_ (extract v n a b) (a_ b k))
                 <= key v (at_ (extract v n a b) (a_ b m)).
Proof.
  assert (Hbase : forall n a, (n <= 1)%nat ->
    (forall k m, (n < k)%nat -> (k <= m)%nat -> (m <= N)%nat ->
                 key v (at_ a (a_ b k)) <= key v (at_ a (a_ b m))) ->
    (forall k m, (1 <= k <= n)%nat -> (n < m <= N)%nat ->
                 key v (at_ a (a_ b k)) <= key v (at_ a (a_ b m))) ->
    forall k m, (1 <= k)%nat -> (k <= m)%nat -> (m <= N)%nat ->
                key v (at_ a (a_ b k)) <= key v (at_ a (a_ b m))).
  { intros n a Hn Hsuf Hpre k m Hk Hkm Hm.
    destruct (Nat.eq_dec k m) as [-> | Hne]; [lia |].
    destruct (Nat.le_gt_cases k n) as [H | H].
    - apply Hpre; lia.
    - apply Hsuf; lia. }
  induction n as [|n IH]; intros a HnN HN Hlen Hheap Hsuf Hpre.
  - cbn [extract]. split; [apply shuffled_refl |]. apply (Hbase 0%nat); auto.
  - destruct n as [|n'].
    + cbn [extract]. split; [apply shuffled_refl |]. apply (Hbase 1%nat); auto.
    + rewrite extract_step.
      set (n := S (S n')) in *. set (m' := S n') in *.
      assert (Hn : n = S m') by reflexivity.
      assert (Hm' : (1 <= m')%nat) by (unfold m'; lia).
      clearbody n m'.
      set (tmp := at_ a (a_ b n)).
      set (a1 := store a (a_ b n) (at_ a (a_ b 1))).
      assert (HL : store a1 (a_ b 1) tmp = INTP_SWAP a (a_ b n) (a_ b 1)).
      { unfold a1, tmp. rewrite hole_step by (unfold a_; lia).
        rewrite store_same. reflexivity. }
      assert (Hroot : forall k, (1 <= k <= n)%nat ->
                key v (at_ a (a_ b k)) <= key v (at_ a (a_ b 1)))
        by (apply heap_root_max; exact Hheap).
      assert (Ec : forall x y, (1 <= x)%nat -> (1 <= y)%nat ->
                               ((a_ b x =? a_ b y)%nat = (x =? y)%nat)).
      { intros x y Hx Hy. unfold a_.
        destruct (Nat.eqb_spec x y); [subst; apply Nat.eqb_refl |].
        apply Nat.eqb_neq. lia. }
      assert (HLat : forall k, (1 <= k <= N)%nat ->
                at_ (store a1 (a_ b 1) tmp) (a_ b k)
                = if (k =? n)%nat then at_ a (a_ b 1)
                  else if (k =? 1)%nat then at_ a (a_ b n)
                  else at_ a (a_ b k)).
      { intros k Hk. rewrite HL, at_swap by (unfold a_; lia).
        rewrite !Ec by lia. reflexivity. }
      destruct (sift_spec 1 m' tmp m' a1 1 2) as [Sh Hp]; try lia.
      * unfold a1. rewrite length_store. lia.
      * intros k Hk Hk1 c Hc Hcm.
        rewrite !HLat by lia. eqb_cases; try lia.
        apply (Hheap k); lia.
      * set (a2 := sift v m' a1 b tmp 1 2 m') in *.
        assert (Hout : forall k, (m' < k <= N)%nat ->
                  at_ a2 (a_ b k) = at_ (store a1 (a_ b 1) tmp) (a_ b k)).
        { intros k Hk. apply (shuffled_outside _ _ _ _ Sh). unfold a_. lia. }
        assert (Hin : forall k, (1 <= k <= m')%nat ->
                  exists k', (1 <= k' <= m')%nat
                             /\ at_ a2 (a_ b k) = at_ (store a1 (a_ b 1) tmp) (a_ b k')).
        { intros k Hk.
          destruct (shuffled_member _ _ _ _ Sh (a_ b k)) as (p & Hp1 & Hp2);
            [unfold a_; lia |].
          exists (p + 1 - b)%nat. split; [unfold a_ in *; lia |].
          rewrite Hp2. f_equal. unfold a_ in *. lia. }
        destruct (IH a2) as [Sh' Hso']; try lia.
        -- rewrite (shuffled_length _ _ _ _ Sh), length_store.
           unfold a1. rewrite length_store. exact Hlen.
        -- exact Hp.
        -- intros k m Hk Hkm Hm.
           rewrite !Hout, !HLat by lia. eqb_cases; try lia.
           ++ apply Hpre; lia.
           ++ apply Hsuf; lia.
        -- intros k m Hk Hm.
           destruct (Hin k Hk) as (k' & Hk' & Ek).
           rewrite Ek, Hout, !HLat by lia. eqb_cases; try lia.
           ++ apply Hroot; lia.
           ++ apply Hpre; lia.
           ++ apply Hroot; lia.
           ++ apply Hpre; lia.
        -- split; [| exact Hso'].
           eapply shuffled_trans;
             [apply (shuffled_one (a_ b 1) (a_ b N) a (a_ b n) (a_ b 1));
              unfold a_; lia |].
           rewrite <- HL.
           eapply shuffled_trans; [| exact Sh'].
           eapply shuffled_mono; [| | exact Sh]; unfold a_; lia.
Qed.

Lemma aheapsort_spec (a : list nat) (n : nat) :
  (1 <= n)%nat -> (b + n - 1 < List.length a)%nat ->
  shuffled b (b + n - 1) a (aheapsort_ v a b n)
  /\ sorted_seg v (aheapsort_ v a b n) b (b + n - 1).
Proof.
  intros Hn Hlen. unfold aheapsort_.
  pose proof (Nat.div_mod_eq n 2) as Hd.
  pose proof (Nat.mod_upper_bound n 2) as Hm.
  destruct (heapify_spec n (n / 2) a) as [Sh Hp]; try lia.
  { intros k Hk c Hc Hcn. lia. }
  set (a1 := heapify v (n / 2) a b n) in *.
  destruct (extract_spec n n a1) as [Sh' Hso]; try lia.
  { rewrite (shuffled_length _ _ _ _ Sh). exact Hlen. }
  { exact Hp. }
  split.
  - replace b with (a_ b 1) at 1 by (unfold a_; lia).
    change (b + n - 1)%nat with (a_ b n).
    eapply shuffled_trans; eassumption.
  - intros p q Hp1 Hpq Hq.
    replace p with (a_ b (p + 1 - b)) by (unfold a_; lia).
    replace q with (a_ b (q + 1 - b)) by (unfold a_; lia).
    apply Hso; lia.
Qed.

End Heapsort.

(** ** The ranges of the quicksort *)

Section Quicksort.

Variable v : list Timestamp.

Lemma order_replace (n : nat) (a a' : list nat) (l r : nat)
    (news rest : list (nat * nat)) :
  (forall i j, (i < j < n)%nat ->
     same_range ((l, r) :: rest) i j \/ key v (at_ a i) <= key v (at_ a j)) ->
  Forall (fun t => (r < fst t \/ snd t < l)%nat) rest ->
  (r < n)%nat ->
  shuffled l r a a' ->
  (forall i j, (l <= i)%nat -> (i < j)%nat -> (j <= r)%nat ->
     same_range news i j \/ key v (at_ a' i) <= key v (at_ a' j)) ->
  forall i j, (i < j < n)%nat ->
    same_range (news ++ rest) i j \/ key v (at_ a' i) <= key v (at_ a' j).
Proof.
  intros Hord Hap Hr Sh Hnew i j Hij.
  rewrite Forall_forall in Hap.
  assert (Hold : forall i j, (i < j < n)%nat ->
            ~ (l <= i <= r /\ l <= j <= r)%nat ->
            ((l <= i <= r)%nat \/ (l <= j <= r)%nat ->
             key v (at_ a i) <= key v (at_ a j))
            /\ (same_range rest i j \/ key v (at_ a i) <= key v (at_ a j))).
  { intros x y Hxy Hno. destruct (Hord x y Hxy) as [(s & Hs & Hx & Hy) | H];
      [| auto].
    destruct Hs as [<- | Hs]; [simpl in *; lia |].
    split; [| left; exists s; auto].
    intros Hone. specialize (Hap s Hs). lia. }
  assert (Hup : forall segs, same_range segs i j -> same_range (segs ++ rest) i j).
  { intros segs (s & Hs & H). exists s. split; [apply in_or_app; auto | exact H]. }
  destruct (Nat.le_gt_cases l i) as [Hli | Hli];
    [destruct (Nat.le_gt_cases i r) as [Hir | Hir] |].
  - (* i inside *)
    destruct (Nat.le_gt_cases j r) as [Hjr | Hjr].
    + destruct (Hnew i j) as [H | H]; try lia; auto.
    + destruct (shuffled_member _ _ _ _ Sh i) as (i' & Hi' & Ei); [lia |].
      right. rewrite Ei, (shuffled_outside _ _ _ _ Sh j) by lia.
      apply (Hold i' j); lia.
  - (* i beyond the range *)
    rewrite !(shuffled_outside _ _ _ _ Sh) by lia.
    destruct (Hold i j) as [_ [(s & Hs & H) | H]]; try lia; auto.
    left. exists s. split; [apply in_or_app; auto | exact H].
  - (* i before the range *)
    destruct (Nat.le_gt_cases l j) as [Hlj | Hlj];
      [destruct (Nat.le_gt_cases j r) as [Hjr | Hjr] |].
    + destruct (shuffled_member _ _ _ _ Sh j) as (j' & Hj' & Ej); [lia |].
      right. rewrite Ej, (shuffled_outside _ _ _ _ Sh i) by lia.
      apply (Hold i j'); lia.
    + rewrite !(shuffled_outside _ _ _ _ Sh) by lia.
      destruct (Hold i j) as [_ [(s & Hs & H) | H]]; try lia; auto.
      left. exists s. split; [apply in_or_app; auto | exact H].
    + rewrite !(shuffled_outside _ _ _ _ Sh) by lia.
      destruct (Hold i j) as [_ [(s & Hs & H) | H]]; try lia; auto.
      left. exists s. split; [apply in_or_app; auto | exact H].
Qed.

(** A range that has been sorted leaves the ranges to be sorted. *)
Lemma quick_inv_done (n : nat) (a a' : list nat) (l r : nat)
    (rest : list (nat * nat)) :
  quick_inv v n a ((l, r) :: rest) ->
  shuffled l r a a' -> sorted_seg v a' l r ->
  quick_inv v n a' rest.
Proof.
  intros (Hlen & Hb & Hap & Hord) Sh Hso.
  inversion Hb as [|s ss Hlr Hb']; subst. simpl in Hlr, Hap.
  destruct Hap as [Hap1 Hap2].
  split; [apply (shuffled_length _ _ _ _ Sh) |].
  split; [exact Hb' |]. split; [exact Hap2 |].
  apply (order_replace (List.length a) a a' l r [] rest); auto; try lia.
  intros i j Hi Hij Hj. right. apply Hso; lia.
Qed.

(** A partition puts two ranges in the place of one. *)
Lemma quick_inv_split (n : nat) (a a' : list nat) (l r pi : nat)
    (s1 s2 : nat * nat) (rest : list (nat * nat)) :
  quick_inv v n a ((l, r) :: rest) ->
  shuffled l r a a' -> (l < pi < r)%nat ->
  (forall k, (l <= k < pi)%nat -> key v (at_ a' k) <= key v (at_ a' pi)) ->
  (forall k, (pi < k <= r)%nat -> key v (at_ a' pi) <= key v (at_ a' k)) ->
  (s1 = (l, (pi - 1)%nat) /\ s2 = (S pi, r)
   \/ s1 = (S pi, r) /\ s2 = (l, (pi - 1)%nat)) ->
  quick_inv v n a' (s1 :: s2 :: rest)
  /\ (pending (s1 :: s2 :: rest) < pending ((l, r) :: rest))%nat.
Proof.
  intros (Hlen & Hb & Hap & Hord) Sh Hpi Hle Hge Hs.
  inversion Hb as [|s ss Hlr Hb']; subst. simpl in Hlr, Hap.
  destruct Hap as [Hap1 Hap2].
  split.
  - split; [apply (shuffled_length _ _ _ _ Sh) |].
    split.
    { constructor; [| constructor; [| exact Hb']];
        destruct Hs as [[-> ->] | [-> ->]]; simpl; lia. }
    split.
    { simpl. split; [| split; [| exact Hap2]].
      - constructor.
        + destruct Hs as [[-> ->] | [-> ->]]; simpl; lia.
        + eapply Forall_impl; [| exact Hap1].
          intros t Ht. destruct Hs as [[-> ->] | [-> ->]]; simpl in *; lia.
      - eapply Forall_impl; [| exact Hap1].
        intros t Ht. destruct Hs as [[-> ->] | [-> ->]]; simpl in *; lia. }
    apply (order_replace (List.length a) a a' l r [s1; s2] rest); auto; try lia.
    intros i j Hi Hij Hj.
    destruct (Nat.le_gt_cases pi i) as [Hpii | Hpii].
    + destruct (Nat.eq_dec i pi) as [-> | Hne]; [right; apply Hge; lia |].
      left. exists (S pi, r). split; [| simpl; lia].
      destruct Hs as [[-> ->] | [-> ->]]; simpl; auto.
    + destruct (Nat.le_gt_cases pi j) as [Hpij | Hpij].
      * right. destruct (Nat.eq_dec j pi) as [-> | Hne]; [apply Hle; lia |].
        assert (key v (at_ a' i) <= key v (at_ a' pi)) by (apply Hle; lia).
        assert (key v (at_ a' pi) <= key v (at_ a' j)) by (apply Hge; lia).
        lia.
      * left. exists (l, (pi - 1)%nat). split; [| simpl; lia].
        destruct Hs as [[-> ->] | [-> ->]]; simpl; auto.
  - destruct Hs as [[-> ->] | [-> ->]]; simpl; lia.
Qed.

Lemma quick_inv_head (n : nat) (q : Quick) :
  quick_inv v n (tosort q) (ranges q) ->
  (pl q <= pr q)%nat /\ (pr q < List.length (tosort q))%nat.
Proof.
  intros (Hlen & Hb & _). inversion Hb as [|s ss Hlr _]; subst.
  simpl in Hlr. lia.
Qed.

Lemma partition_loop_spec (n : nat) : forall fuel q,
  quick_inv v n (tosort q) (ranges q) ->
  (pr q - pl q <= fuel + SMALL_QUICKSORT)%nat ->
  quick_inv v n (tosort (partition_loop v fuel q))
            (ranges (partition_loop v fuel q))
  /\ (pending (ranges (partition_loop v fuel q)) <= pending (ranges q))%nat
  /\ Permutation (tosort (partition_loop v fuel q)) (tosort q).
Proof.
  induction fuel as [|fuel IH]; intros q Hinv Hfuel; cbn [partition_loop].
  - split; [exact Hinv |]. split; [lia | apply Permutation_refl].
  - destruct (Nat.ltb_spec SMALL_QUICKSORT (pr q - pl q)) as [Hbig | Hsmall];
      [| split; [exact Hinv |]; split; [lia | apply Permutation_refl]].
    destruct (quick_inv_head n q Hinv) as [Hlr Hlen].
    destruct (partition_spec v (tosort q) (pl q) (pr q) Hbig Hlen)
      as (Sh & Hpi & Hle & Hge).
    destruct (partition v (tosort q) (pl q) (pr q)) as [a pi].
    cbn [fst snd] in *.
    destruct (Nat.ltb_spec (pi - pl q) (pr q - pi)) as [Hside | Hside].
    + destruct (quick_inv_split n (tosort q) a (pl q) (pr q) pi
                  (pl q, (pi - 1)%nat) (S pi, pr q) (map fst (sptr q)))
        as [Hinv' Hpen]; auto.
      match goal with
      | |- context [partition_loop v fuel ?q1] =>
          destruct (IH q1) as (I1 & I2 & I3)
      end.
      * exact Hinv'.
      * cbn [pl pr]. lia.
      * split; [exact I1 |]. split.
        -- unfold ranges in *. cbn [pl pr sptr map fst] in *. lia.
        -- eapply perm_trans; [exact I3 |]. cbn [tosort].
           apply (shuffled_perm _ _ _ _ Sh).
    + destruct (quick_inv_split n (tosort q) a (pl q) (pr q) pi
                  (S pi, pr q) (pl q, (pi - 1)%nat) (map fst (sptr q)))
        as [Hinv' Hpen]; auto.
      match goal with
      | |- context [partition_loop v fuel ?q1] =>
          destruct (IH q1) as (I1 & I2 & I3)
      end.
      * exact Hinv'.
      * cbn [pl pr]. lia.
      * split; [exact I1 |]. split.
        -- unfold ranges in *. cbn [pl pr sptr map fst] in *. lia.
        -- eapply perm_trans; [exact I3 |]. cbn [tosort].
           apply (shuffled_perm _ _ _ _ Sh).
Qed.

Lemma partition_loop_small : forall fuel q,
  (pr q - pl q <= fuel + SMALL_QUICKSORT)%nat ->
  (pr (partition_loop v fuel q) - pl (partition_loop v fuel q)
   <= SMALL_QUICKSORT)%nat.
Proof.
  induction fuel as [|fuel IH]; intros q Hfuel; cbn [partition_loop]; [lia |].
  destruct (Nat.ltb_spec SMALL_QUICKSORT (pr q - pl q)) as [Hbig | Hsmall];
    [| lia].
  destruct (partition v (tosort q) (pl q) (pr q)) as [a pi].
  destruct (Nat.ltb_spec (pi - pl q) (pr q - pi)) as [Hside | Hside];
    apply IH; cbn [pl pr]; lia.
Qed.

Lemma sort_range_spec (n : nat) (q : Quick) :
  quick_inv v n (tosort q) (ranges q) ->
  quick_inv v n (tosort (sort_range v q)) (map fst (sptr (sort_range v q)))
  /\ (pending (map fst (sptr (sort_range v q))) < pending (ranges q))%nat
  /\ Permutation (tosort (sort_range v q)) (tosort q).
Proof.
  intros Hinv. unfold sort_range.
  destruct (Z.ltb_spec (cdepth q) 0) as [Hdeep | Hdepth]; cbn [tosort sptr].
  - destruct (quick_inv_head n q Hinv) as [Hlr Hlen].
    destruct (aheapsort_spec v (pl q) (tosort q) (pr q - pl q + 1)) as [Sh Hso];
      try lia.
    replace (pl q + (pr q - pl q + 1) - 1)%nat with (pr q) in * by lia.
    split; [apply (quick_inv_done n (tosort q) _ (pl q) (pr q)); assumption |].
    split; [| apply (shuffled_perm _ _ _ _ Sh)].
    assert (pending (ranges q)
            = (pr q - pl q + 1 + pending (map fst (sptr q)))%nat)
      by reflexivity.
    lia.
  - assert (Hfuel : (pr q - pl q
                     <= List.length (tosort q) + SMALL_QUICKSORT)%nat).
    { destruct (quick_inv_head n q Hinv). lia. }
    destruct (partition_loop_spec n (List.length (tosort q)) q Hinv Hfuel)
      as (I1 & I2 & I3).
    set (q' := partition_loop v (List.length (tosort q)) q) in *.
    destruct (quick_inv_head n q' I1) as [Hlr Hlen].
    destruct (insertion_spec v (tosort q') (pl q') (pr q') Hlr Hlen) as [Sh Hso].
    split; [apply (quick_inv_done n (tosort q') _ (pl q') (pr q')); assumption |].
    split.
    + assert (pending (ranges q')
              = (pr q' - pl q' + 1 + pending (map fst (sptr q')))%nat)
        by reflexivity.
      lia.
    + eapply perm_trans; [apply (shuffled_perm _ _ _ _ Sh) | exact I3].
Qed.

Lemma aquicksort_loop_spec (n : nat) : forall fuel q,
  quick_inv v n (tosort q) (ranges q) ->
  (pending (ranges q) <= fuel)%nat ->
  exists a, aquicksort_loop v fuel q = Some a
            /\ quick_inv v n a []
            /\ Permutation a (tosort q).
Proof.
  induction fuel as [|fuel IH]; intros q Hinv Hfuel.
  - unfold ranges in Hfuel. simpl in Hfuel. lia.
  - cbn [aquicksort_loop].
    destruct (sort_range_spec n q Hinv) as (I1 & I2 & I3).
    destruct (sptr (sort_range v q)) as [|[[pl' pr'] d] stack] eqn:Es.
    + exists (tosort (sort_range v q)). auto.
    + destruct (IH (mkQuick (tosort (sort_range v q)) pl' pr' d stack))
        as (a & E & Ha & Hp).
      * exact I1.
      * assert (pending (ranges (mkQuick (tosort (sort_range v q)) pl' pr' d stack))
                = pending (map fst ((pl', pr', d) :: stack)))
          by reflexivity.
        lia.
      * exists a. split; [exact E |]. split; [exact Ha |].
        eapply perm_trans; [exact Hp | exact I3].
Qed.

Lemma aquicksort_spec (a : list nat) :
  exists a', aquicksort_ v a (List.length a) = Some a'
             /\ Permutation a' a
             /\ forall i j, (i < j < List.length a)%nat ->
                            key v (at_ a' i) <= key v (at_ a' j).
Proof.
  destruct a as [|x a0].
  - exists []. split; [reflexivity |]. split; [apply Permutation_refl |].
    intros i j Hij. simpl in Hij. lia.
  - set (a := x :: a0).
    assert (Hpos : (1 <= List.length a)%nat) by (simpl; lia).
    clearbody a. unfold aquicksort_.
    destruct (aquicksort_loop_spec (List.length a) (S (List.length a))
                (mkQuick a 0 (List.length a - 1)
                         (npy_get_msb (List.length a) * 2) []))
      as (a' & E & (_ & _ & _ & Hord) & Hp).
    + cbn [tosort]. unfold ranges. cbn [pl pr sptr map].
      split; [reflexivity |].
      split; [constructor; [cbn [fst snd]; lia | constructor] |].
      split; [simpl; auto |].
      intros i j Hij. left. exists (0%nat, (List.length a - 1)%nat).
      split; [left; reflexivity | cbn [fst snd]; lia].
    + unfold ranges. cbn [pl pr sptr map pending fold_right fst snd]. lia.
    + exists a'. split; [exact E |]. split; [exact Hp |].
      intros i j Hij. destruct (Hord i j Hij) as [(s & [] & _) | H]. exact H.
Qed.

End Quicksort.

(** ** [argsort], [nargsort] and [sort_values] *)

Lemma argsort_spec (v : list Timestamp) :
  Permutation (argsort v) (seq 0 (List.length v))
  /\ forall i j, (i < j < List.length v)%nat ->
       key v (at_ (argsort v) i) <= key v (at_ (argsort v) j).
Proof.
  unfold argsort.
  destruct (aquicksort_spec v (seq 0 (List.length v))) as (a & E & Hp & Hs).
  rewrite length_seq in E, Hs. rewrite E. auto.
Qed.

Lemma map_nth_seq {A : Type} (l : list A) (d : A) :
  map (fun i => nth i l d) (seq 0 (List.length l)) = l.
Proof.
  apply (nth_ext _ _ d d).
  - rewrite length_map, length_seq. reflexivity.
  - intros n Hn. rewrite length_map, length_seq in Hn.
    rewrite (nth_indep _ d (nth 0%nat l d))
      by (rewrite length_map, length_seq; exact Hn).
    rewrite (map_nth (fun i => nth i l d) (seq 0 (List.length l)) 0%nat n).
    rewrite seq_nth by exact Hn. reflexivity.
Qed.

Lemma filter_split_perm {A : Type} (f : A -> bool) (l : list A) :
  Permutation (filter (fun x => negb (f x)) l ++ filter f l)%list l.
Proof.
  induction l as [|x l IH]; simpl; [constructor |].
  destruct (f x); simpl.
  - apply Permutation_sym, Permutation_cons_app, Permutation_sym, IH.
  - constructor. exact IH.
Qed.

Lemma filter_by_index (p : RawRow -> bool) (items : list RawRow) :
  filter p items
  = map (iloc items)
        (filter (fun i => p (iloc items i)) (seq 0 (List.length items))).
Proof.
  enough (H : forall pre,
    filter p items
    = map (iloc (pre ++ items)%list)
          (filter (fun i => p (iloc (pre ++ items)%list i))
                  (seq (List.length pre) (List.length items))))
    by exact (H []).
  induction items as [|x xs IH]; intros pre; [reflexivity |].
  cbn [List.length seq filter].
  assert (Hx : iloc (pre ++ x :: xs)%list (List.length pre) = x)
    by (unfold iloc; apply nth_middle).
  rewrite Hx.
  specialize (IH (pre ++ [x])%list).
  rewrite <- app_assoc, length_app in IH. cbn [List.length app] in IH.
  rewrite Nat.add_1_r in IH.
  destruct (p x); cbn [map]; rewrite ?Hx; rewrite <- IH; reflexivity.
Qed.

Lemma Sorted_by_index {A : Type} (R : A -> A -> Prop) (d : A) (l : list A) :
  (forall i, (S i < List.length l)%nat -> R (nth i l d) (nth (S i) l d)) ->
  Sorted R l.
Proof.
  induction l as [|x l IH]; intros H; constructor.
  - apply IH. intros i Hi. apply (H (S i)). simpl. lia.
  - destruct l as [|y l]; constructor.
    apply (H 0%nat). simpl. lia.
Qed.

Section NargsortProperties.

Variable items : list RawRow.

Let non_nans : list Timestamp := map i8 (filter (fun r => negb (isna r)) items).
Let non_nan_idx : list nat :=
  filter (fun i => negb (isna (iloc items i))) (seq 0 (List.length items)).
Let nan_idx : list nat :=
  filter (fun i => isna (iloc items i)) (seq 0 (List.length items)).

Lemma non_nans_by_index :
  non_nans = map (fun i => i8 (iloc items i)) non_nan_idx.
Proof.
  unfold non_nans, non_nan_idx.
  rewrite (filter_by_index (fun r => negb (isna r)) items), map_map.
  reflexivity.
Qed.

Lemma nargsort_perm : Permutation (nargsort items) (seq 0 (List.length items)).
Proof.
  unfold nargsort. fold non_nans non_nan_idx nan_idx.
  eapply perm_trans; [| apply (filter_split_perm (fun i => isna (iloc items i)))].
  apply Permutation_app_tail. fold non_nan_idx.
  destruct (argsort_spec non_nans) as [Hp _].
  eapply perm_trans; [apply Permutation_map, Hp |].
  replace (List.length non_nans) with (List.length non_nan_idx)
    by (rewrite non_nans_by_index, length_map; reflexivity).
  rewrite map_nth_seq. apply Permutation_refl.
Qed.

Lemma sort_values_quicksort_perm :
  Permutation (sort_values_quicksort items) items.
Proof.
  unfold sort_values_quicksort.
  eapply perm_trans; [apply Permutation_map, nargsort_perm |].
  unfold iloc. rewrite map_nth_seq. apply Permutation_refl.
Qed.

Lemma stamp_of_row (r : RawRow) : isna r = false -> RTime r = Stamp (i8 r).
Proof. unfold isna, i8. destruct (RTime r); intros H; congruence. Qed.

Lemma row_le_na (r r' : RawRow) : isna r' = true -> row_le r r'.
Proof.
  unfold isna, row_le, time_le.
  destruct (RTime r), (RTime r'); intros H; try discriminate; exact I.
Qed.

Lemma non_nan_idx_row (j : nat) :
  (j < List.length non_nan_idx)%nat ->
  RTime (iloc items (nth j non_nan_idx 0%nat)) = Stamp (key non_nans j).
Proof.
  intros Hj.
  assert (Hin : In (nth j non_nan_idx 0%nat) non_nan_idx) by (apply nth_In; exact Hj).
  unfold non_nan_idx in Hin at 2. apply filter_In in Hin. destruct Hin as [_ Hna].
  apply negb_true_iff in Hna.
  rewrite (stamp_of_row _ Hna). f_equal.
  unfold key. rewrite non_nans_by_index.
  rewrite (nth_indep _ 0 (i8 (iloc items 0%nat)))
    by (rewrite length_map; exact Hj).
  rewrite (map_nth (fun i => i8 (iloc items i))). reflexivity.
Qed.

Lemma sort_values_quicksort_sorted : Sorted row_le (sort_values_quicksort items).
Proof.
  apply (Sorted_by_index row_le (mkRaw NaT EmptyString)).
  unfold sort_values_quicksort, nargsort.
  fold non_nans non_nan_idx nan_idx.
  destruct (argsort_spec non_nans) as [Hp Hs].
  assert (Hm : List.length (argsort non_nans) = List.length non_nan_idx).
  { rewrite (Permutation_length Hp), length_seq, non_nans_by_index, length_map.
    reflexivity. }
  assert (Hlen : List.length non_nans = List.length non_nan_idx)
    by (rewrite non_nans_by_index, length_map; reflexivity).
  assert (Hrange : forall k, (k < List.length non_nan_idx)%nat ->
            (at_ (argsort non_nans) k < List.length non_nan_idx)%nat).
  { intros k Hk.
    assert (Hin : In (at_ (argsort non_nans) k) (argsort non_nans))
      by (apply nth_In; lia).
    apply (Permutation_in _ Hp), in_seq in Hin. lia. }
  set (sorted := argsort non_nans) in *.
  set (indexer := map (fun k => nth k non_nan_idx 0%nat) sorted).
  assert (Hil : List.length indexer = List.length non_nan_idx)
    by (unfold indexer; rewrite length_map; exact Hm).
  assert (Hrow : forall k, (k < List.length non_nan_idx)%nat ->
            RTime (nth k (map (iloc items) (indexer ++ nan_idx)%list)
                       (mkRaw NaT EmptyString))
            = Stamp (key non_nans (at_ sorted k))).
  { intros k Hk.
    rewrite (nth_indep _ _ (iloc items 0%nat))
      by (rewrite length_map, length_app; lia).
    rewrite (map_nth (iloc items)), app_nth1 by lia.
    unfold indexer.
    rewrite (nth_indep _ _ (nth 0%nat non_nan_idx 0%nat))
      by (rewrite length_map; lia).
    rewrite (map_nth (fun k => nth k non_nan_idx 0%nat)).
    apply non_nan_idx_row. apply Hrange. exact Hk. }
  intros i Hi. rewrite length_map, length_app in Hi.
  destruct (Nat.lt_ge_cases (S i) (List.length non_nan_idx)) as [Hin | Hout].
  - unfold row_le. rewrite !Hrow by lia. cbn [time_le].
    apply Hs. lia.
  - apply row_le_na.
    rewrite (nth_indep _ _ (iloc items 0%nat))
      by (rewrite length_map, length_app; lia).
    rewrite (map_nth (iloc items)), app_nth2 by lia.
    assert (Hmem : In (nth (S i - List.length indexer) nan_idx 0%nat) nan_idx)
      by (apply nth_In; lia).
    unfold nan_idx in Hmem at 2. apply filter_In in Hmem. apply Hmem.
Qed.

End NargsortProperties.


(** ** The sorted frame and the ties *)

(** C7 (amended) -- The frame that is windowed is the one [sort_values]
    returns with its default [kind]: it holds the rows of the table in
    ascending order of [Time], the rows without timestamp last, and the
    stream handed to [identify_outages] is in ascending order of timestamp
    and within the window, both ends included.  Nothing is said of the order
    of rows with one timestamp. *)
Theorem normalize_sorted (df : DataFrame) (month_data : MonthData) :
  Permutation (sort_values_quicksort (rows df)) (rows df)
  /\ Sorted row_le (sort_values_quicksort (rows df))
  /\ normalize sort_values_quicksort df month_data
     = window_filter month_data (sort_values_quicksort (rows df))
  /\ Sorted Z.le (map Time (normalize sort_values_quicksort df month_data))
  /\ Forall (fun r => first_day month_data <= Time r <= last_day month_data)
            (normalize sort_values_quicksort df month_data).
Proof.
  split; [apply sort_values_quicksort_perm |].
  split; [apply sort_values_quicksort_sorted |].
  split; [reflexivity |].
  split; [apply window_filter_sorted, sort_values_quicksort_sorted |].
  apply Forall_forall. intros r Hr.
  apply (window_filter_origin month_data _ r Hr).
Qed.

(** C7 -- The sort does not keep the file order of rows with one timestamp:
    of twenty such rows, [sort_values] returns the rows 1 to 17 in reverse.
    Row 1 reports the pilot inactive and row 2 reports it active; after the
    sort the active report comes first, and [identify_outages] returns an
    interval flagged ongoing where the file order gives a closed one. *)
Lemma sort_values_ties_not_kept :
  Forall (fun r => RTime r = Stamp 0) tied_rows
  /\ nargsort tied_rows
     = [0; 17; 16; 15; 14; 13; 12; 11; 10; 9; 8; 7; 6; 5; 4; 3; 2; 1; 18; 19]%nat
  /\ ~ keeps_ties tied_rows (nargsort tied_rows)
  /\ iloc tied_rows 1 = mkRaw (Stamp 0) "Pilot Inactive"
  /\ iloc tied_rows 2 = mkRaw (Stamp 0) "Pilot Active"
  /\ iloc (sort_values_quicksort tied_rows) 16 = mkRaw (Stamp 0) "Pilot Active"
  /\ iloc (sort_values_quicksort tied_rows) 17 = mkRaw (Stamp 0) "Pilot Inactive"
  /\ identify_outages (to_rows tied_rows)
     = Ok [mkOutage 0 0 0 (minutes 0) None]
  /\ identify_outages
       (normalize sort_values_quicksort
          (mkFrame ["Time"; "Message"] tied_rows TextColumn) sample_month)
     = Ok [mkOutage 0 0 0 (minutes 0) (Some true)].
Proof.
  assert (E : nargsort tied_rows
              = [0; 17; 16; 15; 14; 13; 12; 11; 10; 9; 8; 7; 6; 5; 4; 3; 2; 1;
                 18; 19]%nat)
    by (vm_compute; reflexivity).
  split; [unfold tied_rows; repeat constructor |].
  split; [exact E |].
  split.
  { intros H. specialize (H 1%nat 2%nat). rewrite E in H.
    cbn [nth List.length] in H.
    assert (17 < 16)%nat; [apply H; [lia | reflexivity] | lia]. }
  repeat split; vm_compute; reflexivity.
Qed.

(** * Further properties of the analyzer *)

(** ** [strip] and the indicators *)

Lemma append_assoc_s (a b c : string) : ((a ++ b) ++ c = a ++ (b ++ c))%string.
Proof. induction a as [|x a IH]; simpl; [reflexivity | rewrite IH; reflexivity]. Qed.

Lemma prefix_iff (n s : string) :
  prefix n s = true <-> exists r, s = (n ++ r)%string.
Proof.
  revert s; induction n as [|a n IH]; intros s; destruct s as [|b s]; simpl.
  - split; [intros _; exists EmptyString; reflexivity | reflexivity].
  - split; [intros _; exists (String b s); reflexivity | reflexivity].
  - split; [discriminate | intros [r Hr]; discriminate].
  - destruct (ascii_dec a b) as [-> | Hne].
    + rewrite IH. split; intros [r Hr]; exists r; congruence.
    + split; [discriminate | intros [r Hr]; congruence].
Qed.

Lemma contains_iff (n s : string) :
  contains n s = true <-> exists l r, s = (l ++ n ++ r)%string.
Proof.
  induction s as [|c s IH]; cbn [contains].
  - destruct (prefix n EmptyString) eqn:P.
    + split; [intros _ | reflexivity].
      apply prefix_iff in P. destruct P as [r Hr]. exists EmptyString, r. exact Hr.
    + split; [discriminate |].
      intros (l & r & H). destruct l as [|x l]; [| discriminate].
      simpl in H. assert (prefix n EmptyString = true) by (apply prefix_iff; eauto).
      congruence.
  - destruct (prefix n (String c s)) eqn:P.
    + split; [intros _ | reflexivity].
      apply prefix_iff in P. destruct P as [r Hr]. exists EmptyString, r. exact Hr.
    + rewrite IH. split.
      * intros (l & r & H). exists (String c l), r. simpl. congruence.
      * intros (l & r & H). destruct l as [|x l].
        -- simpl in H. assert (prefix n (String c s) = true)
             by (apply prefix_iff; eauto). congruence.
        -- simpl in H. inversion H; subst. eauto.
Qed.

Lemma lstrip_keeps (l n r : string) :
  (exists c m, n = String c m /\ is_space c = false) ->
  exists l', lstrip (l ++ n ++ r) = (l' ++ n ++ r)%string.
Proof.
  intros (c & m & -> & Hc).
  induction l as [|x l IH].
  - exists EmptyString. simpl. rewrite Hc. reflexivity.
  - simpl. destruct (is_space x).
    + exact IH.
    + exists (String x l). reflexivity.
Qed.

Lemma rstrip_solid_cons (d : ascii) (r : string) :
  is_space d = false -> rstrip (String d r) = String d (rstrip r).
Proof.
  intros Hd. simpl. destruct (rstrip r); [rewrite Hd |]; reflexivity.
Qed.

Lemma rstrip_app_keep (a b : string) :
  rstrip b <> EmptyString -> rstrip (a ++ b) = (a ++ rstrip b)%string.
Proof.
  intros Hb. induction a as [|x a IH]; [reflexivity |].
  simpl. rewrite IH.
  destruct (a ++ rstrip b)%string eqn:E; [| reflexivity].
  destruct a; simpl in E; [contradiction | discriminate].
Qed.

Lemma rstrip_keeps (l n r : string) :
  (exists m d, n = (m ++ String d EmptyString)%string /\ is_space d = false) ->
  rstrip (l ++ n ++ r) = (l ++ n ++ rstrip r)%string.
Proof.
  intros (m & d & -> & Hd).
  rewrite !append_assoc_s. simpl.
  assert (Hne : rstrip (String d r) <> EmptyString)
    by (rewrite rstrip_solid_cons by exact Hd; discriminate).
  rewrite <- append_assoc_s.
  rewrite (rstrip_app_keep (l ++ m) _ Hne), rstrip_solid_cons by exact Hd.
  rewrite append_assoc_s. reflexivity.
Qed.

(** A solid needle is found in the stripped message when it is found in
    the message. *)
Lemma strip_keeps_solid (n s : string) :
  solid n -> contains n (strip s) = contains n s.
Proof.
  intros [Hl Hr].
  destruct (contains n s) eqn:E.
  - apply contains_iff in E. destruct E as (l & r & ->).
    destruct (lstrip_keeps l n r Hl) as [l' E'].
    unfold strip. rewrite E', (rstrip_keeps l' n r Hr).
    apply contains_iff. eauto.
  - apply contains_strip; exact E.
Qed.

(** X1 -- Stripping a message never changes whether it contains a needle
    that neither starts nor ends with whitespace. *)
Theorem contains_strip_solid (n s : string) :
  solid n -> contains n (strip s) = contains n s.
Proof.
  intros H. destruct (contains n s) eqn:E.
  - rewrite <- E. apply strip_keeps_solid; exact H.
  - apply contains_strip; exact E.
Qed.

Lemma solid_inactive : solid "Pilot Inactive".
Proof.
  split.
  - exists "P"%char, "ilot Inactive". split; reflexivity.
  - exists "Pilot Inactiv", "e"%char. split; reflexivity.
Qed.

Lemma solid_active : solid "Pilot Active".
Proof.
  split.
  - exists "P"%char, "ilot Active". split; reflexivity.
  - exists "Pilot Activ", "e"%char. split; reflexivity.
Qed.

Lemma contains_strip_solid_witness :
  solid "Pilot Inactive"
  /\ contains "Pilot Inactive" (strip "   Pilot Inactive (zone 2)  ") = true.
Proof.
  split; [exact solid_inactive |].
  rewrite (contains_strip_solid _ _ solid_inactive). reflexivity.
Defined.

(** The loop step in terms of the classification of the raw message. *)
Lemma scan_step_inactive (st : ScanState) (row : Row) :
  inactive_row row = true ->
  scan_step st row
  = if in_outage st then Ok st
    else Ok (mkScan (outages st) true (Some (Time row))).
Proof.
  unfold inactive_row, scan_step. intros H.
  rewrite (strip_keeps_solid _ _ solid_inactive), H.
  destruct (in_outage st); reflexivity.
Qed.

Lemma scan_step_active (st : ScanState) (row : Row) :
  active_row row = true ->
  scan_step st row
  = if in_outage st then
      match outage_start st with
      | Some s =>
          Ok (mkScan (outages st
                      ++ [mkOutage s (Time row) (Time row - s)
                                   (minutes (Time row - s)) None])
                     false (outage_start st))
      | None => Raise TypeError
      end
    else Ok st.
Proof.
  unfold active_row, scan_step. intros H.
  apply andb_true_iff in H. destruct H as [Hi Ha].
  apply negb_true_iff in Hi.
  rewrite (strip_keeps_solid _ _ solid_inactive), Hi,
    (strip_keeps_solid _ _ solid_active), Ha.
  reflexivity.
Qed.

Lemma scan_step_other (st : ScanState) (row : Row) :
  indicator_row row = false -> scan_step st row = Ok st.
Proof.
  unfold indicator_row, inactive_row, active_row, scan_step. intros H.
  apply orb_false_iff in H. destruct H as [Hi Ha].
  rewrite Hi in Ha. simpl in Ha.
  rewrite (strip_keeps_solid _ _ solid_inactive), Hi,
    (strip_keeps_solid _ _ solid_active), Ha.
  reflexivity.
Qed.

Lemma row_cases (row : Row) :
  inactive_row row = true \/ active_row row = true \/ indicator_row row = false.
Proof.
  unfold indicator_row, active_row, inactive_row.
  destruct (contains "Pilot Inactive" (Message row)); simpl; auto.
  destruct (contains "Pilot Active" (Message row)); auto.
Qed.

(** ** What the scan reads and what it ignores *)

Lemma scan_app (l1 l2 : list Row) :
  forall st, scan (l1 ++ l2) st = (st' <- scan l1 st ;; scan l2 st').
Proof.
  induction l1 as [|r l1 IH]; intros st; simpl; [reflexivity |].
  destruct (scan_step st r) as [st1|e]; simpl; [apply IH | reflexivity].
Qed.

Lemma scan_filter_indicator (rows : list Row) :
  forall st, scan rows st = scan (filter indicator_row rows) st.
Proof.
  induction rows as [|r rows IH]; intros st; simpl; [reflexivity |].
  destruct (indicator_row r) eqn:E; simpl.
  - destruct (scan_step st r); simpl; [apply IH | reflexivity].
  - rewrite (scan_step_other st r E). simpl. apply IH.
Qed.

Lemma iloc_last_app (l1 l2 : list Row) :
  l2 <> [] -> iloc_last (l1 ++ l2) = iloc_last l2.
Proof.
  intros Hne. induction l1 as [|r l1 IH]; [reflexivity |].
  simpl app. destruct (l1 ++ l2)%list eqn:E.
  - destruct l1; [simpl in E; contradiction | discriminate].
  - change (iloc_last (r :: r0 :: l)) with (iloc_last (r0 :: l)). exact IH.
Qed.

(** X2 -- Rows whose message holds neither indicator do not change the
    variables of the loop: the scan of a frame and the scan of its indicator
    rows end in the same state, so such rows can reach the result only as
    the last row, whose timestamp closes an ongoing outage. *)
Theorem scan_ignores_other_rows (df : list Row) :
  scan df scan_init = scan (filter indicator_row df) scan_init
  /\ exists st,
       scan df scan_init = Ok st
       /\ ((in_outage st = false
            /\ identify_outages df = Ok (outages st)
            /\ identify_outages (filter indicator_row df) = Ok (outages st))
           \/ (in_outage st = true
               /\ exists s e e',
                    identify_outages df
                    = Ok (outages st
                          ++ [mkOutage s e (e - s) (minutes (e - s)) (Some true)])%list
                    /\ identify_outages (filter indicator_row df)
                       = Ok (outages st
                             ++ [mkOutage s e' (e' - s) (minutes (e' - s))
                                          (Some true)])%list)).
Proof.
  split; [apply scan_filter_indicator |].
  destruct (identify_outages_cases df)
    as (st & E & _ & [[Hf R] | [Ht (s & e & Hs & He & R)]]).
  - exists st. split; [exact E |]. left.
    split; [exact Hf |]. split; [exact R |].
    unfold identify_outages. rewrite <- scan_filter_indicator, E. cbn [bind].
    rewrite Hf. reflexivity.
  - exists st. split; [exact E |]. right. split; [exact Ht |].
    destruct (identify_outages_cases (filter indicator_row df))
      as (st' & E' & _ & [[Hf' _] | [_ (s' & e' & Hs' & _ & R')]]);
      rewrite <- scan_filter_indicator, E in E'; inversion E'; subst st'.
    + congruence.
    + exists s, e, e'. split; [exact R |].
      assert (s' = s) by congruence. subst s'. exact R'.
Qed.

(** ** Frames without "Pilot Inactive" *)

Lemma scan_no_inactive (rows : list Row) :
  Forall (fun r => inactive_row r = false) rows ->
  forall st, in_outage st = false -> scan rows st = Ok st.
Proof.
  induction 1 as [|r rows Hr _ IH]; intros st Hst; [reflexivity |].
  simpl. destruct (row_cases r) as [H | [H | H]].
  - congruence.
  - rewrite (scan_step_active st r H), Hst. simpl. apply IH; exact Hst.
  - rewrite (scan_step_other st r H). simpl. apply IH; exact Hst.
Qed.

(** X3 -- On a frame in which no message contains "Pilot Inactive",
    [identify_outages] returns no interval, however many "Pilot Active" rows
    there are: an end without a start is dropped. *)
Theorem identify_outages_no_inactive (df : list Row) :
  Forall (fun r => contains "Pilot Inactive" (Message r) = false) df ->
  identify_outages df = Ok [].
Proof.
  intros H. unfold identify_outages.
  rewrite (scan_no_inactive df H scan_init eq_refl). reflexivity.
Qed.

Lemma identify_outages_no_inactive_witness :
  Forall (fun r => contains "Pilot Inactive" (Message r) = false)
         [mkRow 0 "Pilot Active"; mkRow 5 "Heartbeat"; mkRow 9 "Pilot Active"]
  /\ identify_outages
       [mkRow 0 "Pilot Active"; mkRow 5 "Heartbeat"; mkRow 9 "Pilot Active"]
     = Ok [].
Proof.
  assert (H : Forall (fun r => contains "Pilot Inactive" (Message r) = false)
                [mkRow 0 "Pilot Active"; mkRow 5 "Heartbeat"; mkRow 9 "Pilot Active"])
    by (repeat constructor).
  split; [exact H | exact (identify_outages_no_inactive _ H)].
Defined.

(** ** Where the intervals come from *)

Lemma scan_step_from (df : list Row) (st st' : ScanState) (row : Row) :
  In row df ->
  Forall (closed_from df) (outages st) -> pending_from df st ->
  scan_step st row = Ok st' ->
  Forall (closed_from df) (outages st') /\ pending_from df st'.
Proof.
  intros Hin Hc Hp E.
  destruct (row_cases row) as [H | [H | H]].
  - rewrite (scan_step_inactive st row H) in E.
    destruct (in_outage st) eqn:Ei; inversion E; subst; [auto |].
    split; [exact Hc |].
    intros _. exists (Time row), row. simpl. auto.
  - rewrite (scan_step_active st row H) in E.
    destruct (in_outage st) eqn:Ei; [| inversion E; subst; auto].
    destruct (Hp Ei) as (s & r & Hs & Hr & Hi & Ht).
    rewrite Hs in E. inversion E; subst st'. simpl.
    split; [| intros Hf; discriminate].
    apply Forall_app. split; [exact Hc |].
    constructor; [| constructor].
    unfold closed_from; simpl.
    split; [exists r; auto |]. split; [exists row; auto | reflexivity].
  - rewrite (scan_step_other st row H) in E. inversion E; subst; auto.
Qed.

Lemma scan_from (df rows : list Row) :
  incl rows df ->
  forall st st',
    Forall (closed_from df) (outages st) -> pending_from df st ->
    scan rows st = Ok st' ->
    Forall (closed_from df) (outages st') /\ pending_from df st'.
Proof.
  induction rows as [|r rows IH]; intros Hincl st st' Hc Hp E; simpl in E.
  - inversion E; subst; auto.
  - destruct (scan_step st r) as [st1|e] eqn:E1; simpl in E; [| discriminate].
    destruct (scan_step_from df st st1 r (Hincl r (or_introl eq_refl)) Hc Hp E1)
      as [Hc1 Hp1].
    apply (IH (fun x Hx => Hincl x (or_intror Hx)) st1 st' Hc1 Hp1 E).
Qed.

(** X4 -- Every interval returned by [identify_outages] starts at the
    timestamp of a row whose message contains "Pilot Inactive".  An interval
    without the key ['ongoing'] ends at the timestamp of a row whose message
    contains "Pilot Active" and not "Pilot Inactive"; the interval flagged
    ongoing ends at the timestamp of the last row of the frame. *)
Theorem identify_outages_origins (df : list Row) :
  exists outs,
    identify_outages df = Ok outs
    /\ Forall (fun o => exists r, In r df /\ inactive_row r = true
                                  /\ Time r = start o) outs
    /\ Forall (fun o => ongoing o = None ->
                        exists r, In r df /\ active_row r = true
                                  /\ Time r = end_ o) outs
    /\ Forall (fun o => ongoing o <> None ->
                        forall d, end_ o = Time (last df d)) outs.
Proof.
  destruct (identify_outages_cases df)
    as (st & E & _ & Hcases).
  assert (Hinit : Forall (closed_from df) (outages scan_init)) by constructor.
  assert (Hpinit : pending_from df scan_init) by (intros H; discriminate).
  destruct (scan_from df df (incl_refl df) scan_init st Hinit Hpinit E) as [Hc Hp].
  assert (H1 : Forall (fun o => exists r, In r df /\ inactive_row r = true
                                          /\ Time r = start o) (outages st)).
  { eapply Forall_impl; [| exact Hc]. intros o (H & _); exact H. }
  assert (H2 : Forall (fun o => ongoing o = None ->
                                exists r, In r df /\ active_row r = true
                                          /\ Time r = end_ o) (outages st)).
  { eapply Forall_impl; [| exact Hc]. intros o (_ & H & _) _; exact H. }
  assert (H3 : Forall (fun o => ongoing o <> None ->
                                forall d, end_ o = Time (last df d)) (outages st)).
  { eapply Forall_impl; [| exact Hc]. intros o (_ & _ & H) Hn; contradiction. }
  destruct Hcases as [[_ R] | [Ht (s & e & Hs & He & R)]].
  - exists (outages st). auto.
  - eexists. split; [exact R |].
    destruct (Hp Ht) as (s' & r & Hs' & Hr & Hi & Hts).
    assert (s' = s) by congruence. subst s'.
    split; [| split]; apply Forall_app; (split; [assumption |]);
      (constructor; [| constructor]); simpl.
    + exists r; auto.
    + discriminate.
    + intros _ d. eapply iloc_last_is_last; exact He.
Qed.

(** ** How many intervals *)

Lemma scan_counts (rows : list Row) :
  forall st st', scan rows st = Ok st' ->
    (List.length (outages st') + b2n (in_outage st')
     <= List.length (outages st) + b2n (in_outage st)
        + List.length (filter inactive_row rows))%nat
    /\ (List.length (outages st')
        <= List.length (outages st) + List.length (filter active_row rows))%nat.
Proof.
  induction rows as [|r rows IH]; intros st st' E; simpl in E.
  - inversion E; subst. simpl. lia.
  - destruct (scan_step st r) as [st1|e] eqn:E1; simpl in E; [| discriminate].
    destruct (IH st1 st' E) as [A B]. clear IH E.
    assert (Hex : active_row r = true -> inactive_row r = false).
    { unfold active_row. intros H. apply andb_true_iff in H.
      destruct H as [H _]. apply negb_true_iff in H. exact H. }
    destruct (row_cases r) as [H | [H | H]].
    + rewrite (scan_step_inactive st r H) in E1.
      assert (Ha : active_row r = false).
      { destruct (active_row r) eqn:Ea; [| reflexivity].
        rewrite (Hex eq_refl) in H. discriminate. }
      simpl filter. rewrite H, Ha.
      destruct (in_outage st) eqn:Ei; inversion E1; subst st1; simpl in *;
        try rewrite Ei in *; simpl in *; lia.
    + rewrite (scan_step_active st r H) in E1.
      simpl filter. rewrite H, (Hex H).
      destruct (in_outage st) eqn:Ei.
      * destruct (outage_start st); inversion E1; subst st1; simpl in *.
        rewrite length_app in *. simpl in *. lia.
      * inversion E1; subst st1. simpl in *. rewrite Ei in *. simpl in *. lia.
    + rewrite (scan_step_other st r H) in E1. inversion E1; subst st1.
      unfold indicator_row in H. apply orb_false_iff in H. destruct H as [Hi Ha].
      simpl filter. rewrite Hi, Ha. lia.
Qed.

(** X5 -- [identify_outages] returns at most as many intervals as the frame
    has "Pilot Inactive" rows, and at most as many intervals without the
    ongoing flag as it has "Pilot Active" rows. *)
Theorem identify_outages_count (df : list Row) :
  exists outs,
    identify_outages df = Ok outs
    /\ (List.length outs <= List.length (filter inactive_row df))%nat
    /\ (List.length (filter (fun o => negb (get_ongoing o)) outs)
        <= List.length (filter active_row df))%nat.
Proof.
  destruct (identify_outages_cases df)
    as (st & E & Hclosed & Hcases).
  destruct (scan_counts df scan_init st E) as [A B]. simpl in A, B.
  assert (Hf : filter (fun o => negb (get_ongoing o)) (outages st) = outages st).
  { clear -Hclosed. induction Hclosed as [|o l Ho _ IH]; [reflexivity |].
    simpl. unfold get_ongoing at 1. rewrite Ho. simpl. rewrite IH. reflexivity. }
  destruct Hcases as [[Hi R] | [Hi (s & e & _ & _ & R)]]; rewrite Hi in A; simpl in A.
  - exists (outages st). split; [exact R |]. rewrite Hf. lia.
  - eexists. split; [exact R |].
    rewrite filter_app, Hf, !length_app. simpl. lia.
Qed.

Lemma last_in {A : Type} (l : list A) (d : A) : l <> [] -> In (last l d) l.
Proof.
  induction l as [|x l IH]; intros H; [contradiction |].
  destruct l as [|y l]; [left; reflexivity |].
  right. apply IH. discriminate.
Qed.

Lemma scan_step_duration (st st' : ScanState) (row : Row) :
  Forall (fun o => duration o = end_ o - start o) (outages st) ->
  scan_step st row = Ok st' ->
  Forall (fun o => duration o = end_ o - start o) (outages st').
Proof.
  intros Hd E.
  destruct (row_cases row) as [H | [H | H]].
  - rewrite (scan_step_inactive st row H) in E.
    destruct (in_outage st); inversion E; subst; exact Hd.
  - rewrite (scan_step_active st row H) in E.
    destruct (in_outage st); [| inversion E; subst; exact Hd].
    destruct (outage_start st) as [s|]; [| discriminate].
    inversion E; subst st'. simpl.
    apply Forall_app. split; [exact Hd |].
    constructor; [reflexivity | constructor].
  - rewrite (scan_step_other st row H) in E. inversion E; subst; exact Hd.
Qed.

Lemma scan_duration (rows : list Row) :
  forall st st',
    Forall (fun o => duration o = end_ o - start o) (outages st) ->
    scan rows st = Ok st' ->
    Forall (fun o => duration o = end_ o - start o) (outages st').
Proof.
  induction rows as [|r rows IH]; intros st st' Hd E; simpl in E.
  - inversion E; subst; exact Hd.
  - destruct (scan_step st r) as [st1|e] eqn:E1; simpl in E; [| discriminate].
    exact (IH st1 st' (scan_step_duration st st1 r Hd E1) E).
Qed.

(** X6 -- On a frame whose timestamps lie less than 2^63 ns apart, no
    exception leaves [identify_outages]: the subtraction never meets an
    unset [outage_start], [iloc[-1]] is never taken of an empty frame, and
    every difference taken is that of the timestamps of two rows of the
    frame, so that each duration is a valid [Timedelta]. *)
Theorem identify_outages_never_raises (df : list Row) (e : PyException) :
  timedelta_range df ->
  identify_outages df <> Raise e
  /\ exists outs,
       identify_outages df = Ok outs
       /\ Forall (fun o => (exists r r', In r df /\ In r' df
                                         /\ duration o = Time r' - Time r)
                           /\ - 2 ^ 63 < duration o < 2 ^ 63) outs.
Proof.
  intros Hrange.
  destruct (identify_outages_cases df) as (st & E & _ & Hcases).
  assert (Hinit : Forall (closed_from df) (outages scan_init)) by constructor.
  assert (Hpinit : pending_from df scan_init) by (intros H; discriminate).
  destruct (scan_from df df (incl_refl df) scan_init st Hinit Hpinit E) as [Hc Hp].
  assert (Hd : Forall (fun o => duration o = end_ o - start o) (outages st)).
  { apply (scan_duration df scan_init st); [constructor | exact E]. }
  assert (Hst : Forall (fun o => (exists r r', In r df /\ In r' df
                                               /\ duration o = Time r' - Time r)
                                 /\ - 2 ^ 63 < duration o < 2 ^ 63) (outages st)).
  { rewrite Forall_forall in *. intros o Ho.
    destruct (Hc o Ho) as ((r & Hr & _ & Hs) & (r' & Hr' & _ & He) & _).
    rewrite (Hd o Ho), <- Hs, <- He.
    split; [exists r, r'; auto | exact (Hrange r r' Hr Hr')]. }
  destruct Hcases as [[_ R] | [Ht (s & x & Hs & Hx & R)]]; rewrite R.
  - split; [discriminate |]. exists (outages st). auto.
  - split; [discriminate |]. eexists. split; [reflexivity |].
    apply Forall_app. split; [exact Hst |].
    constructor; [| constructor]. simpl.
    destruct (Hp Ht) as (s' & r & Hs' & Hr & _ & Hts).
    assert (Hss : s' = s) by congruence. rewrite Hss in Hts.
    assert (Hne : df <> []) by (intros ->; destruct Hr).
    rewrite (iloc_last_is_last df x r Hx).
    pose proof (last_in df r Hne) as Hl.
    rewrite <- Hts.
    split; [exists r, (last df r); auto | exact (Hrange r _ Hr Hl)].
Qed.

Lemma identify_outages_never_raises_witness :
  timedelta_range sample_unterminated
  /\ identify_outages sample_unterminated <> Raise TypeError
  /\ exists outs,
       identify_outages sample_unterminated = Ok outs
       /\ Forall (fun o => (exists r r', In r sample_unterminated
                                         /\ In r' sample_unterminated
                                         /\ duration o = Time r' - Time r)
                           /\ - 2 ^ 63 < duration o < 2 ^ 63) outs.
Proof.
  assert (H : timedelta_range sample_unterminated).
  { intros r r' Hr Hr'.
    assert (Hb : forall x, In x sample_unterminated ->
                           0 <= Time x <= 100 * minute_ns).
    { intros x Hx. unfold sample_unterminated in Hx. simpl in Hx.
      repeat (destruct Hx as [<- | Hx]; [vm_compute; split; discriminate |]).
      destruct Hx. }
    pose proof (Hb r Hr). pose proof (Hb r' Hr').
    unfold minute_ns in *. lia. }
  split; [exact H |].
  exact (identify_outages_never_raises sample_unterminated TypeError H).
Defined.

(** X7 -- A "Pilot Inactive" row that directly follows another one and is
    not the last row of the frame changes nothing: the first start is kept
    and the result is that of the frame without the repeated row. *)
Theorem identify_outages_repeated_inactive
    (l1 l2 : list Row) (r r' : Row) :
  contains "Pilot Inactive" (Message r) = true ->
  contains "Pilot Inactive" (Message r') = true ->
  l2 <> [] ->
  identify_outages (l1 ++ r :: r' :: l2) = identify_outages (l1 ++ r :: l2).
Proof.
  intros Hr Hr' Hne.
  assert (Hscan : forall st, scan (l1 ++ r :: r' :: l2) st = scan (l1 ++ r :: l2) st).
  { intros st. rewrite !scan_app.
    destruct (scan l1 st) as [st1|e]; simpl; [| reflexivity].
    rewrite (scan_step_inactive st1 r Hr).
    destruct (in_outage st1) eqn:Ei; simpl;
      rewrite (scan_step_inactive _ r' Hr'); simpl; try rewrite Ei; reflexivity. }
  unfold identify_outages. rewrite Hscan.
  assert (Hl : iloc_last (l1 ++ r :: r' :: l2) = iloc_last (l1 ++ r :: l2)).
  { rewrite (iloc_last_app l1 (r :: r' :: l2)) by discriminate.
    rewrite (iloc_last_app l1 (r :: l2)) by discriminate.
    destruct l2 as [|x l2]; [contradiction | reflexivity]. }
  rewrite Hl. reflexivity.
Qed.

Lemma identify_outages_repeated_inactive_witness :
  identify_outages
    [mkRow 0 "Pilot Inactive"; mkRow 3 "Pilot Inactive"; mkRow 9 "Pilot Active"]
  = Ok [mkOutage 0 9 9 (minutes 9) None].
Proof.
  assert (Hne : [mkRow 9 "Pilot Active"] <> []) by discriminate.
  pose proof (identify_outages_repeated_inactive []
                [mkRow 9 "Pilot Active"] (mkRow 0 "Pilot Inactive")
                (mkRow 3 "Pilot Inactive") eq_refl eq_refl Hne) as H.
  simpl app in H. rewrite H. reflexivity.
Defined.

(** ** Availability stays in range *)



Lemma minutes_pos (d : Timedelta) : 0 < d -> (0 < minutes d)%Q.
Proof.
  intros H. unfold minutes, total_seconds, Qlt, Qdiv, Qmult, Qinv; simpl. lia.
Qed.



(** The quotient of the contract is between 0 and 1. *)
Lemma availability_in_range
    (df : list Row) (outs : list Outage) (month_data : MonthData) :
  first_day month_data < last_day month_data ->
  (0 <= sum_duration_minutes outs)%Q ->
  (sum_duration_minutes outs
   <= minutes (last_day month_data - first_day month_data)%Z)%Q ->
  (0 <= calculate_availability df outs month_data
   /\ calculate_availability df outs month_data <= 100)%Q.
Proof.
  intros Hlt H0 H1. unfold calculate_availability.
  rewrite availability_body_ok by lia.
  set (w := minutes (last_day month_data - first_day month_data)%Z) in *.
  set (s := sum_duration_minutes outs) in *.
  assert (Hw : (0 < w)%Q) by (apply minutes_pos; lia).
  assert (Hq0 : (0 <= (w - s) / w)%Q).
  { apply Qle_shift_div_l; [exact Hw |]. rewrite Qmult_0_l.
    unfold Qminus. rewrite <- (Qplus_opp_r s).
    apply Qplus_le_compat; [exact H1 | apply Qle_refl]. }
  assert (Hq1 : ((w - s) / w <= 1)%Q).
  { apply Qle_shift_div_r; [exact Hw |]. rewrite Qmult_1_l.
    unfold Qminus. rewrite <- (Qplus_0_r w) at 2.
    apply Qplus_le_compat; [apply Qle_refl |].
    apply (Qopp_le_compat 0 s) in H0. exact H0. }
  split.
  - apply Qmult_le_0_compat; [exact Hq0 | discriminate].
  - apply (Qmult_le_compat_r _ _ 100) in Hq1; [| discriminate].
    rewrite Qmult_1_l in Hq1. exact Hq1.
Qed.

(** X8 -- When the outage minutes are between 0 and the length of a window
    of positive length, the availability is between 0 and 100. *)
Theorem calculate_availability_in_range
    (df : list Row) (outs : list Outage) (month_data : MonthData) :
  first_day month_data < last_day month_data ->
  (0 <= sum_duration_minutes outs)%Q ->
  (sum_duration_minutes outs
   <= minutes (last_day month_data - first_day month_data)%Z)%Q ->
  (0 <= calculate_availability df outs month_data
   /\ calculate_availability df outs month_data <= 100)%Q.
Proof.
  intros Hlt H0 H1. split.
  - apply (availability_in_range df outs month_data Hlt H0 H1).
  - apply (availability_in_range df outs month_data Hlt H0 H1).
Qed.

Lemma calculate_availability_in_range_witness :
  (0 <= calculate_availability [] [outage_of_minutes 10] sample_month
   /\ calculate_availability [] [outage_of_minutes 10] sample_month <= 100)%Q.
Proof.
  apply (calculate_availability_in_range [] [outage_of_minutes 10] sample_month).
  - vm_compute; reflexivity.
  - vm_compute; discriminate.
  - vm_compute; discriminate.
Defined.




(** ** The verdict in terms of the data *)

Lemma Qltb_lt (x y : Q) : Qltb x y = true <-> (x < y)%Q.
Proof.
  unfold Qltb. rewrite negb_true_iff. split.
  - intros H. apply Qnot_le_lt. intros Hle.
    apply Qle_bool_iff in Hle. congruence.
  - intros H. destruct (Qle_bool y x) eqn:E; [| reflexivity].
    apply Qle_bool_iff in E. exfalso. exact (Qlt_not_le _ _ H E).
Qed.

Lemma Qltb_ge (x y : Q) : Qltb x y = false <-> (y <= x)%Q.
Proof.
  unfold Qltb. rewrite negb_false_iff. apply Qle_bool_iff.
Qed.

Lemma some_long_outage_false (outs : list Outage) :
  some_long_outage outs = false
  <-> Forall (fun o => (duration_minutes o <= 60)%Q) outs.
Proof.
  unfold some_long_outage. induction outs as [|o outs IH]; simpl.
  - split; [constructor | reflexivity].
  - rewrite orb_false_iff, IH. unfold is_long at 1.
    rewrite Qltb_ge. unfold MAX_OUTAGE_DURATION_MINUTES.
    split; [intros [H1 H2]; constructor; assumption
           | intros H; inversion H; auto].
Qed.

(** The three tests in terms of the data. *)
Lemma compliant_true_iff (outs : list Outage) (availability : Q) :
  compliant (check_epa_compliance outs availability) = true
  <-> (List.length outs <= 10)%nat
      /\ Forall (fun o => (duration_minutes o <= 60)%Q) outs
      /\ (99 <= availability)%Q.
Proof.
  rewrite check_epa_compliance_compliant, !andb_true_iff, !negb_true_iff.
  rewrite some_long_outage_false.
  unfold low_availability, MIN_AVAILABILITY_PERCENT. rewrite Qltb_ge.
  unfold too_many_outages, MAX_OUTAGES_PER_MONTH. rewrite Nat.ltb_ge.
  tauto.
Qed.

(** X10 -- The verdict is compliant exactly when there are at most 10
    outages, none of them lasts more than 60 minutes, and the availability is
    at least 99. *)
Theorem check_epa_compliance_compliant_iff (outs : list Outage) (availability : Q) :
  compliant (check_epa_compliance outs availability) = true
  <-> (List.length outs <= 10)%nat
      /\ Forall (fun o => (duration_minutes o <= 60)%Q) outs
      /\ (99 <= availability)%Q.
Proof.
  split; intros H.
  - apply compliant_true_iff; exact H.
  - apply compliant_true_iff; exact H.
Qed.

(** X11 -- An additional outage never turns a non-compliant period into a
    compliant one and never shortens the issue list; an additional outage of
    more than 60 minutes makes the period non-compliant. *)
Theorem check_epa_compliance_monotone
    (l1 l2 : list Outage) (o : Outage) (availability : Q) :
  let without := check_epa_compliance (l1 ++ l2) availability in
  let with_o := check_epa_compliance (l1 ++ o :: l2) availability in
  (compliant with_o = true -> compliant without = true)
  /\ (List.length (issues without) <= List.length (issues with_o))%nat
  /\ ((60 < duration_minutes o)%Q ->
      compliant with_o = false
      /\ exists n, In (OutagesExceedingDuration n 60) (issues with_o)).
Proof.
  intros without with_o. subst without with_o.
  assert (Hmany : too_many_outages (l1 ++ l2) = true ->
                  too_many_outages (l1 ++ o :: l2) = true).
  { unfold too_many_outages. rewrite !Nat.ltb_lt, !length_app. simpl. lia. }
  assert (Hlong : some_long_outage (l1 ++ l2) = true ->
                  some_long_outage (l1 ++ o :: l2) = true).
  { unfold some_long_outage. rewrite !existsb_app. simpl.
    rewrite !orb_true_iff. tauto. }
  assert (Ho : (60 < duration_minutes o)%Q -> some_long_outage (l1 ++ o :: l2) = true).
  { intros H. unfold some_long_outage. rewrite existsb_app. simpl.
    assert (is_long o = true) by (apply Qltb_lt; exact H).
    rewrite H0, orb_true_r. reflexivity. }
  rewrite !check_epa_compliance_compliant, !check_epa_compliance_issues.
  unfold issue_if.
  split; [| split].
  - intros H. apply andb_true_iff in H. destruct H as [H12 H3].
    apply andb_true_iff in H12. destruct H12 as [H1 H2].
    apply negb_true_iff in H1. apply negb_true_iff in H2.
    destruct (too_many_outages (l1 ++ l2)); [rewrite Hmany in H1; congruence |].
    destruct (some_long_outage (l1 ++ l2)); [rewrite Hlong in H2; congruence |].
    exact H3.
  - destruct (too_many_outages (l1 ++ l2)); [rewrite Hmany by reflexivity |];
      destruct (some_long_outage (l1 ++ l2)); try rewrite Hlong by reflexivity;
      destruct (too_many_outages (l1 ++ o :: l2));
      destruct (some_long_outage (l1 ++ o :: l2));
      destruct (low_availability availability); simpl; lia.
  - intros H. rewrite (Ho H). split.
    + rewrite andb_false_r. reflexivity.
    + eexists. apply in_or_app. right. left. reflexivity.
Qed.

Lemma check_epa_compliance_monotone_witness :
  compliant (check_epa_compliance ([] ++ outage_of_minutes 90 :: []) 100) = false.
Proof.
  apply (proj2 (proj2 (check_epa_compliance_monotone [] []
                         (outage_of_minutes 90) 100))).
  vm_compute. reflexivity.
Defined.

(** * The report generator *)

Section ReportProperties.

Variable strftime_minutes : Timestamp -> string.
Variable format_2f : Q -> string.
Variable issue_text : Issue -> string.
Variable green_hexval : string.
Variable red_hexval : string.

Lemma outage_table_rows_length (outs : list Outage) :
  forall idx,
    List.length (outage_table_rows strftime_minutes format_2f idx outs)
    = List.length outs.
Proof.
  induction outs as [|o outs IH]; intros idx; simpl; [reflexivity |].
  rewrite IH. reflexivity.
Qed.

Lemma outage_table_rows_nth (outs : list Outage) :
  forall idx i o,
    nth_error outs i = Some o ->
    nth_error (outage_table_rows strftime_minutes format_2f idx outs) i
    = Some (outage_table_row strftime_minutes format_2f (idx + i) o).
Proof.
  induction outs as [|x outs IH]; intros idx i o H.
  - destruct i; discriminate.
  - destruct i as [|i]; simpl in *.
    + inversion H; subst. rewrite Nat.add_0_r. reflexivity.
    + rewrite (IH (S idx) i o H). f_equal. f_equal. lia.
Qed.

Lemma outage_table_rows_width (outs : list Outage) :
  forall idx,
    Forall (fun row => List.length row = 5%nat)
           (outage_table_rows strftime_minutes format_2f idx outs).
Proof.
  induction outs as [|o outs IH]; intros idx; simpl; constructor;
    [reflexivity | apply IH].
Qed.

(** X12 -- For a non-empty outage list the details section is the section
    header, one table and a spacer; the table has a header row and one row
    of five cells per outage, in the order of the list, the row of the i-th
    outage beginning with the number i counted from 1.  For the empty list
    the section is the header and the sentence that no outage was recorded,
    with no table. *)
Theorem create_outage_details_shape (outs : list Outage) :
  (outs = [] ->
   _create_outage_details strftime_minutes format_2f outs
   = [ Paragraph "Outage Event Details" "SectionHeader";
       Paragraph "No outage events recorded this period." "Normal" ])
  /\ (outs <> [] ->
      exists data,
        _create_outage_details strftime_minutes format_2f outs
        = [ Paragraph "Outage Event Details" "SectionHeader";
            Table data; Spacer 1 (3 # 10) ]
        /\ List.length data = S (List.length outs)
        /\ Forall (fun row => List.length row = 5%nat) data
        /\ forall i o,
             nth_error outs i = Some o ->
             nth_error data (S i)
             = Some (outage_table_row strftime_minutes format_2f (S i) o)
             /\ nth_error (outage_table_row strftime_minutes format_2f (S i) o) 0
                = Some (str_nat (S i))).
Proof.
  split.
  - intros ->. reflexivity.
  - intros Hne. destruct outs as [|o0 outs0]; [contradiction |].
    eexists. split; [reflexivity |].
    split; [simpl; rewrite outage_table_rows_length; reflexivity |].
    split.
    + constructor; [reflexivity |].
      apply (outage_table_rows_width (o0 :: outs0) 1).
    + intros i o H. split; [| reflexivity].
      change (nth_error (outage_table_rows strftime_minutes format_2f 1
                           (o0 :: outs0)) i
              = Some (outage_table_row strftime_minutes format_2f (S i) o)).
      rewrite (outage_table_rows_nth (o0 :: outs0) 1 i o H). reflexivity.
Qed.

Lemma outage_table_rows_ext (outs outs' : list Outage) :
  map (fun o => (start o, end_ o, duration_minutes o)) outs
  = map (fun o => (start o, end_ o, duration_minutes o)) outs' ->
  forall idx,
    outage_table_rows strftime_minutes format_2f idx outs
    = outage_table_rows strftime_minutes format_2f idx outs'.
Proof.
  revert outs'. induction outs as [|o outs IH]; intros outs' H idx;
    destruct outs' as [|o' outs']; try discriminate; [reflexivity |].
  simpl in H. inversion H as [[Hs He Hd Hrest]].
  simpl. rewrite (IH outs' Hrest (S idx)).
  unfold outage_table_row. rewrite Hs, He, Hd. reflexivity.
Qed.

(** X13 -- The details section shows nothing of the ['ongoing'] flag: two
    outage lists with the same starts, ends and minutes give the same
    section, whatever their flags.  The last cell of a row reads
    "Exceeds limit" exactly when the outage lasts more than 240 minutes. *)
Theorem create_outage_details_ignores_ongoing (outs outs' : list Outage) :
  map (fun o => (start o, end_ o, duration_minutes o)) outs
  = map (fun o => (start o, end_ o, duration_minutes o)) outs' ->
  _create_outage_details strftime_minutes format_2f outs
  = _create_outage_details strftime_minutes format_2f outs'
  /\ forall idx o,
       nth_error (outage_table_row strftime_minutes format_2f idx o) 4
       = Some (if Qltb 240 (duration_minutes o)
               then "✗ Exceeds limit" else "✓ Within limit").
Proof.
  intros H. split; [| reflexivity].
  unfold _create_outage_details.
  destruct outs as [|o outs]; destruct outs' as [|o' outs']; try discriminate;
    [reflexivity |].
  rewrite (outage_table_rows_ext (o :: outs) (o' :: outs') H 1). reflexivity.
Qed.

(** X14 -- The details table and the verdict use different limits.  Every
    outage the table marks "Exceeds limit" makes the verdict of
    [check_epa_compliance] non-compliant; an outage of more than 60 and at
    most 240 minutes makes the verdict non-compliant too, and the table
    marks it "Within limit". *)
Theorem outage_table_limit_and_verdict
    (outs : list Outage) (availability : Q) (idx : nat) (o : Outage) :
  In o outs ->
  (nth_error (outage_table_row strftime_minutes format_2f idx o) 4
   = Some "✗ Exceeds limit" ->
   compliant (check_epa_compliance outs availability) = false)
  /\ ((60 < duration_minutes o)%Q -> (duration_minutes o <= 240)%Q ->
      nth_error (outage_table_row strftime_minutes format_2f idx o) 4
      = Some "✓ Within limit"
      /\ compliant (check_epa_compliance outs availability) = false).
Proof.
  intros Hin.
  assert (Hlong : (60 < duration_minutes o)%Q ->
                  compliant (check_epa_compliance outs availability) = false).
  { intros H. destruct (compliant (check_epa_compliance outs availability)) eqn:E;
      [| reflexivity].
    apply compliant_true_iff in E. destruct E as (_ & Hall & _).
    rewrite Forall_forall in Hall. specialize (Hall o Hin).
    exfalso. exact (Qlt_not_le _ _ H Hall). }
  split.
  - unfold outage_table_row. cbn [nth_error].
    destruct (Qltb REPORT_DURATION_LIMIT (duration_minutes o)) eqn:E.
    + intros _. apply Hlong. apply Qltb_lt in E.
      unfold REPORT_DURATION_LIMIT in E.
      apply Qlt_trans with (y := 240%Q); [reflexivity | exact E].
    + intros H. inversion H.
  - intros H60 H240. split; [| apply Hlong; exact H60].
    unfold outage_table_row. cbn [nth_error].
    apply Qltb_ge in H240. unfold REPORT_DURATION_LIMIT. rewrite H240. reflexivity.
Qed.

End ReportProperties.

Lemma create_outage_details_shape_witness :
  exists data,
    _create_outage_details sample_strftime sample_format_2f
      [outage_of_minutes 10; outage_of_minutes 90]
    = [ Paragraph "Outage Event Details" "SectionHeader";
        Table data; Spacer 1 (3 # 10) ]
    /\ List.length data = 3%nat.
Proof.
  assert (Hne : [outage_of_minutes 10; outage_of_minutes 90] <> [])
    by discriminate.
  destruct (proj2 (create_outage_details_shape sample_strftime sample_format_2f
                     [outage_of_minutes 10; outage_of_minutes 90]) Hne)
    as (data & E & Hlen & _).
  exists data. split; [exact E | exact Hlen].
Defined.

Lemma create_outage_details_ignores_ongoing_witness :
  _create_outage_details sample_strftime sample_format_2f
    [mkOutage 0 9 9 (minutes 9) (Some true)]
  = _create_outage_details sample_strftime sample_format_2f
      [mkOutage 0 9 9 (minutes 9) None].
Proof.
  exact (proj1 (create_outage_details_ignores_ongoing sample_strftime sample_format_2f
                  [mkOutage 0 9 9 (minutes 9) (Some true)]
                  [mkOutage 0 9 9 (minutes 9) None] eq_refl)).
Defined.

Lemma outage_table_limit_and_verdict_witness :
  nth_error (outage_table_row sample_strftime sample_format_2f 1 (outage_of_minutes 90)) 4
  = Some "✓ Within limit"
  /\ compliant (check_epa_compliance [outage_of_minutes 90] 100) = false.
Proof.
  apply (proj2 (outage_table_limit_and_verdict sample_strftime sample_format_2f [outage_of_minutes 90] 100 1
                  (outage_of_minutes 90) (or_introl eq_refl))).
  - vm_compute. reflexivity.
  - vm_compute. discriminate.
Defined.

(** ** The executive summary of a successful analysis *)

(** What a successful result of [analyze_data] holds. *)
Lemma analyze_data_success_inv
    (Device : Type) (sort_values : list RawRow -> list RawRow) (np : Numpy)
    (repr_columns : list string -> string)
    (loaded : Exc (option DataFrame)) (device device' : Device)
    (month_data month_data' : MonthData)
    (data : list Row) (outs : list Outage) (summary : Summary) :
  analyze_data Device sort_values np repr_columns loaded device month_data
  = Success data outs summary device' month_data' ->
  identify_outages data = Ok outs
  /\ summary
     = mkSummary (List.length outs) (sum_duration_minutes outs)
         (calculate_availability data outs month_data)
         (status (check_epa_compliance outs
                    (calculate_availability data outs month_data)))
         (check_epa_compliance outs (calculate_availability data outs month_data))
         (calculate_statistics np outs).
Proof.
  unfold analyze_data. intros H.
  destruct loaded as [[df|]|e]; try discriminate.
  destruct (negb (has_column "Time" df) || negb (has_column "Message" df))%bool;
    [discriminate |].
  destruct (parse_timestamps df) as [df' parsed].
  destruct (negb parsed); [discriminate |].
  destruct (str_contains_pilot df' _); [| discriminate].
  destruct (identify_outages (normalize sort_values df' month_data)) as [o|e] eqn:E;
    [| discriminate].
  inversion H; subst. split; [exact E | reflexivity].
Qed.

(** [compliant] is false exactly when an issue was recorded. *)
Lemma compliant_false_issues (outs : list Outage) (availability : Q) :
  compliant (check_epa_compliance outs availability) = false ->
  issues (check_epa_compliance outs availability) <> [].
Proof.
  rewrite check_epa_compliance_compliant, check_epa_compliance_issues.
  unfold issue_if.
  destruct (too_many_outages outs), (some_long_outage outs),
    (low_availability availability); simpl; intros H; discriminate.
Qed.

Section SummaryProperties.

Variable format_2f : Q -> string.
Variable issue_text : Issue -> string.
Variable green_hexval : string.
Variable red_hexval : string.

Variable Device : Type.
Variable sort_values : list RawRow -> list RawRow.
Variable np : Numpy.
Variable repr_columns : list string -> string.

(** X15 -- In the report of a successful analysis the marks of the key
    metrics table agree with the analyzer: the mark of "Total Outages" is
    the check mark exactly when the rule on the number of outages holds, and
    the mark of "System Availability" exactly when the rule on availability
    holds; a compliant verdict therefore shows both check marks. *)
Theorem metrics_marks_agree
    (loaded : Exc (option DataFrame)) (device device' : Device)
    (month_data month_data' : MonthData)
    (data : list Row) (outs : list Outage) (summary : Summary) :
  analyze_data Device sort_values np repr_columns loaded device month_data
  = Success data outs summary device' month_data' ->
  (exists count_cell availability_cell time_row longest_row,
      metrics_data format_2f summary
      = [ ["Metric"; "Value"; "Status"];
          ["Total Outages"; count_cell; mark (negb (too_many_outages outs))];
          ["System Availability"; availability_cell;
           mark (negb (low_availability (availability_percent summary)))];
          time_row; longest_row ])
  /\ (compliant (compliance_details summary) = true ->
      too_many_outages outs = false
      /\ low_availability (availability_percent summary) = false).
Proof.
  intros H.
  destruct (analyze_data_success_inv _ _ _ _ _ _ _ _ _ _ _ _ H) as [_ ->].
  cbn [availability_percent compliance_details].
  split.
  - unfold metrics_data. cbn [total_outages availability_percent].
    do 4 eexists. f_equal. f_equal.
    + f_equal. f_equal. f_equal.
      unfold too_many_outages, REPORT_MAX_OUTAGES, MAX_OUTAGES_PER_MONTH.
      rewrite Nat.ltb_antisym, negb_involutive. reflexivity.
    + f_equal. f_equal. f_equal. f_equal.
      unfold low_availability, Qltb, REPORT_MIN_AVAILABILITY,
        MIN_AVAILABILITY_PERCENT.
      rewrite negb_involutive. reflexivity.
  - rewrite check_epa_compliance_compliant. intros Hc.
    apply andb_true_iff in Hc. destruct Hc as [Hc H3].
    apply andb_true_iff in Hc. destruct Hc as [H1 _].
    apply negb_true_iff in H1. apply negb_true_iff in H3. auto.
Qed.

(** X16 -- In the report of a successful analysis the block "Compliance
    Issues:" is present exactly when the verdict is non-compliant, and it
    then lists one bullet per issue of the analyzer, in their order, between
    its heading and a spacer; after a compliant verdict the summary ends
    with the metrics table and its spacer. *)
Theorem executive_summary_issue_block
    (loaded : Exc (option DataFrame)) (device device' : Device)
    (month_data month_data' : MonthData)
    (data : list Row) (outs : list Outage) (summary : Summary) :
  analyze_data Device sort_values np repr_columns loaded device month_data
  = Success data outs summary device' month_data' ->
  exists status_text,
    _create_executive_summary format_2f issue_text green_hexval red_hexval summary
    = ([ Paragraph "Executive Summary" "SectionHeader";
         Paragraph status_text "Normal"; Spacer 1 (2 # 10);
         Table (metrics_data format_2f summary); Spacer 1 (3 # 10) ]
       ++ if compliant (compliance_details summary) then []
          else [Paragraph "Compliance Issues:" "SubSection"]
               ++ map (fun issue => Paragraph ("• " ++ issue_text issue) "Normal")
                      (issues (compliance_details summary))
               ++ [Spacer 1 (2 # 10)])%list.
Proof.
  intros H.
  destruct (analyze_data_success_inv _ _ _ _ _ _ _ _ _ _ _ _ H) as [_ ->].
  cbn [compliance_details].
  set (c := check_epa_compliance outs _).
  unfold _create_executive_summary. cbn [compliance_details].
  fold c.
  destruct (compliant c) eqn:Ec.
  - eexists. destruct (issues c); reflexivity.
  - assert (Hne : issues c <> []).
    { apply compliant_false_issues. exact Ec. }
    eexists. destruct (issues c) as [|i l]; [contradiction | reflexivity].
Qed.

End SummaryProperties.

Lemma sample_frame_long_well_loaded : well_loaded sample_frame_long.
Proof.
  split; [reflexivity |]. split; [reflexivity |].
  repeat constructor; discriminate.
Qed.

Lemma sample_frame_long_analysis :
  exists summary,
    analyze_data unit sort_keeping_ties sample_numpy sample_repr
      (Ok (Some sample_frame_long)) tt sample_month
    = Success (normalize sort_keeping_ties sample_frame_long sample_month)
        [outage_of_minutes 90] summary tt sample_month.
Proof.
  eexists.
  apply (analyze_data_well_loaded unit sort_keeping_ties sample_numpy sample_repr
           sample_frame_long tt sample_month [outage_of_minutes 90]
           sample_frame_long_well_loaded eq_refl).
  vm_compute. reflexivity.
Defined.

Lemma metrics_marks_agree_witness :
  exists summary count_cell availability_cell time_row longest_row,
    metrics_data sample_format_2f summary
    = [ ["Metric"; "Value"; "Status"];
        ["Total Outages"; count_cell; "✓"];
        ["System Availability"; availability_cell; "✓"];
        time_row; longest_row ]
    /\ compliant (compliance_details summary) = false.
Proof.
  destruct sample_frame_long_analysis as [summary E].
  destruct (proj1 (metrics_marks_agree sample_format_2f unit sort_keeping_ties
                     sample_numpy sample_repr _ _ _ _ _ _ _ _ E))
    as (c & a & t & l & Hm).
  exists summary, c, a, t, l.
  destruct (analyze_data_success_inv _ _ _ _ _ _ _ _ _ _ _ _ E) as [_ Hs].
  split.
  - rewrite Hm. rewrite Hs. vm_compute. reflexivity.
  - rewrite Hs. vm_compute. reflexivity.
Defined.

Lemma executive_summary_issue_block_witness :
  exists summary status_text bullet,
    _create_executive_summary sample_format_2f sample_issue_text
      "0x008000" "0xff0000" summary
    = [ Paragraph "Executive Summary" "SectionHeader";
        Paragraph status_text "Normal"; Spacer 1 (2 # 10);
        Table (metrics_data sample_format_2f summary); Spacer 1 (3 # 10);
        Paragraph "Compliance Issues:" "SubSection";
        Paragraph bullet "Normal";
        Spacer 1 (2 # 10) ].
Proof.
  destruct sample_frame_long_analysis as [summary E].
  destruct (executive_summary_issue_block sample_format_2f sample_issue_text
              "0x008000" "0xff0000" unit sort_keeping_ties sample_numpy
              sample_repr _ _ _ _ _ _ _ _ E) as [status_text Hs].
  exists summary, status_text.
  destruct (analyze_data_success_inv _ _ _ _ _ _ _ _ _ _ _ _ E) as [_ Hsum].
  eexists. rewrite Hs. rewrite Hsum. vm_compute. reflexivity.
Defined.

(** * The email sender *)

Lemma split_on_nonempty (sep : ascii) (s : string) : split_on sep s <> [].
Proof.
  destruct s as [|c s]; simpl; [discriminate |].
  destruct (Ascii.eqb c sep); [discriminate |].
  destruct (split_on sep s); discriminate.
Qed.

(** Without the separator the string is returned whole. *)
Lemma split_on_absent (sep : ascii) (s : string) :
  ~ In sep (list_ascii_of_string s) -> split_on sep s = [s].
Proof.
  induction s as [|c s IH]; intros H; simpl; [reflexivity |].
  destruct (Ascii.eqb c sep) eqn:E.
  - apply Ascii.eqb_eq in E. subst. exfalso. apply H. left. reflexivity.
  - rewrite IH; [reflexivity |]. intros Hin. apply H. right. exact Hin.
Qed.

(** The text before the first separator ends the first piece. *)
Lemma split_on_first (sep : ascii) (l r : string) :
  ~ In sep (list_ascii_of_string l) ->
  split_on sep (l ++ String sep r) = l :: split_on sep r.
Proof.
  induction l as [|c l IH]; intros H; simpl.
  - rewrite Ascii.eqb_refl. reflexivity.
  - destruct (Ascii.eqb c sep) eqn:E.
    + apply Ascii.eqb_eq in E. subst. exfalso. apply H. left. reflexivity.
    + rewrite IH; [reflexivity |]. intros Hin. apply H. right. exact Hin.
Qed.

Lemma split_on_present (sep : ascii) (s : string) :
  In sep (list_ascii_of_string s) ->
  exists a b rest, split_on sep s = a :: b :: rest.
Proof.
  induction s as [|c s IH]; intros H; simpl in *; [contradiction |].
  destruct (Ascii.eqb c sep) eqn:E.
  - destruct (split_on sep s) as [|b rest] eqn:Es.
    + exfalso. exact (split_on_nonempty sep s Es).
    + eauto.
  - destruct H as [H | H]; [apply Ascii.eqb_neq in E; congruence |].
    destruct (IH H) as (a & b & rest & ->). eauto.
Qed.

Lemma smtp_lookup_cases (domain : string) :
  In (dict_get smtp_configs domain ("smtp.gmail.com", 587%nat))
     [ ("smtp.gmail.com", 587%nat); ("smtp-mail.outlook.com", 587%nat);
       ("smtp.office365.com", 587%nat); ("smtp.mail.yahoo.com", 587%nat) ].
Proof.
  unfold smtp_configs. cbn [dict_get].
  repeat match goal with
         | |- context [String.eqb ?k domain] => destruct (String.eqb k domain)
         end; simpl; tauto.
Qed.

Lemma detect_smtp_settings_no_at (email : string) :
  ~ In "@"%char (list_ascii_of_string email) ->
  _detect_smtp_settings email = Raise IndexError.
Proof.
  intros H. unfold _detect_smtp_settings.
  rewrite (split_on_absent _ _ H). reflexivity.
Qed.

(** X17 -- [_detect_smtp_settings] raises [IndexError] exactly on an
    address without "@"; on any other address it returns one of the four
    servers of the table, always with port 587. *)
Theorem detect_smtp_settings_total (email : string) :
  (~ In "@"%char (list_ascii_of_string email) ->
   _detect_smtp_settings email = Raise IndexError)
  /\ (In "@"%char (list_ascii_of_string email) ->
      exists server,
        _detect_smtp_settings email = Ok (server, 587%nat)
        /\ In server [ "smtp.gmail.com"; "smtp-mail.outlook.com";
                       "smtp.office365.com"; "smtp.mail.yahoo.com" ]).
Proof.
  unfold _detect_smtp_settings. split; intros H.
  - apply detect_smtp_settings_no_at. unfold _detect_smtp_settings in *. exact H.
  - destruct (split_on_present _ _ H) as (a & b & rest & ->). cbn [index_1 bind].
    pose proof (smtp_lookup_cases (lower b)) as Hc.
    destruct (dict_get smtp_configs (lower b) ("smtp.gmail.com", 587%nat))
      as [server port].
    simpl in Hc.
    destruct Hc as [Hc | [Hc | [Hc | [Hc | []]]]]; inversion Hc; subst;
      eexists; (split; [reflexivity |]); simpl; tauto.
Qed.

Lemma detect_smtp_settings_total_witness :
  _detect_smtp_settings "reports.ctjenergy.com" = Raise IndexError
  /\ exists server, _detect_smtp_settings "reports@ctjenergy.com" = Ok (server, 587%nat).
Proof.
  split.
  - apply (proj1 (detect_smtp_settings_total "reports.ctjenergy.com")).
    vm_compute. intuition discriminate.
  - destruct (proj2 (detect_smtp_settings_total "reports@ctjenergy.com"))
      as (server & E & _).
    + vm_compute. tauto.
    + exists server. exact E.
Defined.

(** X18 -- For an address [local@domain] whose local part holds no "@", the
    settings are those of the table entry for the lower-cased text between
    the first "@" and the next one, or those of Gmail when the table has no
    such entry: the local part and whatever follows a second "@" play no
    role. *)
Theorem detect_smtp_settings_domain (loc domain rest : string) :
  ~ In "@"%char (list_ascii_of_string loc) ->
  ~ In "@"%char (list_ascii_of_string domain) ->
  is_ascii domain ->
  _detect_smtp_settings (loc ++ "@" ++ domain)
  = Ok (dict_get smtp_configs (lower domain) ("smtp.gmail.com", 587%nat))
  /\ _detect_smtp_settings (loc ++ "@" ++ domain ++ "@" ++ rest)
     = _detect_smtp_settings (loc ++ "@" ++ domain).
Proof.
  intros Hl Hd _. unfold _detect_smtp_settings.
  change (loc ++ "@" ++ domain)%string with (loc ++ String "@"%char domain)%string.
  change (loc ++ "@" ++ domain ++ "@" ++ rest)%string
    with (loc ++ String "@"%char (domain ++ String "@"%char rest))%string.
  rewrite !(split_on_first _ loc _ Hl).
  rewrite (split_on_absent _ domain Hd), (split_on_first _ domain rest Hd).
  split; reflexivity.
Qed.

Lemma detect_smtp_settings_domain_witness :
  _detect_smtp_settings "Reports@CTJEnergy.COM" = Ok ("smtp.office365.com", 587%nat)
  /\ _detect_smtp_settings "someone@example.org" = Ok ("smtp.gmail.com", 587%nat).
Proof.
  split.
  - apply (proj1 (detect_smtp_settings_domain "Reports" "CTJEnergy.COM" EmptyString
                    ltac:(vm_compute; intuition discriminate)
                    ltac:(vm_compute; intuition discriminate)
                    ltac:(repeat constructor))).
  - apply (proj1 (detect_smtp_settings_domain "someone" "example.org" EmptyString
                    ltac:(vm_compute; intuition discriminate)
                    ltac:(vm_compute; intuition discriminate)
                    ltac:(repeat constructor))).
Defined.

(** X19 -- [EmailSender.__init__] keeps a server and a port that are both
    given, and then accepts any sender address; when one of the two is
    missing the other is discarded and both are detected from the address,
    so that an address without "@" raises [IndexError]. *)
Theorem EmailSender_init_settings (from_email password : string) :
  (forall server port,
      EmailSender_init from_email password (Some server) (Some port)
      = Ok (mkEmailSender from_email password server port))
  /\ (forall server,
         EmailSender_init from_email password (Some server) None
         = EmailSender_init from_email password None None)
  /\ (forall port,
         EmailSender_init from_email password None (Some port)
         = EmailSender_init from_email password None None)
  /\ (forall server port,
         (server = None \/ port = None) ->
         ~ In "@"%char (list_ascii_of_string from_email) ->
         EmailSender_init from_email password server port = Raise IndexError).
Proof.
  split; [reflexivity |]. split; [reflexivity |]. split; [reflexivity |].
  intros server port Hnone Hat.
  unfold EmailSender_init.
  rewrite (detect_smtp_settings_no_at from_email Hat).
  destruct server, port; try reflexivity.
  destruct Hnone; discriminate.
Qed.

Lemma EmailSender_init_settings_witness :
  EmailSender_init "reports" "secret" (Some "smtp.example.org") None
  = Raise IndexError.
Proof.
  apply (proj2 (proj2 (proj2 (EmailSender_init_settings "reports" "secret")))).
  - right; reflexivity.
  - vm_compute. intuition discriminate.
Defined.

(** * The orchestration *)

Lemma detect_smtp_settings_with_at (email : string) :
  In "@"%char (list_ascii_of_string email) ->
  exists settings, _detect_smtp_settings email = Ok settings.
Proof.
  intros H. unfold _detect_smtp_settings.
  destruct (split_on_present _ _ H) as (a & b & rest & ->).
  eexists. reflexivity.
Qed.

Section AutomationProperties.

Variable mkdir_output : Exc unit.
Variable path_join : string -> string -> string.
Variable download_device_data :
  string -> Timestamp -> Timestamp -> string -> Exc (option string).
Variable path_exists : string -> bool.
Variable load_file : string -> Exc (option DataFrame).
Variable sort_values : list RawRow -> list RawRow.
Variable np : Numpy.
Variable repr_columns : list string -> string.
Variable generate_report :
  AnalysisResult DeviceInfo -> DeviceInfo -> MonthData -> string -> Exc PdfResult.
Variable send_report :
  EmailSender -> list string -> DeviceInfo -> string -> string -> Summary
  -> EmailResult.
Variable format_2f : Q -> string.

Local Abbreviation run :=
  (run_automation mkdir_output path_join download_device_data path_exists
     load_file sort_values np repr_columns generate_report send_report format_2f).

Local Abbreviation analyze csv config :=
  (analyze_data DeviceInfo sort_values np repr_columns (load_file csv)
     (device config) (month config)).

Local Abbreviation downloaded :=
  (downloaded mkdir_output download_device_data path_exists).

Local Abbreviation report_path_of := (report_path_of path_join).

Lemma run_after_download (config : Config) (csv : string) :
  downloaded config csv ->
  run config
  = match analyze csv config with
    | Failure error =>
        ([("Step 1/5: Logging into Uplink system and downloading data...", 20%nat);
          ("Step 2/5: Analyzing pilot outage events...", 40%nat)],
         RunFailure (Literal "Failed to analyze data") (DetailsText error))
    | Success _ _ analysis_summary _ _ =>
        let log :=
          [("Step 1/5: Logging into Uplink system and downloading data...", 20%nat);
           ("Step 2/5: Analyzing pilot outage events...", 40%nat);
           ("Step 3/5: Generating PDF report...", 60%nat)] in
        match generate_report (analyze csv config) (device config) (month config)
                (report_path_of config) with
        | Raise e => (log, caught e)
        | Ok (PdfFailed error) =>
            (log, RunFailure (Literal "Failed to generate PDF report")
                    (DetailsText error))
        | Ok (PdfOk _) =>
            let summary :=
              mkDisplay (total_outages analysis_summary)
                (format_2f (availability_percent analysis_summary) ++ "%")
                (epa_compliance analysis_summary) in
            if email_requested config then
              match EmailSender_init (email_from config) (email_password config)
                      None None with
              | Raise e =>
                  ((log ++ [("Step 4/5: Sending email report...", 80%nat)])%list,
                   caught e)
              | Ok email_sender =>
                  ((log ++ [("Step 4/5: Sending email report...", 80%nat);
                            ("Step 5/5: Finalizing report...", 95%nat)])%list,
                   RunSuccess (report_path_of config)
                     match send_report email_sender (email_recipients config)
                             (device config) (report_period_display config)
                             (report_path_of config) analysis_summary with
                     | EmailOk => true
                     | EmailFailed _ => false
                     end
                     summary (analyze csv config))
              end
            else
              ((log ++ [("Step 5/5: Finalizing report...", 95%nat)])%list,
               RunSuccess (report_path_of config) false summary
                 (analyze csv config))
        end
    end.
Proof.
  intros ([u Hmk] & Hd & Hne & Hex).
  unfold run_automation, report_path_of, email_requested.
  rewrite Hmk. cbv zeta. rewrite Hd.
  apply String.eqb_neq in Hne. rewrite Hne, Hex. cbn [negb orb].
  destruct (analyze csv config) as [data outs summary dev md | error];
    [| reflexivity].
  destruct (generate_report _ _ _ _) as [[pdf | error] | e]; try reflexivity.
Qed.

(** X20 -- When the analysis of the downloaded file fails, the run fails
    with the error "Failed to analyze data" and the message of the analysis
    as details; the last status issued is that of step 2, so neither the
    report nor the email is attempted. *)
Theorem run_automation_analysis_failure
    (config : Config) (csv : string) (error : ErrorText) :
  downloaded config csv ->
  analyze csv config = Failure error ->
  run config
  = ([("Step 1/5: Logging into Uplink system and downloading data...", 20%nat);
      ("Step 2/5: Analyzing pilot outage events...", 40%nat)],
     RunFailure (Literal "Failed to analyze data") (DetailsText error)).
Proof.
  intros Hd Ha. rewrite (run_after_download config csv Hd), Ha. reflexivity.
Qed.

(** X21 -- Once the file is downloaded, analysed and rendered, the outcome
    of [send_report] cannot fail the run: if the sender address holds an "@"
    whenever an email is requested, the run succeeds with the report path,
    ends with the status of step 5, and [email_sent] is true exactly when
    an email was requested (send flag set, password not empty) and
    [send_report] succeeded. *)
Theorem run_automation_email_cannot_fail
    (config : Config) (csv pdf : string)
    (data : list Row) (outs : list Outage) (summary : Summary)
    (dev : DeviceInfo) (md : MonthData) :
  downloaded config csv ->
  analyze csv config = Success data outs summary dev md ->
  generate_report (Success data outs summary dev md) (device config)
    (month config) (report_path_of config) = Ok (PdfOk pdf) ->
  (email_requested config = true ->
   In "@"%char (list_ascii_of_string (email_from config))) ->
  exists log email_sent display,
    run config
    = ((log ++ [("Step 5/5: Finalizing report...", 95%nat)])%list,
       RunSuccess (report_path_of config) email_sent display
         (Success data outs summary dev md))
    /\ display_total_outages display = List.length outs
    /\ display_compliance display = epa_compliance summary
    /\ (email_sent = true <->
        email_requested config = true
        /\ exists sender,
             EmailSender_init (email_from config) (email_password config) None None
             = Ok sender
             /\ send_report sender (email_recipients config) (device config)
                  (report_period_display config) (report_path_of config) summary
                = EmailOk).
Proof.
  intros Hd Ha Hg Hat.
  rewrite (run_after_download config csv Hd), Ha.
  cbv zeta. rewrite Hg.
  assert (Hlen : total_outages summary = List.length outs).
  { destruct (analyze_data_success_inv _ _ _ _ _ _ _ _ _ _ _ _ Ha) as [_ ->].
    reflexivity. }
  destruct (email_requested config) eqn:Er.
  - destruct (detect_smtp_settings_with_at (email_from config) (Hat eq_refl))
      as [settings Hs].
    unfold EmailSender_init. rewrite Hs. cbn [bind].
    eexists (_ ++ [_])%list, _, _. split.
    { rewrite <- app_assoc. reflexivity. }
    split; [exact Hlen |]. split; [reflexivity |].
    split.
    + intros He. split; [reflexivity |]. eexists. split; [reflexivity |].
      destruct (send_report _ _ _ _ _ _); [reflexivity | discriminate].
    + intros (_ & sender & Hsender & Hsend). inversion Hsender; subst sender.
      rewrite Hsend. reflexivity.
  - eexists _, false, _. split; [reflexivity |].
    split; [exact Hlen |]. split; [reflexivity |].
    split; [discriminate | intros [H _]; discriminate].
Qed.

(** X22 -- With an email requested and a sender address without "@", a run
    whose file was downloaded, analysed and rendered fails with the
    [IndexError] of [_detect_smtp_settings], after the status of step 4:
    the report file has been generated and the run reports a failure. *)
Theorem run_automation_bad_sender_fails
    (config : Config) (csv pdf : string)
    (data : list Row) (outs : list Outage) (summary : Summary)
    (dev : DeviceInfo) (md : MonthData) :
  downloaded config csv ->
  analyze csv config = Success data outs summary dev md ->
  generate_report (Success data outs summary dev md) (device config)
    (month config) (report_path_of config) = Ok (PdfOk pdf) ->
  email_requested config = true ->
  ~ In "@"%char (list_ascii_of_string (email_from config)) ->
  run config
  = ([("Step 1/5: Logging into Uplink system and downloading data...", 20%nat);
      ("Step 2/5: Analyzing pilot outage events...", 40%nat);
      ("Step 3/5: Generating PDF report...", 60%nat);
      ("Step 4/5: Sending email report...", 80%nat)],
     RunFailure (StrOf IndexError) (Traceback IndexError)).
Proof.
  intros Hd Ha Hg Hr Hat.
  rewrite (run_after_download config csv Hd), Ha.
  cbv zeta. rewrite Hg, Hr.
  unfold EmailSender_init. rewrite (detect_smtp_settings_no_at _ Hat).
  reflexivity.
Qed.

(** X23 -- In every run the progress values are issued in increasing order
    and form one of the sequences 20, 40, 60, 80, 95 cut short or without
    80; the value 95 is issued exactly when the run succeeds. *)
Theorem run_automation_progress (config : Config) :
  In (map snd (fst (run config))) progress_sequences
  /\ (In 95%nat (map snd (fst (run config))) <-> is_success (snd (run config)) = true).
Proof.
  unfold run_automation, progress_sequences.
  destruct mkdir_output as [u | e];
    [| simpl; split; [tauto | split; [intros []| discriminate]]].
  cbv zeta.
  destruct (download_device_data _ _ _ _) as [[csv |] | e];
    try (simpl; split; [tauto | split; [intros [H | []]; discriminate H
                                       | discriminate]]).
  destruct (String.eqb csv EmptyString || negb (path_exists csv))%bool;
    try (simpl; split; [tauto | split; [intros [H | []]; discriminate H
                                       | discriminate]]).
  destruct (analyze_data _ _ _ _ _ _ _) as [data outs summary dev md | error];
    try (simpl; split; [tauto | split; [intros [H | [H | []]]; discriminate H
                                       | discriminate]]).
  destruct (generate_report _ _ _ _) as [[pdf | error] | e];
    try (simpl; split; [tauto | split; [intros [H | [H | [H | []]]]; discriminate H
                                       | discriminate]]).
  destruct (send_email config && _)%bool.
  - destruct (EmailSender_init _ _ _ _) as [sender | e].
    + simpl. split; [tauto | split; [reflexivity | tauto]].
    + simpl. split; [tauto |].
      split; [intros [H | [H | [H | [H | []]]]]; discriminate H | discriminate].
  - simpl. split; [tauto | split; [reflexivity | tauto]].
Qed.

End AutomationProperties.

(** ** Sample runs *)

Lemma sample_downloaded (df : DataFrame) (from_address : string) (send : bool) :
  downloaded (Ok tt) sample_download (fun _ => true)
    (sample_config from_address send) "events.xlsx".
Proof.
  split; [exists tt; reflexivity |]. split; [reflexivity |].
  split; [discriminate | reflexivity].
Defined.

Lemma sample_long_analysis_device :
  analyze_data DeviceInfo sort_keeping_ties sample_numpy sample_repr
    (Ok (Some sample_frame_long)) sample_device sample_month
  = Success (normalize sort_keeping_ties sample_frame_long sample_month)
      [outage_of_minutes 90]
      (mkSummary 1 (sum_duration_minutes [outage_of_minutes 90])
         (calculate_availability
            (normalize sort_keeping_ties sample_frame_long sample_month)
            [outage_of_minutes 90] sample_month)
         (status (check_epa_compliance [outage_of_minutes 90]
                    (calculate_availability
                       (normalize sort_keeping_ties sample_frame_long sample_month)
                       [outage_of_minutes 90] sample_month)))
         (check_epa_compliance [outage_of_minutes 90]
            (calculate_availability
               (normalize sort_keeping_ties sample_frame_long sample_month)
               [outage_of_minutes 90] sample_month))
         (calculate_statistics sample_numpy [outage_of_minutes 90]))
      sample_device sample_month.
Proof.
  apply (analyze_data_well_loaded DeviceInfo sort_keeping_ties sample_numpy
           sample_repr sample_frame_long sample_device sample_month
           [outage_of_minutes 90] sample_frame_long_well_loaded eq_refl).
  vm_compute. reflexivity.
Defined.

Lemma run_automation_analysis_failure_witness :
  sample_run sample_frame_no_message "reports@ctjenergy.com" false
  = ([("Step 1/5: Logging into Uplink system and downloading data...", 20%nat);
      ("Step 2/5: Analyzing pilot outage events...", 40%nat)],
     RunFailure (Literal "Failed to analyze data")
       (DetailsText
          (Literal (required_columns_error sample_repr sample_frame_no_message)))).
Proof.
  apply (run_automation_analysis_failure (Ok tt) sample_path_join sample_download
           (fun _ => true) (fun _ => Ok (Some sample_frame_no_message))
           sort_keeping_ties sample_numpy sample_repr sample_generate_report
           sample_send_report sample_format_2f
           (sample_config "reports@ctjenergy.com" false) "events.xlsx").
  - apply (sample_downloaded sample_frame_no_message).
  - reflexivity.
Defined.

Lemma run_automation_email_cannot_fail_witness :
  exists log display detailed,
    sample_run sample_frame_long "reports@ctjenergy.com" true
    = ((log ++ [("Step 5/5: Finalizing report...", 95%nat)])%list,
       RunSuccess
         (report_path_of sample_path_join
            (sample_config "reports@ctjenergy.com" true))
         false display detailed).
Proof.
  destruct (run_automation_email_cannot_fail (Ok tt) sample_path_join
              sample_download (fun _ => true) (fun _ => Ok (Some sample_frame_long))
              sort_keeping_ties sample_numpy sample_repr sample_generate_report
              sample_send_report sample_format_2f
              (sample_config "reports@ctjenergy.com" true) "events.xlsx"
              (report_path_of sample_path_join
                 (sample_config "reports@ctjenergy.com" true))
              _ _ _ _ _
              (sample_downloaded sample_frame_long _ _)
              sample_long_analysis_device eq_refl)
    as (log & email_sent & display & Hrun & _ & _ & Hsent).
  - intros _. vm_compute. tauto.
  - exists log, display. eexists.
    destruct email_sent.
    + exfalso. destruct (proj1 Hsent eq_refl) as (_ & sender & _ & Hsend).
      discriminate Hsend.
    + exact Hrun.
Defined.

Lemma run_automation_bad_sender_fails_witness :
  sample_run sample_frame_long "reports.ctjenergy.com" true
  = ([("Step 1/5: Logging into Uplink system and downloading data...", 20%nat);
      ("Step 2/5: Analyzing pilot outage events...", 40%nat);
      ("Step 3/5: Generating PDF report...", 60%nat);
      ("Step 4/5: Sending email report...", 80%nat)],
     RunFailure (StrOf IndexError) (Traceback IndexError)).
Proof.
  apply (run_automation_bad_sender_fails (Ok tt) sample_path_join
           sample_download (fun _ => true) (fun _ => Ok (Some sample_frame_long))
           sort_keeping_ties sample_numpy sample_repr sample_generate_report
           sample_send_report sample_format_2f
           (sample_config "reports.ctjenergy.com" true) "events.xlsx"
           (report_path_of sample_path_join
              (sample_config "reports.ctjenergy.com" true))
           _ _ _ _ _
           (sample_downloaded sample_frame_long _ _)
           sample_long_analysis_device eq_refl eq_refl).
  vm_compute. intuition discriminate.
Defined.

(** * The recipients field of the dashboard *)

Lemma rstrip_idempotent (s : string) : rstrip (rstrip s) = rstrip s.
Proof.
  induction s as [|c s IH]; [reflexivity |].
  simpl. destruct (rstrip s) as [|d r] eqn:E.
  - destruct (is_space c) eqn:Ec; [reflexivity |].
    simpl. rewrite Ec. reflexivity.
  - simpl. simpl in IH. destruct (rstrip r) as [|d' r'] eqn:Er.
    + destruct (is_space d); [discriminate | rewrite IH; reflexivity].
    + rewrite IH. reflexivity.
Qed.

Lemma lstrip_head (s : string) :
  lstrip s = EmptyString
  \/ exists c t, lstrip s = String c t /\ is_space c = false.
Proof.
  induction s as [|c s IH]; [left; reflexivity |].
  simpl. destruct (is_space c) eqn:E; [exact IH |].
  right. exists c, s. auto.
Qed.

Lemma strip_idempotent (s : string) : strip (strip s) = strip s.
Proof.
  unfold strip.
  destruct (lstrip_head s) as [H | (c & t & H & Hc)]; rewrite H.
  - reflexivity.
  - rewrite (rstrip_solid_cons c t Hc).
    simpl lstrip. rewrite Hc.
    rewrite (rstrip_solid_cons c _ Hc), rstrip_idempotent. reflexivity.
Qed.

Lemma lstrip_chars (s : string) (c : ascii) :
  In c (list_ascii_of_string (lstrip s)) -> In c (list_ascii_of_string s).
Proof.
  induction s as [|d s IH]; [tauto |].
  simpl lstrip. destruct (is_space d); [| tauto].
  intros H. right. apply IH. exact H.
Qed.

Lemma rstrip_chars (s : string) (c : ascii) :
  In c (list_ascii_of_string (rstrip s)) -> In c (list_ascii_of_string s).
Proof.
  induction s as [|d s IH]; [tauto |].
  destruct (rstrip_cons d s) as [E | E]; rewrite E; simpl; [tauto |].
  intros [H | H]; [left; exact H | right; apply IH; exact H].
Qed.

Lemma split_on_pieces (sep : ascii) (s : string) :
  Forall (fun p => ~ In sep (list_ascii_of_string p)) (split_on sep s).
Proof.
  induction s as [|c s IH]; simpl.
  - constructor; [simpl; tauto | constructor].
  - destruct (Ascii.eqb c sep) eqn:E.
    + constructor; [simpl; tauto | exact IH].
    + destruct (split_on sep s) as [|h t]; [repeat constructor; simpl |].
      * apply Ascii.eqb_neq in E. intros [H | []]. congruence.
      * inversion IH; subst. constructor; [| assumption].
        simpl. apply Ascii.eqb_neq in E. intros [H | H]; [congruence | auto].
Qed.

Lemma lstrip_empty_iff (s : string) : lstrip s = EmptyString <-> all_space s = true.
Proof.
  unfold all_space. induction s as [|c s IH]; simpl; [tauto |].
  destruct (is_space c); simpl; [exact IH |].
  split; discriminate.
Qed.

Lemma rstrip_empty_iff (s : string) : rstrip s = EmptyString <-> all_space s = true.
Proof.
  unfold all_space. induction s as [|c s IH]; simpl; [tauto |].
  destruct (rstrip s) eqn:E.
  - destruct (is_space c); simpl; [tauto |].
    split; discriminate.
  - rewrite andb_true_iff. split; [discriminate |].
    intros [_ H]. apply IH in H. discriminate.
Qed.

Lemma all_space_lstrip (s : string) : all_space (lstrip s) = all_space s.
Proof.
  unfold all_space. induction s as [|c s IH]; [reflexivity |].
  simpl lstrip. destruct (is_space c) eqn:E; [| reflexivity].
  simpl. rewrite E. exact IH.
Qed.

Lemma strip_empty_iff (s : string) : strip s = EmptyString <-> all_space s = true.
Proof.
  unfold strip. rewrite rstrip_empty_iff, all_space_lstrip. tauto.
Qed.

Lemma all_space_split (s : string) :
  all_space s = forallb all_space (split_on "010"%char s).
Proof.
  unfold all_space. induction s as [|c s IH]; [reflexivity |].
  simpl. destruct (Ascii.eqb c "010"%char) eqn:E.
  - apply Ascii.eqb_eq in E. subst c. simpl. exact IH.
  - destruct (split_on "010"%char s) as [|h t] eqn:Es.
    + exfalso. exact (split_on_nonempty _ _ Es).
    + simpl in *. rewrite IH. rewrite andb_assoc. reflexivity.
Qed.

(** X24 -- Every recipient taken from the text field is non-empty, free of
    surrounding whitespace and of line breaks; and the list of recipients is
    empty exactly when the dashboard shows the warning that a recipient is
    required, that is when the field holds nothing but whitespace. *)
Theorem parse_recipients_clean (email_recipients : string) :
  Forall (fun r => r <> EmptyString /\ strip r = r
                   /\ ~ In "010"%char (list_ascii_of_string r))
         (parse_recipients email_recipients)
  /\ (parse_recipients email_recipients = []
      <-> recipients_missing email_recipients = true).
Proof.
  split.
  - unfold parse_recipients. apply Forall_forall. intros r Hr.
    apply in_map_iff in Hr. destruct Hr as (e & <- & He).
    apply filter_In in He. destruct He as [He Hne].
    split; [| split].
    + apply negb_true_iff, String.eqb_neq in Hne. exact Hne.
    + apply strip_idempotent.
    + intros Hin. unfold strip in Hin.
      apply rstrip_chars, lstrip_chars in Hin.
      pose proof (split_on_pieces "010"%char email_recipients) as Hp.
      rewrite Forall_forall in Hp. exact (Hp e He Hin).
  - unfold recipients_missing. rewrite String.eqb_eq, strip_empty_iff, all_space_split.
    unfold parse_recipients.
    induction (split_on "010"%char email_recipients) as [|p l IH]; simpl.
    + tauto.
    + destruct (String.eqb (strip p) EmptyString) eqn:E; simpl.
      * apply String.eqb_eq, strip_empty_iff in E. rewrite E. simpl. exact IH.
      * assert (Hp : all_space p = false).
        { destruct (all_space p) eqn:Ea; [| reflexivity].
          apply strip_empty_iff, String.eqb_eq in Ea. congruence. }
        rewrite Hp. simpl. split; discriminate.
Qed.
